(** * gh-verifier: the verification pipeline, embedded and checked

    The development follows the repository's sources:

    - [src/fetch-proposal.ts]        (module [FetchProposal])
    - [src/extract-build-steps.ts]   (module [ExtractBuildSteps])
    - [scripts/build.sh]             (module [BuildSh])
    - the commentary poster          (module [PostCommentary])
    - the fetch script that reads the hash from the proposal's action
                                     (module [FetchInstallCode])

    JavaScript strings are sequences of UTF-16 code units; they are
    modelled as [list N].  The built-ins the sources call
    ([String.prototype.trim], [startsWith], [match], [replace],
    [RegExp.prototype.exec], [JSON.parse]) are modelled in the modules
    [JSString], [RegExp] and [JSON]. *)

From Stdlib Require Import String Ascii HexadecimalString DecimalString NArith ZArith Bool Lia List.
Import ListNotations.

Set Implicit Arguments.
#[local] Set Warnings "-register-all".

(* ================================================================= *)
(** ** JavaScript strings *)

Module JSString.

(** A string value: its UTF-16 code units. *)
Definition text := list N.

(** A source literal made of ASCII characters. *)
Definition lit (s : string) : text := map N_of_ascii (list_ascii_of_string s).

Definition cu (c : ascii) : N := N_of_ascii c.

Definition dquote : N := 34.

(** A literal in which ['] stands for the double quote. *)
Definition qlit (s : string) : text :=
  map (fun c => if (c =? cu "'")%N then dquote else c) (lit s).

Definition in_range (lo hi c : N) : bool := (lo <=? c)%N && (c <=? hi)%N.

Definition is_digit (c : N) : bool := in_range (cu "0") (cu "9") c.
Definition is_lower (c : N) : bool := in_range (cu "a") (cu "z") c.
Definition is_upper (c : N) : bool := in_range (cu "A") (cu "Z") c.

(** ASCII case mappings.  On the ASCII letters they agree with
    [toUpperCase]/[toLowerCase]; every other code unit is left alone. *)
Definition upper (c : N) : N := if is_lower c then (c - 32)%N else c.
Definition lower (c : N) : N := if is_upper c then (c + 32)%N else c.

(** [WhiteSpace] and [LineTerminator] code units, the ones
    [String.prototype.trim] strips. *)
Definition is_js_space (c : N) : bool :=
  in_range 9 13 c || (c =? 32)%N || (c =? 160)%N || (c =? 5760)%N
  || in_range 8192 8202 c || (c =? 8232)%N || (c =? 8233)%N
  || (c =? 8239)%N || (c =? 8287)%N || (c =? 12288)%N || (c =? 65279)%N.

(** [`${n}`] for a natural number *)
Definition decimal_text (n : nat) : text :=
  lit (NilEmpty.string_of_uint (Nat.to_uint n)).

Fixpoint trimStart (s : text) : text :=
  match s with
  | c :: s' => if is_js_space c then trimStart s' else s
  | [] => []
  end.

Definition trimEnd (s : text) : text := rev (trimStart (rev s)).

Definition trim (s : text) : text := trimEnd (trimStart s).

Fixpoint startsWith (s p : text) {struct p} : bool :=
  match p, s with
  | [], _ => true
  | a :: p', b :: s' => (a =? b)%N && startsWith s' p'
  | _ :: _, [] => false
  end.

Definition text_eqb (a b : text) : bool :=
  (length a =? length b)%nat && startsWith a b.

(** [s.substring(i, i + n)] *)
Definition substring (i n : nat) (s : text) : text := firstn n (skipn i s).

End JSString.

Import JSString.

(* ================================================================= *)
(** ** Regular expressions

    A backtracking matcher in the style of the ECMAScript specification
    (a pattern is compiled to a matcher taking a continuation), for the
    pattern syntax the sources use: characters, character classes,
    sequence, alternation, [?], [*], [*?], [{n}], one capture group,
    [^], [$] and [\b].  The regular expressions of the sources never
    carry the [u] or [m] flag, so [^] and [$] are the ends of the input
    and [\b] is about [A-Za-z0-9_].

    With the [i] flag the specification compares canonicalized
    characters.  Without the [u] flag a code unit of 128 or more is
    never canonicalized to an ASCII one, so against the ASCII-only
    patterns of the sources canonicalization is ASCII upper-casing. *)

Module RegExp.

Inductive re : Type :=
| Empty
| Char (c : N)
| Class (invert : bool) (ranges : list (N * N))
| Seq (r1 r2 : re)
| Alt (r1 r2 : re)
| Opt (r : re)                      (* r?  *)
| Star (greedy : bool) (r : re)     (* r* and r*? *)
| Rep (n : nat) (r : re)            (* r{n} *)
| Group (r : re)                    (* ( r ), capture 1 *)
| Bol                               (* ^ *)
| Eol                               (* $ *)
| WordB.                            (* \b *)

(** A position in the input: the code units before it (nearest first),
    those after it, and the capture. *)
Record mstate := MState { before : text; after : text; cap1 : option text }.

Definition cont := mstate -> option mstate.

Definition is_word_char (c : N) : bool :=
  is_lower c || is_upper c || is_digit c || (c =? cu "_")%N.

Definition in_ranges (rs : list (N * N)) (c : N) : bool :=
  existsb (fun r => in_range (fst r) (snd r) c) rs.

Definition char_matches (ic : bool) (c x : N) : bool :=
  if ic then (upper c =? upper x)%N else (c =? x)%N.

Definition class_matches (ic invert : bool) (rs : list (N * N)) (x : N) : bool :=
  xorb invert
    (if ic then in_ranges rs x || in_ranges rs (upper x) || in_ranges rs (lower x)
     else in_ranges rs x).

Definition step (p : N -> bool) (k : cont) (s : mstate) : option mstate :=
  match after s with
  | x :: rest => if p x then k (MState (x :: before s) rest (cap1 s)) else None
  | [] => None
  end.

Definition at_boundary (s : mstate) : bool :=
  xorb (match before s with x :: _ => is_word_char x | [] => false end)
       (match after s with x :: _ => is_word_char x | [] => false end).

(** The input consumed between two positions. *)
Definition consumed (s e : mstate) : text :=
  rev (firstn (length (before e) - length (before s)) (before e)).

Definition progressed (s e : mstate) : bool :=
  (length (after e) <? length (after s))%nat.

(** [r{n}]: the body, [n] times. *)
Fixpoint rep_loop (body : cont -> cont) (n : nat) (k : cont) {struct n} : cont :=
  match n with
  | O => k
  | S n' => body (rep_loop body n' k)
  end.

(** [r*] and [r*?]: an iteration that consumes nothing is rejected, so
    there are at most as many iterations as input is left. *)
Fixpoint star_loop (body : cont -> cont) (greedy : bool) (k : cont)
    (fuel : nat) (s : mstate) {struct fuel} : option mstate :=
  match fuel with
  | O => k s
  | S fuel' =>
      let again (_ : unit) :=
        body (fun s' => if progressed s s' then star_loop body greedy k fuel' s' else None) s in
      if greedy then
        match again tt with
        | Some e => Some e
        | None => k s
        end
      else
        match k s with
        | Some e => Some e
        | None => again tt
        end
  end.

Fixpoint m (ic : bool) (r : re) (k : cont) (s : mstate) {struct r} : option mstate :=
  match r with
  | Empty => k s
  | Char c => step (char_matches ic c) k s
  | Class invert rs => step (class_matches ic invert rs) k s
  | Seq r1 r2 => m ic r1 (m ic r2 k) s
  | Alt r1 r2 =>
      match m ic r1 k s with
      | Some e => Some e
      | None => m ic r2 k s
      end
  | Opt r1 =>
      match m ic r1 (fun s' => if progressed s s' then k s' else None) s with
      | Some e => Some e
      | None => k s
      end
  | Star greedy r1 => star_loop (m ic r1) greedy k (length (after s)) s
  | Rep n r1 => rep_loop (m ic r1) n k s
  | Group r1 =>
      m ic r1 (fun s' => k (MState (before s') (after s') (Some (consumed s s')))) s
  | Bol => match before s with [] => k s | _ :: _ => None end
  | Eol => match after s with [] => k s | _ :: _ => None end
  | WordB => if at_boundary s then k s else None
  end.

(** [RegExpBuiltinExec]: try the pattern at every index from the
    current one on; the first index where it matches wins. *)
Fixpoint search (ic : bool) (r : re) (bef aft : text) {struct aft}
  : option (mstate * mstate) :=
  let s := MState bef aft None in
  match m ic r Some s with
  | Some e => Some (s, e)
  | None =>
      match aft with
      | [] => None
      | c :: aft' => search ic r (c :: bef) aft'
      end
  end.

Record match_result := MatchResult
  { index : nat;             (* match.index *)
    matched : text;          (* match[0] *)
    group1 : option text }.  (* match[1] *)

Definition result_of (se : mstate * mstate) : match_result :=
  let (s, e) := se in MatchResult (length (before s)) (consumed s e) (cap1 e).

(** [regex.exec(text)] on a regular expression whose [lastIndex] is 0,
    and [text.match(regex)] for a regex without the [g] flag. *)
Definition exec (ic : bool) (r : re) (t : text) : option match_result :=
  option_map result_of (search ic r [] t).

(** The loop of [text.match(regex)] for a regex with the [g] flag:
    every match in turn, each search starting where the previous match
    ended (one further when the match was empty). *)
Fixpoint match_all_from (fuel : nat) (ic : bool) (r : re) (bef aft : text)
  : list text :=
  match fuel with
  | O => []
  | S fuel' =>
      match search ic r bef aft with
      | None => []
      | Some (s, e) =>
          consumed s e ::
          (if progressed s e then match_all_from fuel' ic r (before e) (after e)
           else match after e with
                | [] => []
                | c :: aft' => match_all_from fuel' ic r (c :: before e) aft'
                end)
      end
  end.

(** [text.match(regex)], [g] flag set: [null] when nothing matches. *)
Definition match_global (ic : bool) (r : re) (t : text) : option (list text) :=
  match match_all_from (S (S (length t))) ic r [] t with
  | [] => None
  | l => Some l
  end.

(** [text.replace(regex, '')], no [g] flag: the first match is cut out. *)
Definition replace_first (ic : bool) (r : re) (t : text) : text :=
  match search ic r [] t with
  | None => t
  | Some (s, e) => rev (before s) ++ after e
  end.

(** A literal word, character by character. *)
Fixpoint word (w : text) : re :=
  match w with
  | [] => Empty
  | c :: w' => Seq (Char c) (word w')
  end.

End RegExp.

Import RegExp.

(* ================================================================= *)
(** ** JSON values and [JSON.parse] *)

Module JSON.

(** A number literal, kept exact: (-1)^negative * mantissa * 10^exp10.
    The sources only ever test a parsed number for truthiness. *)
Record number := Number { negative : bool; mantissa : N; exp10 : Z }.

Inductive value : Type :=
| Null
| Bool (b : bool)
| Num (n : number)
| Str (s : text)
| Arr (elements : list value)
| Obj (members : list (text * value)).

(** A JavaScript value as a property read yields it: [None] is
    [undefined]. *)
Definition jsval := option value.

(** Own-property lookup in a member list. *)
Fixpoint lookup (key : text) (ms : list (text * value)) : jsval :=
  match ms with
  | [] => None
  | (k, v) :: ms' => if text_eqb k key then Some v else lookup key ms'
  end.

(** [obj[key] = v]: an existing property keeps its place, a new one is
    added last. *)
Fixpoint set (key : text) (v : value) (ms : list (text * value))
  : list (text * value) :=
  match ms with
  | [] => [(key, v)]
  | (k, w) :: ms' =>
      if text_eqb k key then (k, v) :: ms' else (k, w) :: set key v ms'
  end.

(** A binary64 rounds to zero exactly when the magnitude is at most
    2^-1075 (half the least subnormal, the tie going to the even 0). *)
Definition rounds_to_zero (n : number) : bool :=
  (mantissa n =? 0)%N
  || ((exp10 n <? 0)%Z
      && (Z.of_N (mantissa n) * 2 ^ 1075 <=? 10 ^ (- exp10 n))%Z).

(** [ToBoolean] *)
Definition truthy (v : jsval) : bool :=
  match v with
  | None => false
  | Some Null => false
  | Some (Bool b) => b
  | Some (Num n) => negb (rounds_to_zero n)
  | Some (Str s) => match s with [] => false | _ :: _ => true end
  | Some (Arr _) => true
  | Some (Obj _) => true
  end.

(** A value that passes a truthiness test. *)
Definition if_truthy (v : jsval) : option value :=
  match v with
  | Some x => if truthy v then Some x else None
  | None => None
  end.

(** [Array.isArray] *)
Definition isArray (v : jsval) : bool :=
  match v with
  | Some (Arr _) => true
  | _ => false
  end.

(** *** The parser *)

Definition is_json_ws (c : N) : bool :=
  (c =? 32)%N || (c =? 9)%N || (c =? 10)%N || (c =? 13)%N.

Fixpoint skip_ws (s : text) : text :=
  match s with
  | c :: s' => if is_json_ws c then skip_ws s' else s
  | [] => []
  end.

Definition hex_digit (c : N) : option N :=
  if is_digit c then Some (c - cu "0")%N
  else if in_range (cu "a") (cu "f") c then Some (c - cu "a" + 10)%N
  else if in_range (cu "A") (cu "F") c then Some (c - cu "A" + 10)%N
  else None.

Definition hex4 (a b c d : N) : option N :=
  match hex_digit a, hex_digit b, hex_digit c, hex_digit d with
  | Some x, Some y, Some z, Some w => Some (((x * 16 + y) * 16 + z) * 16 + w)%N
  | _, _, _, _ => None
  end.

(** The character a single-letter escape stands for. *)
Definition unescape (c : N) : option N :=
  if (c =? dquote)%N then Some dquote
  else if (c =? cu "\")%N then Some (cu "\")
  else if (c =? cu "/")%N then Some (cu "/")
  else if (c =? cu "b")%N then Some 8%N
  else if (c =? cu "f")%N then Some 12%N
  else if (c =? cu "n")%N then Some 10%N
  else if (c =? cu "r")%N then Some 13%N
  else if (c =? cu "t")%N then Some 9%N
  else None.

(** The characters of a string literal after its opening quote, up to
    and including the closing quote. *)
Fixpoint string_body (s : text) (acc : text) {struct s} : option (text * text) :=
  match s with
  | [] => None
  | c :: s1 =>
      if (c =? dquote)%N then Some (rev acc, s1)
      else if (c =? cu "\")%N then
        match s1 with
        | [] => None
        | e :: s2 =>
            if (e =? cu "u")%N then
              match s2 with
              | h1 :: h2 :: h3 :: h4 :: s3 =>
                  match hex4 h1 h2 h3 h4 with
                  | Some u => string_body s3 (u :: acc)
                  | None => None
                  end
              | _ => None
              end
            else
              match unescape e with
              | Some u => string_body s2 (u :: acc)
              | None => None
              end
        end
      else if (c <? 32)%N then None
      else string_body s1 (c :: acc)
  end.

(** The longest run of decimal digits at the front. *)
Fixpoint digits (s : text) : list N * text :=
  match s with
  | c :: s' =>
      if is_digit c then let (ds, r) := digits s' in ((c - cu "0")%N :: ds, r)
      else ([], s)
  | [] => ([], [])
  end.

Definition decimal (ds : list N) : N := fold_left (fun a d => (a * 10 + d)%N) ds 0%N.

(** int: [0] or a nonzero digit followed by digits. *)
Definition int_part (s : text) : option (list N * text) :=
  match digits s with
  | ([], _) => None
  | (0%N :: _ :: _, _) => Some ([0%N], tl s)
  | (ds, r) => Some (ds, r)
  end.

(** frac: nothing, or [.] and at least one digit. *)
Definition frac_part (s : text) : option (list N * text) :=
  match s with
  | c :: s' =>
      if (c =? cu ".")%N then
        match digits s' with
        | ([], _) => None
        | (ds, r) => Some (ds, r)
        end
      else Some ([], s)
  | [] => Some ([], [])
  end.

(** exp: nothing, or [e]/[E], an optional sign and at least one digit. *)
Definition exp_part (s : text) : option (Z * text) :=
  match s with
  | c :: s' =>
      if (c =? cu "e")%N || (c =? cu "E")%N then
        let (neg, s'') :=
          match s' with
          | g :: t =>
              if (g =? cu "-")%N then (true, t)
              else if (g =? cu "+")%N then (false, t)
              else (false, s')
          | [] => (false, s')
          end in
        match digits s'' with
        | ([], _) => None
        | (ds, r) =>
            let e := Z.of_N (decimal ds) in
            Some (if neg then (- e)%Z else e, r)
        end
      else Some (0%Z, s)
  | [] => Some (0%Z, [])
  end.

Definition parse_number (s : text) : option (number * text) :=
  let (neg, s1) :=
    match s with
    | c :: s' => if (c =? cu "-")%N then (true, s') else (false, s)
    | [] => (false, s)
    end in
  match int_part s1 with
  | None => None
  | Some (ip, s2) =>
      match frac_part s2 with
      | None => None
      | Some (fp, s3) =>
          match exp_part s3 with
          | None => None
          | Some (e, s4) =>
              Some (Number neg (decimal (ip ++ fp)) (e - Z.of_nat (length fp)), s4)
          end
      end
  end.

Definition parse_literal (s : text) : option (value * text) :=
  if startsWith s (lit "true") then Some (Bool true, skipn 4 s)
  else if startsWith s (lit "false") then Some (Bool false, skipn 5 s)
  else if startsWith s (lit "null") then Some (Null, skipn 4 s)
  else None.

(** Recursive descent.  [parse_value] expects its input to start at the
    value; [parse_elements] and [parse_members] run after a [[], a [{]
    or a [,].  The fuel bounds the number of nested calls; a chain of
    calls is at most twice as long as the input, so more fuel than that
    changes nothing (see [JSON_parse_fuel]). *)
Fixpoint parse_value (fuel : nat) (s : text) {struct fuel} : option (value * text) :=
  match fuel with
  | O => None
  | S f =>
      match s with
      | [] => None
      | c :: s' =>
          if (c =? cu "{")%N then
            match skip_ws s' with
            | d :: s'' =>
                if (d =? cu "}")%N then Some (Obj [], s'')
                else parse_members f (d :: s'') []
            | [] => None
            end
          else if (c =? cu "[")%N then
            match skip_ws s' with
            | d :: s'' =>
                if (d =? cu "]")%N then Some (Arr [], s'')
                else parse_elements f (d :: s'') []
            | [] => None
            end
          else if (c =? dquote)%N then
            match string_body s' [] with
            | Some (str, r) => Some (Str str, r)
            | None => None
            end
          else if (c =? cu "-")%N || is_digit c then
            match parse_number s with
            | Some (n, r) => Some (Num n, r)
            | None => None
            end
          else parse_literal s
      end
  end

with parse_elements (fuel : nat) (s : text) (acc : list value) {struct fuel}
  : option (value * text) :=
  match fuel with
  | O => None
  | S f =>
      match parse_value f (skip_ws s) with
      | None => None
      | Some (v, r) =>
          match skip_ws r with
          | d :: r' =>
              if (d =? cu ",")%N then parse_elements f r' (v :: acc)
              else if (d =? cu "]")%N then Some (Arr (rev (v :: acc)), r')
              else None
          | [] => None
          end
      end
  end

with parse_members (fuel : nat) (s : text) (acc : list (text * value)) {struct fuel}
  : option (value * text) :=
  match fuel with
  | O => None
  | S f =>
      match skip_ws s with
      | q :: s1 =>
          if (q =? dquote)%N then
            match string_body s1 [] with
            | None => None
            | Some (key, s2) =>
                match skip_ws s2 with
                | c :: s3 =>
                    if (c =? cu ":")%N then
                      match parse_value f (skip_ws s3) with
                      | None => None
                      | Some (v, r) =>
                          match skip_ws r with
                          | d :: r' =>
                              if (d =? cu ",")%N then parse_members f r' (set key v acc)
                              else if (d =? cu "}")%N then Some (Obj (set key v acc), r')
                              else None
                          | [] => None
                          end
                      end
                    else None
                | [] => None
                end
            end
          else None
      | [] => None
      end
  end.

(** [JSON.parse(s)]; [None] is the [SyntaxError]. *)
Definition JSON_parse (s : text) : option value :=
  match parse_value (S (2 * length s)) (skip_ws s) with
  | Some (v, r) => match skip_ws r with [] => Some v | _ :: _ => None end
  | None => None
  end.

End JSON.

Import JSON.

(* ================================================================= *)
(** ** The Node.js runtime as the scripts use it

    A script is a state transformer over the workspace (the JSON
    documents it reads and writes) and the trace of what it did
    (console output, files written, requests sent).  A computation
    returns, throws, or ends the process through [process.exit]. *)

Module Node.

Inductive js_error : Type :=
| SyntaxError                                (* thrown by JSON.parse *)
| TypeError                                  (* a property read on null *)
| Error (message : text)                     (* new Error(message) *)
| ErrorOf (prefix : text) (cause : js_error). (* new Error(`${prefix}${cause}`) *)

Inductive stream := Log | Warn | Err.

(** What is handed to a console call or spliced into a template. *)
Inductive arg : Type :=
| AText (t : text)
| AVal (v : jsval)
| ANat (n : nat)
| AErr (e : js_error).

Inductive event : Type :=
| Console (to : stream) (args : list arg)
| WriteFile (path : text) (doc : value)
| GenerateContent (prompt : list arg)
| HttpPost (url : text) (authorization : text) (body : value).

Record world := World
  { files : list (text * value);   (* path |-> the JSON document stored there *)
    trace : list event }.          (* oldest first *)

Inductive outcome (A : Type) : Type :=
| Ret (a : A)
| Throw (e : js_error)
| Exit (code : Z).

Arguments Ret {A} a.
Arguments Throw {A} e.
Arguments Exit {A} code.

Definition M (A : Type) : Type := world -> outcome A * world.

Definition ret {A} (a : A) : M A := fun w => (Ret a, w).

Definition bind {A B} (c : M A) (f : A -> M B) : M B :=
  fun w =>
    match c w with
    | (Ret a, w') => f a w'
    | (Throw e, w') => (Throw e, w')
    | (Exit n, w') => (Exit n, w')
    end.

Definition throw {A} (e : js_error) : M A := fun w => (Throw e, w).

(** [process.exit(code)] *)
Definition exit {A} (code : Z) : M A := fun w => (Exit code, w).

(** [try { body } catch (err) { handler }]; leaving the process is not
    an exception. *)
Definition try_catch {A} (body : M A) (handler : js_error -> M A) : M A :=
  fun w =>
    match body w with
    | (Throw e, w') => handler e w'
    | r => r
    end.

Definition emit (e : event) : M unit :=
  fun w => (Ret tt, World (files w) (trace w ++ [e])).

Definition console_log (args : list arg) : M unit := emit (Console Log args).
Definition console_warn (args : list arg) : M unit := emit (Console Warn args).
Definition console_error (args : list arg) : M unit := emit (Console Err args).

(** [if (c) { body }] *)
Definition when (c : bool) (body : M unit) : M unit :=
  if c then body else ret tt.

(** Replace or add the document stored at a path. *)
Fixpoint store (path : text) (doc : value) (fs : list (text * value))
  : list (text * value) :=
  match fs with
  | [] => [(path, doc)]
  | (p, d) :: fs' =>
      if text_eqb p path then (p, doc) :: fs' else (p, d) :: store path doc fs'
  end.

(** [writeFileSync(path, JSON.stringify(doc, null, 2))] *)
Definition writeJSON (path : text) (doc : value) : M unit :=
  fun w => (Ret tt, World (store path doc (files w)) (trace w ++ [WriteFile path doc])).

(** [JSON.parse(readFileSync(path, 'utf-8'))] of a document of the
    workspace; a missing file throws. *)
Definition readJSON (path : text) : M value :=
  fun w =>
    match lookup path (files w) with
    | Some doc => (Ret doc, w)
    | None => (Throw (Error (lit "ENOENT")), w)
    end.

(** [v.key], for the property names the scripts read (none of them is
    defined on a built-in prototype): [undefined] unless [v] is an
    object that has the property; reading from [null] throws. *)
Definition get (v : value) (key : text) : jsval :=
  match v with
  | Obj ms => lookup key ms
  | _ => None
  end.

Definition prop (v : value) (key : text) : outcome jsval :=
  match v with
  | Null => Throw TypeError
  | _ => Ret (get v key)
  end.

Definition lift {A} (o : outcome A) : M A := fun w => (o, w).

(** [`${v}`], and the conversion to a number in [v / 1000]: an object is
    converted through its [toString] and [valueOf].  A value read from
    JSON holds no function, so an object with a member of its own named
    [toString] is converted by neither (the inherited [valueOf] hands
    back the object itself) and the conversion throws a TypeError; every
    other object is converted by the inherited [toString].  An array
    joins the conversions of its elements, [null] apart. *)
Fixpoint unprintable (v : value) : bool :=
  match v with
  | Obj ms =>
      match lookup (lit "toString") ms with
      | Some _ => true
      | None => false
      end
  | Arr l =>
      (fix any (l : list value) : bool :=
         match l with
         | [] => false
         | x :: r => unprintable x || any r
         end) l
  | _ => false
  end.

(** A value spliced into a template literal.  The text that comes out is
    left to the printer: the model keeps the value. *)
Definition template (v : jsval) : M arg :=
  match v with
  | Some x => if unprintable x then throw TypeError else ret (AVal v)
  | None => ret (AVal v)
  end.

(** A script run to the end of the process: the top-level
    [main().catch(err => { console.error(label, err); process.exit(1) })]. *)
Definition run_main (label : text) (main : M unit) (w : world) : Z * world :=
  match main w with
  | (Ret _, w') => (0%Z, w')
  | (Exit n, w') => (n, w')
  | (Throw e, w') =>
      (1%Z, World (files w') (trace w' ++ [Console Err [AText label; AErr e]]))
  end.

Module Notations.
Declare Scope node_scope.
Delimit Scope node_scope with node.
Notation "x <- c1 ;; c2" := (bind c1 (fun x => c2))
  (at level 61, c1 at next level, right associativity) : node_scope.
Notation "c1 ;; c2" := (bind c1 (fun _ => c2))
  (at level 61, right associativity) : node_scope.
End Notations.

End Node.

Import Node Node.Notations.
#[local] Open Scope node_scope.

(* ================================================================= *)
(** ** src/fetch-proposal.ts *)

Module FetchProposal.

(** [[a-f0-9]] *)
Definition hex : re := Class false [(cu "a", cu "f"); (cu "0", cu "9")].

(** [/\b([a-f0-9]{40})\b/gi] *)
Definition commitRegex : re := Seq WordB (Seq (Group (Rep 40 hex)) WordB).

(** The same function, with the same text, is in both fetch scripts of
    the repository. *)
Definition extractCommitHash (t : text) : option text :=
  match match_global true commitRegex t with
  | Some mtch => hd_error mtch      (* match[0] *)
  | None => None
  end.

(** [/(?:wasm|module|sha256)[^\n]*?([a-f0-9]{64})/gi] *)
Definition hashRegex : re :=
  Seq (Alt (word (lit "wasm")) (Alt (word (lit "module")) (word (lit "sha256"))))
      (Seq (Star false (Class true [(10%N, 10%N)]))
           (Group (Rep 64 hex))).

(** [/\b([a-f0-9]{64})\b/gi] *)
Definition genericRegex : re := Seq WordB (Seq (Group (Rep 64 hex)) WordB).

Definition extractWasmHash (t : text) : option text :=
  match exec true hashRegex t with
  | Some mtch => group1 mtch        (* match[1] *)
  | None =>
      match match_global true genericRegex t with
      | Some genericMatch => hd_error genericMatch
      | None => None
      end
  end.

(** The decoded reply of [get_proposal_info]: Candid [opt] is [option]. *)
Record Proposal := { title : option text; summary : text; url : text }.
Record ProposalInfo := { proposal : option Proposal }.

Definition nonempty (t : text) : bool :=
  match t with [] => false | _ :: _ => true end.

(** [x || fallback] on a string that may be missing *)
Definition or_else (x : option text) (fallback : text) : text :=
  match x with
  | Some (c :: t) => c :: t
  | _ => fallback
  end.

Definition nullable (x : option text) : value :=
  match x with
  | Some t => Str t
  | None => Null
  end.

Definition nl : text := [10%N].

Section Main.

(** [process.argv[2]] *)
Variable argv2 : option text.

(** The governance canister: the reply to
    [get_proposal_info(BigInt(proposalId))], or the error it throws. *)
Variable get_proposal_info : text -> outcome (option ProposalInfo).

Definition main : M unit :=
  match argv2 with
  | Some (c :: p) =>
      let proposalId := c :: p in
      console_log [AText (lit "Fetching proposal "); AText proposalId; AText (lit "...")] ;;
      result <- lift (get_proposal_info proposalId) ;;
      match result with
      | None =>
          console_error [AText (lit "Proposal "); AText proposalId; AText (lit " not found")] ;;
          exit 1
      | Some proposalInfo =>
          match proposal proposalInfo with
          | None =>
              console_error [AText (lit "Proposal data is empty")] ;;
              exit 1
          | Some proposal =>
              let title := or_else (title proposal) (lit "Untitled") in
              let summary := summary proposal in
              let url := url proposal in
              let combinedText := title ++ nl ++ summary ++ nl ++ url in
              let commitHash := extractCommitHash combinedText in
              let expectedWasmHash := extractWasmHash combinedText in
              let proposalData :=
                Obj [ (lit "proposalId", Str proposalId);
                      (lit "title", Str title);
                      (lit "summary", Str summary);
                      (lit "url", Str url);
                      (lit "commitHash", nullable commitHash);
                      (lit "expectedWasmHash", nullable expectedWasmHash) ] in
              console_log [AText (lit "Title: "); AText title] ;;
              console_log [AText (lit "Commit Hash: ");
                           AText (or_else commitHash (lit "Not found"))] ;;
              console_log [AText (lit "Expected WASM Hash: ");
                           AText (or_else expectedWasmHash (lit "Not found"))] ;;
              when (negb (truthy (Some (nullable commitHash))))
                (console_warn [AText (lit "Warning: Could not extract commit hash from proposal")]) ;;
              when (negb (truthy (Some (nullable expectedWasmHash))))
                (console_warn [AText (lit "Warning: Could not extract expected WASM hash from proposal")]) ;;
              writeJSON (lit "proposal.json") proposalData ;;
              console_log [AText (lit "Wrote proposal.json")]
          end
      end
  | _ =>
      console_error [AText (lit "Usage: tsx fetch-proposal.ts <proposal_id>")] ;;
      exit 1
  end.

Definition script : world -> Z * world :=
  run_main (lit "Error fetching proposal:") main.

End Main.

End FetchProposal.

Import FetchProposal.


(* ================================================================= *)
(** ** src/extract-build-steps.ts *)

Module ExtractBuildSteps.

Definition EXTRACTION_PROMPT : text := qlit
"You are analyzing an ICP (Internet Computer Protocol) governance proposal to extract build verification instructions.

The proposal describes a canister upgrade. The dfinity/ic repository has ALREADY been cloned and the correct commit has been checked out. You are already in the repository root directory.

Extract ONLY the build commands (no git commands) and the output path. Return as JSON:

{
  'steps': ['build command 1', 'build command 2', ...],
  'wasmOutputPath': 'path/to/output.wasm'
}

IMPORTANT:
- Do NOT include git clone, git fetch, git checkout, or cd commands
- The repo is already cloned and at the correct commit
- Only include the actual build commands (e.g., bazel build, ./ci/container/build-ic.sh, etc.)
- Return ONLY valid JSON, no markdown code blocks, no explanation

Common build patterns for dfinity/ic:
- Uses Bazel for building
- Canisters are typically built with: bazel build //rs/path/to/canister:canister_name
- Or using the build script: ./ci/container/build-ic.sh -c
- Output is usually in bazel-bin/rs/path/to/canister/ or artifacts/canisters/

Proposal text:
".

(** What [parseGeminiResponse] returns.  The declared type is
    [{ steps: string[]; wasmOutputPath: string }]; at run time the
    fields hold whatever [JSON.parse] produced. *)
Record plan := Plan { steps : list value; wasmOutputPath : value }.

Definition fence : text := lit "```".

(** [/^```(?:json)?\n?/] *)
Definition fenceOpen : re :=
  Seq Bol (Seq (word fence) (Seq (Opt (word (lit "json"))) (Opt (Char 10)))).

(** [/\n?```$/] *)
Definition fenceClose : re :=
  Seq (Opt (Char 10)) (Seq (word fence) Eol).

(** Lines 69-74: trim, then remove the markdown code block markers. *)
Definition unfence (response : text) : text :=
  let jsonStr := trim response in
  if startsWith jsonStr fence
  then replace_first false fenceClose (replace_first false fenceOpen jsonStr)
  else jsonStr.

(** [x || fallback] *)
Definition or_value (x : jsval) (fallback : value) : value :=
  match if_truthy x with
  | Some v => v
  | None => fallback
  end.

Definition parseGeminiResponse (response : text) : M plan :=
  let jsonStr := unfence response in
  try_catch
    (match JSON_parse jsonStr with
     | None => throw SyntaxError
     | Some parsed =>
         steps <- lift (prop parsed (lit "steps")) ;;
         match steps with
         | Some (Arr steps) =>                (* Array.isArray(parsed.steps) *)
             out <- lift (prop parsed (lit "wasmOutputPath")) ;;
             ret (Plan steps (or_value out (Str (lit "output.wasm"))))
         | _ => throw (Error (lit "Invalid response: steps must be an array"))
         end
     end)
    (fun err =>
       console_error [AText (lit "Failed to parse Gemini response:"); AText response] ;;
       throw (ErrorOf (lit "Failed to parse LLM response: ") err)).

(** [steps.forEach((step, i) => console.log(`  ${i + 1}. ${step}`))] *)
Fixpoint log_steps (i : nat) (steps : list value) : M unit :=
  match steps with
  | [] => ret tt
  | step :: rest =>
      line <- template (Some step) ;;
      console_log [AText (lit "  "); ANat (i + 1); AText (lit ". "); line] ;;
      log_steps (S i) rest
  end.

Definition banner : text := repeat 9552%N 63.
Definition rule : text := repeat 9472%N 65.

Section Main.

(** [process.env.GEMINI_API_KEY] *)
Variable GEMINI_API_KEY : option text.

(** The inference service: [response.text] of the reply to a prompt (a
    template, given by its parts), or the rejection of the request. *)
Variable generateContent : list arg -> outcome (option text).

Definition callGemini (prompt : list arg) : M text :=
  match GEMINI_API_KEY with
  | Some (_ :: _) =>
      emit (GenerateContent prompt) ;;
      response <- lift (generateContent prompt) ;;
      ret (or_else response [])
  | _ => throw (Error (lit "GEMINI_API_KEY environment variable is required"))
  end.

Definition main : M unit :=
  proposalData <-
    try_catch (readJSON (lit "proposal.json"))
      (fun _ =>
         console_error [AText (lit "Could not read proposal.json. Run fetch-proposal.ts first.")] ;;
         exit 1) ;;
  commitHash <- lift (prop proposalData (lit "commitHash")) ;;
  match if_truthy commitHash with
  | None =>                                    (* !proposalData.commitHash *)
    console_error [AText (lit "No commit hash found in proposal. Cannot proceed with build.")] ;;
    exit 1
  | Some commit =>
    title <- lift (prop proposalData (lit "title")) ;;
    summary <- lift (prop proposalData (lit "summary")) ;;
    url <- lift (prop proposalData (lit "url")) ;;
    console_log [AText []] ;;
    console_log [AText banner] ;;
    console_log [AText (lit "  STEP 2: EXTRACT BUILD INSTRUCTIONS VIA LLM")] ;;
    console_log [AText banner] ;;
    console_log [AText []] ;;
    console_log [AText (lit "TRUST ASSUMPTION: Using Google Gemini to parse the proposal")] ;;
    console_log [AText (lit "summary and extract the build commands. The LLM interprets the")] ;;
    console_log [AText (lit "human-readable instructions to determine how to build the WASM.")] ;;
    console_log [AText []] ;;
    shown_title <- template title ;;
    console_log [AText (lit "Proposal: "); shown_title] ;;
    shown_commit <- template (Some commit) ;;
    console_log [AText (lit "Commit to build: "); shown_commit] ;;
    prompt_title <- template title ;;
    prompt_summary <- template summary ;;
    prompt_url <- template url ;;
    let prompt :=
      [ AText EXTRACTION_PROMPT;
        AText (nl ++ lit "Title: "); prompt_title;
        AText (nl ++ lit "Summary: "); prompt_summary;
        AText (nl ++ lit "URL: "); prompt_url;
        AText nl ] in
    response <- callGemini prompt ;;
    console_log [AText (lit "Gemini response received")] ;;
    p <- parseGeminiResponse response ;;
    console_log [AText []] ;;
    console_log [AText (lit "LLM EXTRACTED BUILD INSTRUCTIONS:")] ;;
    console_log [AText rule] ;;
    console_log [AText (lit "  Number of steps: "); ANat (length (steps p))] ;;
    shown_path <- template (Some (wasmOutputPath p)) ;;
    console_log [AText (lit "  WASM output path: "); shown_path] ;;
    let buildSteps :=
      Obj [ (lit "commitHash", commit);
            (lit "steps", Arr (steps p));
            (lit "wasmOutputPath", wasmOutputPath p) ] in
    writeJSON (lit "build-steps.json") buildSteps ;;
    console_log [AText (lit "Wrote build-steps.json")] ;;
    console_log [AText []] ;;
    console_log [AText (lit "BUILD COMMANDS TO EXECUTE:")] ;;
    log_steps 0 (steps p) ;;
    console_log [AText rule]
  end.

Definition script : world -> Z * world :=
  run_main (lit "Error extracting build steps:") main.

End Main.

End ExtractBuildSteps.

Import ExtractBuildSteps.


(* ================================================================= *)
(** ** scripts/build.sh

    The script runs under [set -euo pipefail]: as long as that stands, a
    command that ends with a nonzero status ends the script with that
    status.

    A program the script calls ([git], [rm], [mkdir], [cp], [ls],
    [node]) is modelled by what the script can observe of it: its exit
    status and its effect on the machine.  A build step is not such a
    program: [eval "$step"] runs it in the shell that runs the script,
    with the input of the loop as its standard input.  Besides a status
    and an effect on the machine, a step has an effect on what the
    script relies on afterwards: option [-e], the variable
    [WASM_OUTPUT_PATH], the lines of the plan that are still to be
    read, the meaning of the words of the script, and the shell being
    there at all. *)

Module BuildSh.

Inductive command : Type :=
| RmRf (path : text)               (* rm -rf ic *)
| GitClone (url dir : text)        (* git clone --depth 1 url dir *)
| Cd (dir : text)
| GitFetch (commit : text)         (* git fetch --depth 1 origin commit *)
| GitCheckout (commit : text)
| Eval (step : text)               (* eval "$step" *)
| MkdirP (path : text)
| Cp (src dst : text)
| LsLa (path : text).

Inductive sh_event : Type :=
| Echo (line : text)
| Ran (c : command) (status : Z)
| Listed (paths : list text).      (* the output of find ... | head -20 *)

Inductive result (A : Type) : Type :=
| Next (a : A)
| Halt (status : Z).

Arguments Next {A} a.
Arguments Halt {A} status.

(** Trailing newlines, which [$(...)] drops. *)
Definition chomp (t : text) : text :=
  rev ((fix drop (r : text) : text :=
          match r with
          | c :: r' => if (c =? 10)%N then drop r' else r
          | [] => []
          end) (rev t)).

(** The lines a [while read] loop gets from [<<< "$t"]: the here-string
    is [t] followed by a newline. *)
Fixpoint lines_from (cur : text) (t : text) : list text :=
  match t with
  | [] => [rev cur]
  | c :: t' => if (c =? 10)%N then rev cur :: lines_from [] t' else lines_from (c :: cur) t'
  end.

Definition lines (t : text) : list text := lines_from [] t.

Section Script.

(** The machine outside the workspace documents: the checkout, the
    build outputs, the working directory. *)
Variable disk : Type.

(** The status and the effect of a program the script calls. *)
Variable run : command -> disk -> Z * disk.

(** What a build step does, evaluated in the shell of the script. *)
Inductive reply : Type :=
| Returns (status : Z) (d : disk)
    (errexit : bool)                (* option [-e] after the step *)
    (WASM_OUTPUT_PATH : text)       (* the variable after the step *)
    (taken : nat)                   (* lines of the loop's input the step has read *)
| Exits (status : Z) (d : disk)     (* [exit], [exec]: the shell is gone *)
| Beyond (status : Z) (rest : list sh_event) (exit : Z) (d : disk).
    (* The step has changed the shell in another way the script relies
       on: a function, an alias or a trap under a word of the script,
       another option or variable, a descriptor, part of a line of the
       input.  The run goes on as that shell has it: [rest] is what it
       still does, [exit] the status it ends with. *)

(** [eval "$step"], given option [-e], the variable and the lines of
    the loop's input that are still unread. *)
Variable eval_step : text -> bool -> text -> list text -> disk -> reply.

(** [[ -d path ]] and [[ -f path ]] *)
Variable is_dir : disk -> text -> bool.
Variable is_file : disk -> text -> bool.

(** [find . -name "*.wasm" -type f 2>/dev/null]: the lines printed, and
    the status of the pipeline [find ... | head -20] under [pipefail]. *)
Variable find_wasm : disk -> list text * Z.

(** What [console.log] prints for a value that is not a string. *)
Variable inspect : jsval -> text.

Record shell := Shell
  { docs : list (text * value);    (* the workspace's JSON documents *)
    machine : disk;
    out : list sh_event }.         (* oldest first *)

Definition sh (A : Type) : Type := shell -> result A * shell.

Definition ret {A} (a : A) : sh A := fun s => (Next a, s).

Definition bind {A B} (c : sh A) (f : A -> sh B) : sh B :=
  fun s =>
    match c s with
    | (Next a, s') => f a s'
    | (Halt n, s') => (Halt n, s')
    end.

Declare Scope sh_scope.
Notation "x <- c1 ;; c2" := (bind c1 (fun x => c2))
  (at level 61, c1 at next level, right associativity) : sh_scope.
Notation "c1 ;; c2" := (bind c1 (fun _ => c2))
  (at level 61, right associativity) : sh_scope.
#[local] Open Scope sh_scope.

(** [exit n] *)
Definition halt {A} (n : Z) : sh A := fun s => (Halt n, s).

Definition echo (line : text) : sh unit :=
  fun s => (Next tt, Shell (docs s) (machine s) (out s ++ [Echo line])).

(** A simple command under [set -e]. *)
Definition cmd (c : command) : sh unit :=
  fun s =>
    let (status, d) := run c (machine s) in
    let s' := Shell (docs s) d (out s ++ [Ran c status]) in
    if (status =? 0)%Z then (Next tt, s') else (Halt status, s').

(** A simple command after the build steps, which may have switched
    option [-e] off: its failure is then passed over. *)
Definition cmd_at (errexit : bool) (c : command) : sh unit :=
  if errexit then cmd c
  else fun s =>
         let (status, d) := run c (machine s) in
         (Next tt, Shell (docs s) d (out s ++ [Ran c status])).

(** [eval "$step"]: the step is run; when it returns, option [-e] as the
    step leaves it decides whether a nonzero status ends the script. *)
Definition eval (step : text) (errexit : bool) (WASM_OUTPUT_PATH : text)
    (input : list text) : sh (bool * text * nat) :=
  fun s =>
    match eval_step step errexit WASM_OUTPUT_PATH input (machine s) with
    | Returns status d errexit' path' taken =>
        let s' := Shell (docs s) d (out s ++ [Ran (Eval step) status]) in
        if errexit' && negb (status =? 0)%Z then (Halt status, s')
        else (Next (errexit', path', taken), s')
    | Exits status d =>
        (Halt status, Shell (docs s) d (out s ++ [Ran (Eval step) status]))
    | Beyond status rest exit d =>
        (Halt exit, Shell (docs s) d (out s ++ Ran (Eval step) status :: rest))
    end.

Definition test_doc (path : text) : sh bool :=
  fun s => (Next (match lookup path (docs s) with Some _ => true | None => false end), s).

Definition test_d (path : text) : sh bool :=
  fun s => (Next (is_dir (machine s) path), s).

Definition test_f (path : text) : sh bool :=
  fun s => (Next (is_file (machine s) path), s).

Definition console_text (v : jsval) : text :=
  match v with
  | Some (Str t) => t
  | _ => inspect v
  end.

(** [$(node -e "console.log(JSON.parse(readFileSync(path)).key)")];
    when node throws, the assignment fails and the script ends. *)
Definition node_field (path key : text) : sh text :=
  fun s =>
    match lookup path (docs s) with
    | None => (Halt 1, s)
    | Some doc =>
        match prop doc key with
        | Ret v => (Next (chomp (console_text v ++ nl)), s)
        | _ => (Halt 1, s)
        end
    end.

(** [$(node -e "JSON.parse(readFileSync(path)).steps.forEach(s => console.log(s))")];
    [path] names the workspace document (the script, then inside the
    checkout, reads it as [../build-steps.json]). *)
Definition node_steps (path : text) : sh text :=
  fun s =>
    match lookup path (docs s) with
    | None => (Halt 1, s)
    | Some doc =>
        match prop doc (lit "steps") with
        | Ret (Some (Arr steps)) =>
            (Next (chomp (concat (map (fun st => console_text (Some st) ++ nl) steps))), s)
        | _ => (Halt 1, s)
        end
    end.

(** [while IFS= read -r step; do ...; done <<< "$STEPS"], line by line:
    [input] holds the lines of the here-string from the next one on,
    [skip] counts those of them that a step has read already.  The
    result is option [-e] and the variable as the steps leave them. *)
Fixpoint build_loop (input : list text) (skip : nat) (errexit : bool)
    (WASM_OUTPUT_PATH : text) : sh (bool * text) :=
  match input with
  | [] => ret (errexit, WASM_OUTPUT_PATH)
  | step :: rest =>
      match skip with
      | S skip' => build_loop rest skip' errexit WASM_OUTPUT_PATH
      | O =>
          match step with
          | _ :: _ =>                              (* [ -n "$step" ] *)
              echo [] ;;
              echo (lit ">>> Executing: " ++ step) ;;
              after <- eval step errexit WASM_OUTPUT_PATH rest ;;
              build_loop rest (snd after) (fst (fst after)) (snd (fst after))
          | [] => build_loop rest 0 errexit WASM_OUTPUT_PATH
          end
      end
  end.

(** [find . -name "*.wasm" -type f 2>/dev/null | head -20] *)
Definition find_head : sh unit :=
  fun s =>
    let (paths, status) := find_wasm (machine s) in
    let s' := Shell (docs s) (machine s) (out s ++ [Listed (firstn 20 paths)]) in
    if (status =? 0)%Z then (Next tt, s') else (Halt status, s').

(** The same when option [-e] may be off. *)
Definition find_head_at (errexit : bool) : sh unit :=
  if errexit then find_head
  else fun s =>
         (Next tt,
          Shell (docs s) (machine s)
            (out s ++ [Listed (firstn 20 (fst (find_wasm (machine s))))])).

(** Lines 55-69: the artifact is taken from the path the variable
    holds, or not at all. *)
Definition locate (errexit : bool) (WASM_OUTPUT_PATH : text) : sh unit :=
  echo [] ;;
  echo (lit "=== Build complete ===") ;;
  cmd_at errexit (MkdirP (lit "../output")) ;;
  found <- test_f WASM_OUTPUT_PATH ;;
  if found : bool then
    cmd_at errexit (Cp WASM_OUTPUT_PATH (lit "../output/canister.wasm")) ;;
    echo (lit "Copied WASM to ../output/canister.wasm")
  else
    echo (lit "Warning: Expected WASM not found at " ++ WASM_OUTPUT_PATH) ;;
    echo (lit "Searching for .wasm files...") ;;
    find_head_at errexit ;;
    halt 1.

(** Lines 4-22: the two documents must be there; the variables are read
    from the build plan. *)
Definition prepare : sh (text * text) :=
  echo (lit "=== ICP Build Verifier ===") ;;
  has_steps <- test_doc (lit "build-steps.json") ;;
  if negb has_steps then
    echo (lit "Error: build-steps.json not found. Run extract-build-steps.ts first.") ;;
    halt 1
  else
  has_proposal <- test_doc (lit "proposal.json") ;;
  if negb has_proposal then
    echo (lit "Error: proposal.json not found. Run fetch-proposal.ts first.") ;;
    halt 1
  else
  COMMIT_HASH <- node_field (lit "build-steps.json") (lit "commitHash") ;;
  WASM_OUTPUT_PATH <- node_field (lit "build-steps.json") (lit "wasmOutputPath") ;;
  echo (lit "Commit hash: " ++ COMMIT_HASH) ;;
  echo (lit "Expected WASM output: " ++ WASM_OUTPUT_PATH) ;;
  ret (COMMIT_HASH, WASM_OUTPUT_PATH).

(** Lines 24-38: a shallow clone, then the commit itself. *)
Definition checkout (COMMIT_HASH : text) : sh unit :=
  echo [] ;;
  echo (lit "=== Cloning dfinity/ic repository ===") ;;
  stale <- test_d (lit "ic") ;;
  (if stale : bool then
     echo (lit "Removing existing ic directory...") ;;
     cmd (RmRf (lit "ic"))
   else ret tt) ;;
  cmd (GitClone (lit "https://github.com/dfinity/ic.git") (lit "ic")) ;;
  cmd (Cd (lit "ic")) ;;
  echo (lit "Fetching commit " ++ COMMIT_HASH ++ lit "...") ;;
  cmd (GitFetch COMMIT_HASH) ;;
  cmd (GitCheckout COMMIT_HASH).

(** Lines 40-53: the steps of the plan, one line each.  The loop starts
    under [set -e], with the variable as line 19 set it. *)
Definition build (WASM_OUTPUT_PATH : text) : sh (bool * text) :=
  echo [] ;;
  echo (lit "=== Running build steps ===") ;;
  STEPS <- node_steps (lit "build-steps.json") ;;
  build_loop (lines STEPS) 0 true WASM_OUTPUT_PATH.

(** Lines 71-74.  The status of the last command is the exit status of
    the script, with option [-e] or without. *)
Definition finish (errexit : bool) : sh unit :=
  cmd_at errexit (Cd (lit "..")) ;;
  echo [] ;;
  echo (lit "=== Build verification ready ===") ;;
  cmd (LsLa (lit "output/")).

Definition script : sh unit :=
  vars <- prepare ;;
  checkout (fst vars) ;;
  after <- build (snd vars) ;;
  locate (fst after) (snd after) ;;
  finish (fst after).

(** The exit status of the script. *)
Definition status_of (r : result unit) : Z :=
  match r with
  | Next _ => 0%Z
  | Halt n => n
  end.

End Script.

End BuildSh.


(* ================================================================= *)
(** ** The commentary poster (postCommentary and its helpers) *)

Module PostCommentary.

(** [/\{[\s\S]*\}/]: [[\s\S]] is every code unit. *)
Definition jsonObjectRegex : re :=
  Seq (Char (cu "{")) (Seq (Star true (Class false [(0%N, 65535%N)])) (Char (cu "}"))).

(** [a && b] on property reads *)
Definition both (a b : jsval) : bool := truthy a && truthy b.

Definition extractJsonFromText (t : text) : option value :=
  match exec false jsonObjectRegex t with
  | Some jsonMatch =>
      match JSON_parse (matched jsonMatch) with
      | Some parsed =>
          match prop parsed (lit "title"), prop parsed (lit "overall_summary") with
          | Ret title, Ret overall_summary =>
              if both title overall_summary then Some parsed else None
          | _, _ => None                 (* caught: not our schema *)
          end
      | None => None                     (* caught: not valid JSON *)
      end
  | None => None
  end.

(** [value === 'literal'] *)
Definition is_str (v : jsval) (s : text) : bool :=
  match v with
  | Some (Str t) => text_eqb t s
  | _ => false
  end.

(** What [for (const x of v)] runs over.  A string yields its
    characters, one string each (the loop bodies below read properties
    from the items, and a string has none of them, so the model yields
    one-unit strings); the other values are not iterable. *)
Definition iterate (v : value) : outcome (list value) :=
  match v with
  | Arr l => Ret l
  | Str s => Ret (map (fun c => Str [c]) s)
  | _ => Throw TypeError
  end.

(** [a || b] *)
Definition or_js (a b : jsval) : jsval := if truthy a then a else b.

Definition zero : value := Num (Number false 0 0).

Record stats := Stats
  { commentary : option value; cost : value; duration : value; turns : value }.

(** The inner loop of [parseClaudeOutput] over [turn.message.content]. *)
Fixpoint scan_content (items : list value) (acc : option value)
  : outcome (option value) :=
  match items with
  | [] => Ret acc
  | item :: rest =>
      match prop item (lit "type") with
      | Ret ty =>
          let txt := get item (lit "text") in
          if is_str ty (lit "text") && truthy txt then
            match txt with
            | Some (Str t) =>
                match extractJsonFromText t with
                | Some found => scan_content rest (Some found)
                | None => scan_content rest acc
                end
            | _ => Throw TypeError           (* text.match is not a function *)
            end
          else scan_content rest acc
      | Throw e => Throw e
      | Exit n => Exit n
      end
  end.

(** [turn.message?.content] *)
Definition message_content (turn : value) : jsval :=
  match get turn (lit "message") with
  | Some Null => None
  | Some message => get message (lit "content")
  | None => None
  end.

(** The loop of [parseClaudeOutput] over the turns. *)
Fixpoint scan_turns (ts : list value) (st : stats) : outcome stats :=
  match ts with
  | [] => Ret st
  | turn :: rest =>
      match prop turn (lit "type") with
      | Ret ty =>
          let st1 :=
            if is_str ty (lit "result") then
              Stats (commentary st)
                (or_value (or_js (get turn (lit "total_cost_usd")) (get turn (lit "cost_usd"))) zero)
                (or_value (get turn (lit "duration_ms")) zero)
                (or_value (get turn (lit "num_turns")) zero)
            else st in
          if is_str ty (lit "assistant") && truthy (message_content turn) then
            match message_content turn with
            | Some content =>
                match iterate content with
                | Ret items =>
                    match scan_content items (commentary st1) with
                    | Ret c => scan_turns rest (Stats c (cost st1) (duration st1) (turns st1))
                    | Throw e => Throw e
                    | Exit n => Exit n
                    end
                | Throw e => Throw e
                | Exit n => Exit n
                end
            | None => scan_turns rest st1
            end
          else scan_turns rest st1
      | Throw e => Throw e
      | Exit n => Exit n
      end
  end.

(** [commentary.proposal_id = v].  On an object the property is
    written.  A primitive rejects the write (the modules are strict
    code).  An array would take the property, which is no part of its
    JSON form. *)
Definition assign (target : value) (key : text) (v : value) : outcome value :=
  match target with
  | Obj ms => Ret (Obj (set key v ms))
  | Arr l => Ret (Arr l)
  | _ => Throw TypeError
  end.

(** The reply of the portal. *)
Record response := Response
  { ok : bool;
    status : nat;
    body_text : outcome text;       (* await response.text() *)
    body_json : outcome value }.    (* await response.json() *)

Section Main.

(** [process.argv[2]], [process.argv[3]] and the environment *)
Variables argv2 argv3 : option text.
Variables PORTAL_URL COMMENTARY_SECRET : option text.

(** [readFileSync(path, 'utf-8')] *)
Variable readFileSync : text -> outcome text.

(** [fetch(url, { method: 'POST', ..., Authorization, body })] *)
Variable fetch : text -> text -> value -> outcome response.

Definition parseClaudeOutput (outputPath : text) : outcome stats :=
  match readFileSync outputPath with
  | Ret raw =>
      match JSON_parse raw with
      | Some turns =>
          match iterate turns with
          | Ret ts => scan_turns ts (Stats None zero zero zero)
          | Throw e => Throw e
          | Exit n => Exit n
          end
      | None => Throw SyntaxError
      end
  | Throw e => Throw e
  | Exit n => Exit n
  end.

Definition postCommentary : M unit :=
  let outputPath :=
    or_else argv2 (lit "/home/runner/work/_temp/claude-execution-output.json") in
  match argv3, PORTAL_URL, COMMENTARY_SECRET with
  | Some (p :: roposalId), Some (u :: rl), Some (s :: ecret) =>
      let proposalId := p :: roposalId in
      let portalUrl := u :: rl in
      let commentarySecret := s :: ecret in
      try_catch
        (console_log [AText (lit "Parsing commentary from "); AText outputPath; AText (lit "...")] ;;
         st <- lift (parseClaudeOutput outputPath) ;;
         match commentary st with
         | None =>
             console_warn [AText (lit "Warning: Could not extract commentary JSON from Claude output")] ;;
             console_warn [AText (lit "Skipping POST to portal")] ;;
             exit 0
         | Some commentary =>
             id <- lift (prop commentary (lit "proposal_id")) ;;
             commentary <-
               (if negb (is_str id proposalId) then
                  got <- template id ;;
                  console_warn [AText (lit "Warning: Proposal ID mismatch (expected ");
                                AText proposalId; AText (lit ", got "); got; AText (lit ")")] ;;
                  console_warn [AText (lit "Using proposal ID from command line argument")] ;;
                  lift (assign commentary (lit "proposal_id") (Str proposalId))
                else ret commentary) ;;
             let payload :=
               Obj [ (lit "commentary", commentary);
                     (lit "metadata",
                      Obj [ (lit "cost_usd", cost st);
                            (lit "duration_ms", duration st);
                            (lit "turns", turns st) ]) ] in
             let url := portalUrl ++ lit "/api/proposals/" ++ proposalId ++ lit "/commentary" in
             console_log [AText (lit "Posting commentary to "); AText url; AText (lit "...")] ;;
             emit (HttpPost url (lit "Bearer " ++ commentarySecret) payload) ;;
             response <- lift (fetch url (lit "Bearer " ++ commentarySecret) payload) ;;
             (if negb (ok response) then
                errorText <- lift (body_text response) ;;
                throw (Error (lit "HTTP " ++ decimal_text (status response) ++ lit ": " ++ errorText))
              else ret tt) ;;
             result <- lift (body_json response) ;;
             console_log [AText (10003%N :: lit " Commentary posted successfully")] ;;
             commentary_id <- lift (prop result (lit "commentary_id")) ;;
             shown_id <- template commentary_id ;;
             console_log [AText (lit "  Commentary ID: "); shown_id] ;;
             created_at <- lift (prop result (lit "created_at")) ;;
             shown_at <- template created_at ;;
             console_log [AText (lit "  Created at: "); shown_at] ;;
             match cost st with
             | Num _ => console_log [AText (lit "  Cost: $"); AVal (Some (cost st))]
             | _ => throw TypeError                  (* cost.toFixed is not a function *)
             end ;;
             seconds <- template (Some (duration st)) ;;   (* Math.floor(duration / 1000) *)
             console_log [AText (lit "  Duration: "); seconds; AText (lit "s")] ;;
             shown_turns <- template (Some (turns st)) ;;
             console_log [AText (lit "  Turns: "); shown_turns]
         end)
        (fun err =>
           console_error [AText (10060%N :: lit " Failed to post commentary:"); AErr err] ;;
           exit 1)
  | None, _, _ | Some [], _, _ =>
      console_error [AText (lit "Error: Missing proposal ID argument")] ;;
      console_error [AText (lit "Usage: npx tsx src/post-commentary.ts <output-path> <proposal-id>")] ;;
      exit 1
  | _, None, _ | _, Some [], _ =>
      console_error [AText (lit "Error: PORTAL_URL environment variable not set")] ;;
      exit 1
  | _, _, _ =>
      console_error [AText (lit "Error: COMMENTARY_SECRET environment variable not set")] ;;
      exit 1
  end.

End Main.

End PostCommentary.


(* ================================================================= *)
(** ** The fetch script that takes the hash from the proposal's action

    The second fetch script of the repository: the expected hash is the
    [wasm_module_hash] of the proposal's [InstallCode] action, not a
    token of its text, and a proposal without one is an error. *)

Module FetchInstallCode.

(** [b.toString(16)] for a non-negative integer: lower-case digits, no
    leading zero. *)
Definition toString16 (b : N) : text :=
  lit (HexadecimalString.NilZero.string_of_uint (N.to_hex_uint b)).

(** [s.padStart(n, c)] *)
Definition padStart (n : nat) (c : N) (s : text) : text :=
  repeat c (n - length s) ++ s.

(** [Array.from(bytes).map(b => b.toString(16).padStart(2, '0')).join('')] *)
Definition bytesToHex (bytes : list N) : text :=
  concat (map (fun b => padStart 2 (cu "0") (toString16 b)) bytes).

(** The decoded reply of [get_proposal_info]: Candid [opt] is [option],
    [vec nat8] is the list of its bytes, and a principal is given by
    what its [toText()] returns.  The action variant has the one case
    [InstallCode]. *)
Record InstallCode :=
  { wasm_module_hash : option (list N);
    canister_id : option text }.

Record Proposal :=
  { title : option text;
    summary : text;
    url : text;
    action : option InstallCode }.

Record ProposalInfo := { proposal : option Proposal }.

Section Main.

(** [process.argv[2]] *)
Variable argv2 : option text.

(** The governance canister: the reply to
    [get_proposal_info(BigInt(proposalId))], or the error it throws. *)
Variable get_proposal_info : text -> outcome (option ProposalInfo).

Definition main : M unit :=
  match argv2 with
  | Some (c :: p) =>
      let proposalId := c :: p in
      console_log [AText (lit "Fetching proposal "); AText proposalId; AText (lit "...")] ;;
      result <- lift (get_proposal_info proposalId) ;;
      match result with
      | None =>
          console_error [AText (lit "Proposal "); AText proposalId; AText (lit " not found")] ;;
          exit 1
      | Some proposalInfo =>
          match proposal proposalInfo with
          | None =>
              console_error [AText (lit "Proposal data is empty")] ;;
              exit 1
          | Some proposal =>
              let title := or_else (title proposal) (lit "Untitled") in
              let summary := summary proposal in
              let url := url proposal in
              let expectedWasmHash :=
                match action proposal with
                | Some installCode => option_map bytesToHex (wasm_module_hash installCode)
                | None => None
                end in
              let canisterId :=
                match action proposal with
                | Some installCode => canister_id installCode
                | None => None
                end in
              let combinedText := title ++ nl ++ summary ++ nl ++ url in
              let commitHash := extractCommitHash combinedText in
              let proposalData :=
                Obj [ (lit "proposalId", Str proposalId);
                      (lit "title", Str title);
                      (lit "summary", Str summary);
                      (lit "url", Str url);
                      (lit "commitHash", nullable commitHash);
                      (lit "expectedWasmHash", nullable expectedWasmHash);
                      (lit "canisterId", nullable canisterId) ] in
              console_log [AText (lit "Title: "); AText title] ;;
              console_log [AText (lit "Canister ID: ");
                           AText (or_else canisterId (lit "Not found"))] ;;
              console_log [AText (lit "Commit Hash: ");
                           AText (or_else commitHash (lit "Not found"))] ;;
              console_log [AText (lit "Expected WASM Hash (from onchain): ");
                           AText (or_else expectedWasmHash (lit "Not found"))] ;;
              when (negb (truthy (Some (nullable commitHash))))
                (console_warn [AText (lit "Warning: Could not extract commit hash from proposal")]) ;;
              (if negb (truthy (Some (nullable expectedWasmHash))) then
                 console_error
                   [AText (lit "Error: Could not extract wasm_module_hash from proposal action")] ;;
                 exit 1
               else ret tt) ;;
              writeJSON (lit "proposal.json") proposalData ;;
              console_log [AText (lit "Wrote proposal.json")]
          end
      end
  | _ =>
      console_error [AText (lit "Usage: tsx fetch-proposal.ts <proposal_id>")] ;;
      exit 1
  end.

Definition script : world -> Z * world :=
  run_main (lit "Error fetching proposal:") main.

End Main.

End FetchInstallCode.


(* ================================================================= *)
(** ** The run of the stages *)

Module Pipeline.

Inductive stage := Fetch | Infer | Build.

Record report (disk : Type) := Report
  { started : list stage;                 (* the stages that were invoked *)
    exit_code : Z;
    node : world;                         (* what the two scripts did *)
    shell : option (BuildSh.shell disk) }. (* what build.sh did, when it ran *)

Section Run.

Variable argv2 : option text.
Variable get_proposal_info : text -> outcome (option ProposalInfo).
Variable GEMINI_API_KEY : option text.
Variable generateContent : list arg -> outcome (option text).
Variable disk : Type.
Variable run : BuildSh.command -> disk -> Z * disk.
Variable eval_step : text -> bool -> text -> list text -> disk -> BuildSh.reply disk.
Variables is_dir is_file : disk -> text -> bool.
Variable find_wasm : disk -> list text * Z.
Variable inspect : jsval -> text.

(** Modelled from the spec: the orchestration of the stages (the
    workflow that calls the scripts is not among the sources).  "Data
    flow is strictly linear"; "any stage returning a failure
    short-circuits the pipeline"; "a failed run simply terminates with a
    reported reason". *)
Definition verify (w : world) (d : disk) : report disk :=
  let (c1, w1) := FetchProposal.script argv2 get_proposal_info w in
  if negb (c1 =? 0)%Z then Report [Fetch] c1 w1 None
  else
    let (c2, w2) := ExtractBuildSteps.script GEMINI_API_KEY generateContent w1 in
    if negb (c2 =? 0)%Z then Report [Fetch; Infer] c2 w2 None
    else
      let (r, s) :=
        BuildSh.script run eval_step is_dir is_file find_wasm inspect
          (BuildSh.Shell (files w2) d []) in
      Report [Fetch; Infer; Build] (BuildSh.status_of r) w2 (Some s).

End Run.

End Pipeline.


(* ================================================================= *)
(** ** Notions the properties are stated with *)

Module Tokens.

(** A hexadecimal digit, in either case. *)
Definition is_hex (c : N) : bool :=
  is_digit c || in_range (cu "a") (cu "f") c || in_range (cu "A") (cu "F") c.

(** No word character ([A-Za-z0-9_]) sits at index [k] of [t]; so also
    when [k] is past the end. *)
Definition no_word_at (t : text) (k : nat) : bool :=
  match nth_error t k with
  | Some c => negb (is_word_char c)
  | None => true
  end.

(** An [n]-hex-character token starts at index [i] of [t]: [n]
    hexadecimal digits, with no word character right before them and
    none right after them. *)
Definition tokenb (n : nat) (t : text) (i : nat) : bool :=
  (i + n <=? length t)%nat
  && forallb is_hex (substring i n t)
  && match i with O => true | S j => no_word_at t j end
  && no_word_at t (i + n).

Definition token_at (n : nat) (t : text) (i : nat) : Prop := tokenb n t i = true.

(** [toLowerCase] on a token (hexadecimal digits are ASCII). *)
Definition toLowerCase (t : text) : text := map lower t.

(** The same notion on a position given as the input before it
    (nearest first) and the input after it. *)
Definition token_here (n : nat) (bef aft : text) : bool :=
  match bef with x :: _ => negb (is_word_char x) | [] => true end
  && (n <=? length aft)%nat
  && forallb is_hex (firstn n aft)
  && match skipn n aft with x :: _ => negb (is_word_char x) | [] => true end.

(** [n] hexadecimal digits start at index [j] of [t]. *)
Definition hex_run (n : nat) (t : text) (j : nat) : bool :=
  (j + n <=? length t)%nat && forallb is_hex (substring j n t).

(** The labels of the hash pattern. *)
Definition labels : list text := [lit "wasm"; lit "module"; lit "sha256"].

(** The same word up to the case of its ASCII letters. *)
Definition same_word (w u : text) : bool := text_eqb (map upper w) (map upper u).

Definition not_newline (c : N) : bool := negb (c =? 10)%N.

(** A labelled hash: a label starts at index [i] of [t] and 64
    hexadecimal digits start at index [j], after the label and with no
    line break between the label and them. *)
Definition labelledb (t : text) (i j : nat) : bool :=
  existsb (fun w =>
             same_word w (substring i (length w) t)
             && (i + length w <=? j)%nat
             && forallb not_newline (substring (i + length w) (j - (i + length w)) t)
             && hex_run 64 t j)
          labels.

Definition labelled_at (t : text) (i j : nat) : Prop := labelledb t i j = true.

End Tokens.

Import Tokens.


(* ================================================================= *)
(** ** Notions about the matcher *)

Unset Implicit Arguments.

Module Scan.

(** The position [n] code units further on. *)
Definition advance (n : nat) (s : mstate) : mstate :=
  MState (rev (firstn n (after s)) ++ before s) (skipn n (after s)) (cap1 s).

(** A literal word at the front of the input. *)
Fixpoint prefix_matches (ic : bool) (w aft : text) {struct w} : bool :=
  match w, aft with
  | [], _ => true
  | c :: w', x :: aft' => char_matches ic c x && prefix_matches ic w' aft'
  | _ :: _, [] => false
  end.

(** A lazy [c*?] over a character class followed by [k]: the nearest
    position, reached over characters of the class, where [k] succeeds. *)
Fixpoint lazy_scan (p : N -> bool) (k : cont) (bef aft : text) (c : option text)
  : option mstate :=
  match k (MState bef aft c) with
  | Some e => Some e
  | None =>
      match aft with
      | x :: aft' => if p x then lazy_scan p k (x :: bef) aft' c else None
      | [] => None
      end
  end.

(** The offset of the nearest run of 64 hexadecimal digits that is
    reached without crossing a line break. *)
Fixpoint hash_offset (aft : text) : option nat :=
  if (64 <=? length aft)%nat && forallb is_hex (firstn 64 aft) then Some O
  else
    match aft with
    | x :: aft' => if not_newline x then option_map S (hash_offset aft') else None
    | [] => None
    end.

(** The label at the front of the input, if there is one. *)
Definition label_here (post : text) : option text :=
  find (fun w => prefix_matches true w post) labels.

(** The offset, from a position, of the hash the pattern captures there. *)
Definition hash_after (post : text) : option nat :=
  match label_here post with
  | Some w => option_map (Nat.add (length w)) (hash_offset (skipn (length w) post))
  | None => None
  end.

(** No labelled hash starts at index [i] of [t]. *)
Definition unlabelled (t : text) (i : nat) : bool :=
  match hash_after (skipn i t) with
  | None => true
  | Some _ => false
  end.

End Scan.

Import Scan.


(* ================================================================= *)
(** ** Notions about a run of the node scripts *)

Module ScriptNotions.

(** The workspace before anything has run. *)
Definition fresh : world := World [] [].

(** The error [parseGeminiResponse] throws, and the line it logs first. *)
Definition rejected (response : text) (w : world) (r : outcome plan * world) : Prop :=
  exists cause,
    r = (Throw (ErrorOf (lit "Failed to parse LLM response: ") cause),
         World (files w)
           (trace w ++ [Console Err [AText (lit "Failed to parse Gemini response:");
                                     AText response]])).

(** The path [parseGeminiResponse] falls back on. *)
Definition default_path : value := Str (lit "output.wasm").

(** The text the fetch script searches: title, summary and url. *)
Definition combinedText (p : Proposal) : text :=
  or_else (title p) (lit "Untitled") ++ nl ++ summary p ++ nl ++ url p.

(** The line the extraction script prints before it gives up. *)
Definition no_commit_message : event :=
  Console Err [AText (lit "No commit hash found in proposal. Cannot proceed with build.")].

(** The document the fetch script writes for a proposal without a
    commit reference. *)
Definition proposal_document (id : text) (p : Proposal) : value :=
  Obj [ (lit "proposalId", Str id);
        (lit "title", Str (or_else (title p) (lit "Untitled")));
        (lit "summary", Str (summary p));
        (lit "url", Str (url p));
        (lit "commitHash", Null);
        (lit "expectedWasmHash", nullable (extractWasmHash (combinedText p))) ].

(** A request to the model. *)
Definition is_request (e : event) : bool :=
  match e with
  | GenerateContent _ => true
  | _ => false
  end.

(** A member that is absent or an object. *)
Definition is_object (v : option value) : Prop :=
  match v with
  | Some (Obj _) | None => True
  | Some _ => False
  end.

(** A request to the portal. *)
Definition is_post (e : event) : bool :=
  match e with
  | HttpPost _ _ _ => true
  | _ => false
  end.

(** A value that a template literal can take ([undefined] is one). *)
Definition printable (v : jsval) : bool :=
  match v with
  | Some x => negb (unprintable x)
  | None => true
  end.

(** A computation that sends nothing to the portal. *)
Definition posts_nothing {A} (c : M A) : Prop :=
  forall w, exists new, trace (snd (c w)) = trace w ++ new /\ existsb is_post new = false.

(** The address a commentary is posted to. *)
Definition commentary_url (portalUrl proposalId : text) : text :=
  portalUrl ++ lit "/api/proposals/" ++ proposalId ++ lit "/commentary".

(** The payload for a commentary with the given members, posted for the
    given proposal. *)
Definition payload_for (st : PostCommentary.stats) (members : list (text * value))
    (proposalId : text) : value :=
  Obj [ (lit "commentary", Obj (JSON.set (lit "proposal_id") (Str proposalId) members));
        (lit "metadata",
         Obj [ (lit "cost_usd", PostCommentary.cost st);
               (lit "duration_ms", PostCommentary.duration st);
               (lit "turns", PostCommentary.turns st) ]) ].

(** The path the poster reads when it is given none. *)
Definition default_output : text := lit "/home/runner/work/_temp/claude-execution-output.json".

(** The second line of the warning about a mismatched proposal id. *)
Definition overwrite_notice : event :=
  Console Warn [AText (lit "Using proposal ID from command line argument")].

End ScriptNotions.

Import ScriptNotions.


(* ================================================================= *)
(** ** Notions about a run of build.sh *)

Module BuildNotions.

Import BuildSh.

(** The build steps a trace shows as run, with their statuses. *)
Definition evals (l : list sh_event) : list (text * Z) :=
  flat_map (fun e => match e with
                     | Ran (Eval step) status => [(step, status)]
                     | _ => []
                     end) l.

(** The commands of the plan as the script reads them: the non-empty
    lines of what node prints for the steps. *)
Definition plan_commands (inspect : jsval -> text) (docs : list (text * value))
  : list text :=
  match lookup (lit "build-steps.json") docs with
  | Some doc =>
      match get doc (lit "steps") with
      | Some (Arr steps) =>
          filter nonempty
            (lines (chomp (concat (map (fun st => console_text inspect (Some st) ++ nl) steps))))
      | _ => []
      end
  | None => []
  end.

(** No command in the trace has failed. *)
Definition clean (l : list sh_event) : Prop :=
  forall c n, In (Ran c n) l -> n = 0%Z.

(** The trace ends with a command that failed with status [n], the
    only one that failed. *)
Definition failed_last (l : list sh_event) (n : Z) : Prop :=
  n <> 0%Z /\ exists pre c, l = pre ++ [Ran c n] /\ clean pre.

Definition is_cp (e : sh_event) : bool :=
  match e with
  | Ran (Cp _ _) _ => true
  | _ => false
  end.

Definition is_eval (e : sh_event) : bool :=
  match e with
  | Ran (Eval _) _ => true
  | _ => false
  end.

Definition build_complete : sh_event := Echo (lit "=== Build complete ===").


(** The output path the script takes from the plan. *)
Definition declared_path (inspect : jsval -> text) (docs : list (text * value)) : text :=
  match lookup (lit "build-steps.json") docs with
  | Some doc => chomp (console_text inspect (get doc (lit "wasmOutputPath")) ++ nl)
  | None => []
  end.

Definition succeeded (step : text) : text * Z := (step, 0%Z).

(** [c] leaves the documents alone and adds only events that satisfy [P]. *)
Definition adds {disk A} (c : sh disk A) (P : sh_event -> Prop) : Prop :=
  forall s : shell disk,
    docs (snd (c s)) = docs s
    /\ exists new, out (snd (c s)) = out s ++ new /\ Forall P new.

(** A command that fails is the last thing [c] does: from a trace
    without failures, [c] leaves one without failures, or halts on the
    first one. *)
Definition safe {disk A} (c : sh disk A) : Prop :=
  forall s : shell disk,
    clean (out s) ->
    match c s with
    | (Next _, s') => clean (out s')
    | (Halt n, s') => clean (out s') \/ failed_last (out s') n
    end.

(** Events of the parts before the build loop: no step is run, no
    artifact is copied, the build is not announced complete. *)
Definition quiet (e : sh_event) : bool :=
  match e with
  | Echo l => negb (nth 4 l 0 =? 66)%N
  | Ran (Eval _) _ => false
  | Ran (Cp _ _) _ => false
  | Ran _ _ => true
  | Listed _ => false
  end.

(** Events of the build loop. *)
Definition looping (e : sh_event) : bool :=
  match e with
  | Echo l => negb (nth 4 l 0 =? 66)%N
  | Ran (Eval _) _ => true
  | _ => false
  end.

(** Events of the parts after the build loop. *)
Definition closing (e : sh_event) : bool := negb (is_eval e).

(** [c] never ends the script with status 0. *)
Definition loud {disk A} (c : sh disk A) : Prop :=
  forall (s s' : shell disk) n, c s = (Halt n, s') -> n <> 0%Z.

(** A step that acts as a program would: it returns to the script and
    leaves the shell as it found it, with option [-e] and the variable
    as they were and the input of the loop unread. *)
Definition plain {disk} (eval_step : text -> bool -> text -> list text -> disk -> reply disk)
    (step : text) : Prop :=
  forall errexit path input d,
    exists status d', eval_step step errexit path input d = Returns status d' errexit path 0.

(** Every command of a list is such a step. *)
Definition plain_plan {disk}
    (eval_step : text -> bool -> text -> list text -> disk -> reply disk)
    (cmds : list text) : Prop :=
  forall step, In step cmds -> plain eval_step step.

(** The steps of a machine with their effect on the shell taken away:
    what a step does to the machine stays. *)
Definition calm {disk} (eval_step : text -> bool -> text -> list text -> disk -> reply disk)
  : text -> bool -> text -> list text -> disk -> reply disk :=
  fun step errexit path input d =>
    match eval_step step errexit path input d with
    | Returns status d' _ _ _ => Returns status d' errexit path 0
    | Exits status d' => Returns status d' errexit path 0
    | Beyond status _ _ d' => Returns status d' errexit path 0
    end.

End BuildNotions.

Import BuildNotions.


(* ================================================================= *)
(** ** Sample inputs *)

Module Samples.

(** *** Proposal texts *)

(** A proposal text whose only commit reference is written in upper case. *)
Definition upper_case_proposal : text :=
  lit "Upgrade the registry canister to commit ABCDEF0123456789ABCDEF0123456789ABCDEF01.".

(** A proposal text naming two commits. *)
Definition two_commit_proposal : text :=
  lit "Built from 89abcdef0123456789abcdef0123456789abcdef (previous release: 0123456789abcdef0123456789abcdef01234567).".

Definition old_digest : text := repeat (cu "1") 64.

Definition new_digest : text := concat (repeat (lit "2f") 32).

(** A proposal text in which the new hash is announced by the word
    "hash" and an older one is mentioned before it. *)
Definition hash_label_proposal : text :=
  lit "Replaces build " ++ old_digest ++ lit "." ++ nl ++ lit "New hash: " ++ new_digest.

Definition labelled_proposal : text :=
  lit "The wasm module hash is " ++ new_digest ++ lit " (previous: " ++ old_digest ++ lit ").".

Definition bare_proposal : text :=
  lit "Artifact " ++ old_digest ++ lit " replaces " ++ new_digest ++ lit ".".

Definition motion_info : ProposalInfo :=
  {| proposal := Some {| title := Some (lit "Motion: adopt the new roadmap");
                         summary := lit "No code change is proposed.";
                         url := lit "https://forum.dfinity.org/t/roadmap" |} |}.

(** *** Responses of the model *)

Definition empty_steps_response : text :=
  qlit "{'steps': [], 'wasmOutputPath': 'artifacts/canisters/registry-canister.wasm'}".

Definition steps_not_array_response : text :=
  qlit "{'steps': 'bazel build //rs/registry/canister', 'wasmOutputPath': 'out.wasm'}".

Definition steps_missing_response : text :=
  qlit "{'commands': ['make'], 'wasmOutputPath': 'out.wasm'}".

Definition fenced_prose_response : text :=
  fence ++ nl ++ lit "Sorry, the proposal does not describe a build." ++ nl ++ fence.

Definition no_path_response : text := qlit "{'steps': ['bazel build //rs/registry/canister']}".

Definition full_response : text :=
  qlit "{'steps': ['bazel build //rs/registry/canister'], 'wasmOutputPath': 'bazel-bin/rs/registry/canister/registry-canister.wasm'}".

Definition fenced_response : text := fence ++ lit "json" ++ nl ++ full_response ++ nl ++ fence.

(** *** A machine for build.sh *)

(** A small machine to run the script on: the disk is the list of the
    regular files of the checkout; every program the script calls
    succeeds; the first build command leaves its output under
    [bazel-bin/], any other build step fails.  No step touches the
    shell. *)
Definition bazel_build : text := lit "bazel build //rs/registry/canister:registry-canister".

Definition toy_run (c : BuildSh.command) (d : list text) : Z * list text := (0%Z, d).

Definition toy_steps (step : text) (errexit : bool) (path : text) (input d : list text)
  : BuildSh.reply (list text) :=
  if text_eqb step bazel_build
  then BuildSh.Returns 0
         (lit "./bazel-bin/rs/registry/canister/registry-canister.wasm" :: d) errexit path 0
  else BuildSh.Returns 2 d errexit path 0.

Definition toy_is_file (d : list text) (path : text) : bool :=
  existsb (text_eqb (lit "./" ++ path)) d.

Definition toy_find (d : list text) : list text * Z := (d, 0%Z).

Definition toy_shell (steps : list text) : BuildSh.shell (list text) :=
  BuildSh.Shell
    [ (lit "proposal.json", Obj [(lit "proposalId", Str (lit "131375"))]);
      (lit "build-steps.json",
       Obj [ (lit "commitHash", Str (lit "89abcdef0123456789abcdef0123456789abcdef"));
             (lit "steps", Arr (map Str steps));
             (lit "wasmOutputPath", Str (lit "artifacts/canisters/registry-canister.wasm")) ]) ]
    [] [].

(** The same machine with steps that are words of the shell:
    [set +e] switches option [-e] off, [exit 0] ends the shell,
    [false] fails, [cat > /dev/null] reads what is left of the input,
    an assignment to [WASM_OUTPUT_PATH] sets the variable, [touch]
    makes a file; anything else is not found. *)
Definition sh_steps (step : text) (errexit : bool) (path : text) (input d : list text)
  : BuildSh.reply (list text) :=
  if text_eqb step (lit "set +e") then BuildSh.Returns 0 d false path 0
  else if text_eqb step (lit "exit 0") then BuildSh.Exits 0 d
  else if text_eqb step (lit "false") then BuildSh.Returns 1 d errexit path 0
  else if text_eqb step (lit "cat > /dev/null")
       then BuildSh.Returns 0 d errexit path (length input)
  else if startsWith step (lit "WASM_OUTPUT_PATH=")
       then BuildSh.Returns 0 d errexit (skipn 17 step) 0
  else if startsWith step (lit "touch ")
       then BuildSh.Returns 0 ((lit "./" ++ skipn 6 step) :: d) errexit path 0
  else BuildSh.Returns 127 d errexit path 0.

(** Plans made of such steps. *)
Definition unchecked_plan : list text :=
  [lit "set +e"; lit "false"; lit "touch canister.wasm"].

(** A workspace whose plan declares its output at the top of the
    checkout. *)
Definition flat_shell (steps : list text) : BuildSh.shell (list text) :=
  BuildSh.Shell
    [ (lit "proposal.json", Obj [(lit "proposalId", Str (lit "131375"))]);
      (lit "build-steps.json",
       Obj [ (lit "commitHash", Str (lit "89abcdef0123456789abcdef0123456789abcdef"));
             (lit "steps", Arr (map Str steps));
             (lit "wasmOutputPath", Str (lit "canister.wasm")) ]) ]
    [] [].

Definition swallowing_plan : list text := [lit "cat > /dev/null"; lit "touch ran-second"].

Definition redirecting_plan : list text :=
  [lit "touch other.wasm"; lit "WASM_OUTPUT_PATH=other.wasm"].

Definition leaving_plan : list text := [lit "exit 0"; lit "touch ran-second"].

(** The states of the first machine after the first parts of the
    script: the preparation, the checkout, the build steps. *)
Definition toy_script_state (n : nat) : BuildSh.shell (list text) :=
  let s := toy_shell [bazel_build] in
  let s1 := snd (BuildSh.prepare (fun _ => []) s) in
  let vars := match fst (BuildSh.prepare (fun _ => []) s) with
              | BuildSh.Next v => v
              | BuildSh.Halt _ => ([], [])
              end in
  let s2 := snd (BuildSh.checkout toy_run (fun _ _ => false) (fst vars) s1) in
  let s3 := snd (BuildSh.build toy_steps (fun _ => []) (snd vars) s2) in
  match n with
  | 1%nat => s1
  | 2%nat => s2
  | _ => s3
  end.

(** A machine on which the output directory cannot be made. *)
Definition readonly_run (c : BuildSh.command) (d : list text) : Z * list text :=
  match c with
  | BuildSh.MkdirP _ => (1%Z, d)
  | _ => (0%Z, d)
  end.

Definition declared : text := lit "artifacts/canisters/registry-canister.wasm".

(** *** A recorded execution for the poster *)

(** A recorded execution: one assistant turn whose text holds the
    commentary, written for proposal 999, and the result turn. *)
Definition claude_output : text :=
  qlit "[{'type':'assistant','message':{'content':[{'type':'text','text':'Here is the commentary: {\'title\':\'Registry upgrade\',\'proposal_id\':\'999\',\'overall_summary\':\'Adds one field.\',\'sources\':[],\'analysis_incomplete\':false}'}]}},{'type':'result','total_cost_usd':0.42,'duration_ms':61000,'num_turns':7}]".

Definition toy_read (path : text) : outcome text := Ret claude_output.

(** A recorded execution whose commentary holds, as its [proposal_id],
    an object with a member named [toString]. *)
Definition odd_output : text :=
  qlit "[{'type':'assistant','message':{'content':[{'type':'text','text':'{\'title\':\'Registry upgrade\',\'proposal_id\':{\'toString\':null},\'overall_summary\':\'Adds one field.\'}'}]}}]".

Definition toy_fetch (url auth : text) (body : value) : outcome PostCommentary.response :=
  Ret (PostCommentary.Response true 200 (Ret [])
         (Ret (Obj [ (lit "commentary_id", Str (lit "c-17"));
                     (lit "created_at", Str (lit "2025-01-01T00:00:00Z")) ]))).

Definition toy_stats : PostCommentary.stats :=
  match PostCommentary.parseClaudeOutput toy_read default_output with
  | Ret st => st
  | _ => PostCommentary.Stats None PostCommentary.zero PostCommentary.zero PostCommentary.zero
  end.

Definition toy_commentary : value :=
  match PostCommentary.commentary toy_stats with
  | Some c => c
  | None => Null
  end.

End Samples.

Import Samples.


(* ================================================================= *)
(** ** Notions about the fetch scripts *)

Module FetchNotions.

(** The files a run wrote, in order. *)
Definition writes (events : list event) : list (text * value) :=
  flat_map (fun e => match e with
                     | WriteFile path doc => [(path, doc)]
                     | _ => []
                     end) events.

(** The requests a run sent to the portal. *)
Definition posts (events : list event) : list event := filter is_post events.

(** The requests a run sent to the inference service. *)
Definition requests (events : list event) : list (list arg) :=
  flat_map (fun e => match e with
                     | GenerateContent prompt => [prompt]
                     | _ => []
                     end) events.

(** The proposal a run of the fetch script gets to see: the argument is
    there, the canister replies, and the reply holds a proposal. *)
Definition found (argv2 : option text)
    (get_proposal_info : text -> outcome (option ProposalInfo))
  : option (text * Proposal) :=
  match argv2 with
  | Some (c :: id) =>
      match get_proposal_info (c :: id) with
      | Ret (Some info) => option_map (pair (c :: id)) (proposal info)
      | _ => None
      end
  | _ => None
  end.

(** The document the fetch script writes for a proposal. *)
Definition proposal_data (id : text) (p : Proposal) : value :=
  Obj [ (lit "proposalId", Str id);
        (lit "title", Str (or_else (title p) (lit "Untitled")));
        (lit "summary", Str (summary p));
        (lit "url", Str (url p));
        (lit "commitHash", nullable (extractCommitHash (combinedText p)));
        (lit "expectedWasmHash", nullable (extractWasmHash (combinedText p))) ].

(** The same two notions for the script that reads the action. *)
Definition found_action (argv2 : option text)
    (get_proposal_info : text -> outcome (option FetchInstallCode.ProposalInfo))
  : option (text * FetchInstallCode.Proposal) :=
  match argv2 with
  | Some (c :: id) =>
      match get_proposal_info (c :: id) with
      | Ret (Some info) => option_map (pair (c :: id)) (FetchInstallCode.proposal info)
      | _ => None
      end
  | _ => None
  end.

(** The hash bytes the action of a proposal carries. *)
Definition module_hash (p : FetchInstallCode.Proposal) : option (list N) :=
  match FetchInstallCode.action p with
  | Some installCode => FetchInstallCode.wasm_module_hash installCode
  | None => None
  end.

Definition canister_of (p : FetchInstallCode.Proposal) : option text :=
  match FetchInstallCode.action p with
  | Some installCode => FetchInstallCode.canister_id installCode
  | None => None
  end.

Definition action_data (id : text) (p : FetchInstallCode.Proposal) (hash : list N) : value :=
  let title := or_else (FetchInstallCode.title p) (lit "Untitled") in
  Obj [ (lit "proposalId", Str id);
        (lit "title", Str title);
        (lit "summary", Str (FetchInstallCode.summary p));
        (lit "url", Str (FetchInstallCode.url p));
        (lit "commitHash",
         nullable (extractCommitHash
                     (title ++ nl ++ FetchInstallCode.summary p ++ nl ++ FetchInstallCode.url p)));
        (lit "expectedWasmHash", Str (FetchInstallCode.bytesToHex hash));
        (lit "canisterId", nullable (canister_of p)) ].

(** Reading a hexadecimal string back, two digits a byte. *)
Fixpoint hexToBytes (t : text) : option (list N) :=
  match t with
  | [] => Some []
  | hi :: lo :: rest =>
      match hex_digit hi, hex_digit lo, hexToBytes rest with
      | Some h, Some l, Some bytes => Some ((h * 16 + l)%N :: bytes)
      | _, _, _ => None
      end
  | [_] => None
  end.

(** A lower-case hexadecimal digit. *)
Definition is_lower_hex (c : N) : bool := is_digit c || in_range (cu "a") (cu "f") c.

Definition is_byte (b : N) : bool := (b <? 256)%N.

(** A byte is written as two lower-case digits that read back as it. *)
Definition two_digits (b : N) : bool :=
  match FetchInstallCode.padStart 2 (cu "0") (FetchInstallCode.toString16 b) with
  | [hi; lo] =>
      is_lower_hex hi && is_lower_hex lo
      && match hex_digit hi, hex_digit lo with
         | Some h, Some l => (h * 16 + l =? b)%N
         | _, _ => false
         end
  | _ => false
  end.

End FetchNotions.

Import FetchNotions.



(* ================================================================= *)
(** ** More sample inputs *)

Module MoreSamples.

(** A proposal to upgrade a canister, with the hash of the module in its
    action. *)
Definition upgrade_info : FetchInstallCode.ProposalInfo :=
  {| FetchInstallCode.proposal :=
       Some {| FetchInstallCode.title := Some (lit "Upgrade the registry canister");
               FetchInstallCode.summary :=
                 lit "Built from commit 89abcdef0123456789abcdef0123456789abcdef.";
               FetchInstallCode.url := [];
               FetchInstallCode.action :=
                 Some {| FetchInstallCode.wasm_module_hash := Some (repeat 47%N 32);
                         FetchInstallCode.canister_id :=
                           Some (lit "rwlgt-iiaaa-aaaaa-aaaaa-cai") |} |} |}.

(** A workspace after the fetch script found a commit. *)
Definition fetched : world :=
  World [ (lit "proposal.json",
           Obj [ (lit "proposalId", Str (lit "131375"));
                 (lit "title", Str (lit "Upgrade the registry canister"));
                 (lit "summary",
                  Str (lit "Built from commit 89abcdef0123456789abcdef0123456789abcdef."));
                 (lit "url", Str []);
                 (lit "commitHash", Str (lit "89abcdef0123456789abcdef0123456789abcdef"));
                 (lit "expectedWasmHash", Null) ]) ]
        [].

(** A machine on which nothing can be cloned. *)
Definition offline_run (c : BuildSh.command) (d : list text) : Z * list text :=
  match c with
  | BuildSh.GitClone _ _ => (128%Z, d)
  | _ => (0%Z, d)
  end.

(** A machine on which the build leaves its output at the declared
    path. *)
Definition builder_steps (step : text) (errexit : bool) (path : text) (input d : list text)
  : BuildSh.reply (list text) :=
  BuildSh.Returns 0 (lit "artifacts/canisters/registry-canister.wasm" :: d) errexit path 0.

Definition builder_is_file (d : list text) (path : text) : bool := existsb (text_eqb path) d.

End MoreSamples.

Import MoreSamples.



(* ================================================================= *)
(** ** Notions about the extraction script *)

Module ExtractNotions.

(** The prompt sent for a proposal document. *)
Definition prompt_for (doc : value) : list arg :=
  [ AText EXTRACTION_PROMPT;
    AText (nl ++ lit "Title: "); AVal (get doc (lit "title"));
    AText (nl ++ lit "Summary: "); AVal (get doc (lit "summary"));
    AText (nl ++ lit "URL: "); AVal (get doc (lit "url"));
    AText nl ].

(** The proposal document can be written into the log and the prompt. *)
Definition presentable (doc : value) : bool :=
  printable (get doc (lit "title")) && printable (get doc (lit "commitHash"))
  && printable (get doc (lit "summary")) && printable (get doc (lit "url")).

(** The build plan a run of the extraction script arrives at, when it
    does: proposal.json holds a commit hash and can be written into the
    prompt, the key is set, the service answers, and the answer holds an
    array of steps and an output path that can be printed. *)
Definition plan_of (GEMINI_API_KEY : option text)
    (generateContent : list arg -> outcome (option text))
    (fs : list (text * value)) : option value :=
  match lookup (lit "proposal.json") fs with
  | Some doc =>
      match if_truthy (get doc (lit "commitHash")), GEMINI_API_KEY with
      | Some commit, Some (_ :: _) =>
          if presentable doc then
            match generateContent (prompt_for doc) with
            | Ret response =>
                match JSON_parse (unfence (or_else response [])) with
                | Some parsed =>
                    match get parsed (lit "steps") with
                    | Some (Arr l) =>
                        let path := or_value (get parsed (lit "wasmOutputPath"))
                                      (Str (lit "output.wasm")) in
                        if unprintable path then None
                        else Some (Obj [ (lit "commitHash", commit);
                                         (lit "steps", Arr l);
                                         (lit "wasmOutputPath", path) ])
                    | _ => None
                    end
                | None => None
                end
            | _ => None
            end
          else None
      | _, _ => None
      end
  | None => None
  end.

(** Every step of a plan can be printed. *)
Definition listable (plan : value) : bool :=
  match get plan (lit "steps") with
  | Some (Arr l) => negb (existsb unprintable l)
  | _ => false
  end.

(** The steps that are printed: those before the first one that cannot
    be. *)
Fixpoint shown (steps : list value) : list value :=
  match steps with
  | [] => []
  | step :: rest => if unprintable step then [] else step :: shown rest
  end.

(** The key is missing or empty. *)
Definition no_key (GEMINI_API_KEY : option text) : bool :=
  match GEMINI_API_KEY with
  | Some (_ :: _) => false
  | _ => true
  end.

(** The lines the extraction script prints for the steps, numbered from
    [i + 1]. *)
Fixpoint step_lines (i : nat) (steps : list value) : list event :=
  match steps with
  | [] => []
  | step :: rest =>
      Console Log [AText (lit "  "); ANat (i + 1); AText (lit ". "); AVal (Some step)]
      :: step_lines (S i) rest
  end.

End ExtractNotions.

Import ExtractNotions.



(* ================================================================= *)
(** ** Notions about the commands of build.sh *)

Module CommandNotions.

Import BuildSh.

(** The commit the script takes from the plan. *)
Definition declared_commit (inspect : jsval -> text) (docs : list (text * value)) : text :=
  match lookup (lit "build-steps.json") docs with
  | Some doc => chomp (console_text inspect (get doc (lit "commitHash")) ++ nl)
  | None => []
  end.

Definition repository : text := lit "https://github.com/dfinity/ic.git".

Definition artifact : text := lit "../output/canister.wasm".

(** The commands of a run for a given commit, output path and list of
    build steps. *)
Definition allowed (commit path : text) (steps : list text) (c : command) : Prop :=
  match c with
  | RmRf p => p = lit "ic"
  | GitClone u d => u = repository /\ d = lit "ic"
  | Cd d => d = lit "ic" \/ d = lit ".."
  | GitFetch x => x = commit
  | GitCheckout x => x = commit
  | Eval step => In step steps
  | MkdirP p => p = lit "../output"
  | Cp a b => a = path /\ b = artifact
  | LsLa p => p = lit "output/"
  end.

Definition permitted (commit path : text) (steps : list text) (e : sh_event) : Prop :=
  match e with
  | Ran c _ => allowed commit path steps c
  | _ => True
  end.

(** The commands but the build steps. *)
Definition fixed_command (commit path : text) (e : sh_event) : Prop :=
  match e with
  | Ran (Eval _) _ => True
  | Ran c _ => allowed commit path [] c
  | _ => True
  end.

(** The checkout: the events of a clone of the repository followed by
    the fetch and the checkout of a commit, all successful. *)
Definition checked_out (commit : text) (l : list sh_event) : Prop :=
  In (Ran (GitClone repository (lit "ic")) 0) l
  /\ In (Ran (Cd (lit "ic")) 0) l
  /\ In (Ran (GitFetch commit) 0) l
  /\ In (Ran (GitCheckout commit) 0) l.

(** The lines the loop runs for the steps of a plan: the non-empty lines
    of each step as node prints it. *)
Definition step_commands (inspect : jsval -> text) (steps : list value) : list text :=
  filter nonempty (flat_map (fun st => lines (console_text inspect (Some st))) steps).

End CommandNotions.

Import CommandNotions.



(* ################################################################# *)
(** * Properties *)

(* ================================================================= *)
(** ** Strings *)

Lemma startsWith_app (s p : text) :
  startsWith s p = true <-> exists t, s = p ++ t.
Proof.
  revert s; induction p as [|a p IH]; intros s; simpl.
  - split; [intros _; now exists s | reflexivity].
  - destruct s as [|b s].
    + split; [discriminate | intros [t Ht]; discriminate].
    + rewrite andb_true_iff, N.eqb_eq, IH. split.
      * intros [-> [t ->]]. now exists t.
      * intros [t Ht]. injection Ht as -> ->. split; [reflexivity | now exists t].
Qed.

Lemma text_eqb_eq (a b : text) : text_eqb a b = true <-> a = b.
Proof.
  unfold text_eqb. rewrite andb_true_iff, Nat.eqb_eq, startsWith_app. split.
  - intros [Hl [t ->]]. rewrite length_app in Hl.
    destruct t; [now rewrite app_nil_r | simpl in Hl; lia].
  - intros ->. split; [reflexivity | exists []; now rewrite app_nil_r].
Qed.


(* ================================================================= *)
(** ** [JSON.parse]: the fuel is enough *)

Module JSONFacts.

Lemma skip_ws_length s : (length (skip_ws s) <= length s)%nat.
Proof.
  induction s as [|c s IH]; simpl; [lia|]. destruct (is_json_ws c); simpl; lia.
Qed.

Lemma string_body_length s acc t r :
  string_body s acc = Some (t, r) -> (length r < length s)%nat.
Proof.
  remember (length s) as n eqn:Hn. revert s acc Hn.
  induction n as [n IH] using lt_wf_ind. intros s acc Hn.
  destruct s as [|c s1]; [discriminate|]. cbn [string_body].
  destruct (c =? dquote)%N.
  - intros H; injection H as _ <-. subst n. simpl. lia.
  - destruct (c =? cu "\")%N.
    + destruct s1 as [|e s2]; [discriminate|].
      destruct (e =? cu "u")%N.
      * destruct s2 as [|h1 [|h2 [|h3 [|h4 s3]]]]; try discriminate.
        destruct (hex4 h1 h2 h3 h4); [|discriminate].
        intros H. pose proof (IH (length s3) ltac:(subst n; simpl; lia) s3 _ eq_refl H).
        subst n; simpl in *; lia.
      * destruct (unescape e); [|discriminate].
        intros H. pose proof (IH (length s2) ltac:(subst n; simpl; lia) s2 _ eq_refl H).
        subst n; simpl in *; lia.
    + destruct (c <? 32)%N; [discriminate|].
      intros H. pose proof (IH (length s1) ltac:(subst n; simpl; lia) s1 _ eq_refl H).
        subst n; simpl in *; lia.
Qed.

Lemma digits_length s :
  (length (snd (digits s)) <= length s)%nat
  /\ (fst (digits s) <> [] -> (length (snd (digits s)) < length s)%nat).
Proof.
  induction s as [|c s [IH1 IH2]]; cbn [digits].
  - split; [simpl; lia | intros H; now destruct H].
  - destruct (is_digit c).
    + destruct (digits s) as [ds r]. cbn [fst snd] in *. split; [simpl; lia | intros _; simpl; lia].
    + cbn [fst snd]. split; [lia | intros H; now destruct H].
Qed.

Lemma parse_number_length s n r :
  parse_number s = Some (n, r) -> (length r < length s)%nat.
Proof.
  unfold parse_number.
  set (p := match s with
            | c :: s' => if (c =? cu "-")%N then (true, s') else (false, s)
            | [] => (false, s)
            end).
  assert (Hp : (length (snd p) <= length s)%nat).
  { unfold p. destruct s as [|c s']; [simpl; lia|].
    destruct (c =? cu "-")%N; simpl; lia. }
  destruct p as [neg s1]. cbn [snd] in Hp.
  assert (Hint : forall ip s2, int_part s1 = Some (ip, s2) -> (length s2 < length s1)%nat).
  { unfold int_part. intros ip s2. pose proof (digits_length s1) as [_ Hd].
    destruct (digits s1) as [ds r1]. cbn [fst snd] in Hd.
    destruct ds as [|d0 ds]; [discriminate|].
    assert (Hlt : (length r1 < length s1)%nat) by (apply Hd; discriminate).
    destruct d0 as [|pd]; [destruct ds as [|d1 ds]|];
      intros H; injection H as _ <-; try exact Hlt.
    destruct s1; simpl in *; lia. }
  assert (Hfrac : forall fp s2 s3, frac_part s2 = Some (fp, s3) -> (length s3 <= length s2)%nat).
  { unfold frac_part. intros fp s2 s3. destruct s2 as [|c s2'].
    - intros H; injection H as _ <-. simpl; lia.
    - destruct (c =? cu ".")%N.
      + pose proof (digits_length s2') as [Hd _]. destruct (digits s2') as [ds r2].
        cbn [snd] in Hd. destruct ds; [discriminate|]. intros H; injection H as _ <-. simpl; lia.
      + intros H; injection H as _ <-. lia. }
  assert (Hexp : forall e s3 s4, exp_part s3 = Some (e, s4) -> (length s4 <= length s3)%nat).
  { unfold exp_part. intros e s3 s4. destruct s3 as [|c s3'].
    - intros H; injection H as _ <-. simpl; lia.
    - destruct ((c =? cu "e")%N || (c =? cu "E")%N).
      + set (q := match s3' with
                  | g :: t => if (g =? cu "-")%N then (true, t)
                              else if (g =? cu "+")%N then (false, t) else (false, s3')
                  | [] => (false, s3')
                  end).
        assert (Hq : (length (snd q) <= length s3')%nat).
        { unfold q. destruct s3' as [|g t]; [simpl; lia|].
          destruct (g =? cu "-")%N; [simpl; lia|]. destruct (g =? cu "+")%N; simpl; lia. }
        destruct q as [ng s5]. cbn [snd] in Hq.
        pose proof (digits_length s5) as [Hd _]. destruct (digits s5) as [ds r5].
        cbn [snd] in Hd. destruct ds; [discriminate|]. intros H; injection H as _ <-. simpl; lia.
      + intros H; injection H as _ <-. lia. }
  destruct (int_part s1) as [[ip s2]|] eqn:E1; [|discriminate].
  destruct (frac_part s2) as [[fp s3]|] eqn:E2; [|discriminate].
  destruct (exp_part s3) as [[e s4]|] eqn:E3; [|discriminate].
  intros H; injection H as _ <-.
  specialize (Hint _ _ eq_refl). apply Hfrac in E2. apply Hexp in E3. lia.
Qed.

Lemma parse_literal_length s v r :
  parse_literal s = Some (v, r) -> (length r < length s)%nat.
Proof.
  unfold parse_literal.
  destruct (startsWith s (lit "true")) eqn:E1.
  { apply startsWith_app in E1 as [t ->]. intros H; injection H as _ <-. simpl. lia. }
  destruct (startsWith s (lit "false")) eqn:E2.
  { apply startsWith_app in E2 as [t ->]. intros H; injection H as _ <-. simpl. lia. }
  destruct (startsWith s (lit "null")) eqn:E3; [|discriminate].
  apply startsWith_app in E3 as [t ->]. intros H; injection H as _ <-. simpl. lia.
Qed.

Lemma parse_value_S f s :
  parse_value (S f) s =
      match s with
      | [] => None
      | c :: s' =>
          if (c =? cu "{")%N then
            match skip_ws s' with
            | d :: s'' =>
                if (d =? cu "}")%N then Some (Obj [], s'')
                else parse_members f (d :: s'') []
            | [] => None
            end
          else if (c =? cu "[")%N then
            match skip_ws s' with
            | d :: s'' =>
                if (d =? cu "]")%N then Some (Arr [], s'')
                else parse_elements f (d :: s'') []
            | [] => None
            end
          else if (c =? dquote)%N then
            match string_body s' [] with
            | Some (str, r) => Some (Str str, r)
            | None => None
            end
          else if (c =? cu "-")%N || is_digit c then
            match parse_number s with
            | Some (n, r) => Some (Num n, r)
            | None => None
            end
          else parse_literal s
      end.
Proof. reflexivity. Qed.

Lemma parse_elements_S f s acc :
  parse_elements (S f) s acc =
      match parse_value f (skip_ws s) with
      | None => None
      | Some (v, r) =>
          match skip_ws r with
          | d :: r' =>
              if (d =? cu ",")%N then parse_elements f r' (v :: acc)
              else if (d =? cu "]")%N then Some (Arr (rev (v :: acc)), r')
              else None
          | [] => None
          end
      end.
Proof. reflexivity. Qed.

Lemma parse_members_S f s acc :
  parse_members (S f) s acc =
      match skip_ws s with
      | q :: s1 =>
          if (q =? dquote)%N then
            match string_body s1 [] with
            | None => None
            | Some (key, s2) =>
                match skip_ws s2 with
                | c :: s3 =>
                    if (c =? cu ":")%N then
                      match parse_value f (skip_ws s3) with
                      | None => None
                      | Some (v, r) =>
                          match skip_ws r with
                          | d :: r' =>
                              if (d =? cu ",")%N then parse_members f r' (set key v acc)
                              else if (d =? cu "}")%N then Some (Obj (set key v acc), r')
                              else None
                          | [] => None
                          end
                      end
                    else None
                | [] => None
                end
            end
          else None
      | [] => None
      end.
Proof. reflexivity. Qed.

Lemma skip_ws_cons_length s d r : skip_ws s = d :: r -> (length r < length s)%nat.
Proof.
  intros H. pose proof (skip_ws_length s) as Hl. rewrite H in Hl. simpl in Hl. lia.
Qed.

(** A successful parse consumes input. *)
Lemma parse_consumes f :
  (forall s v r, parse_value f s = Some (v, r) -> (length r < length s)%nat)
  /\ (forall s acc v r, parse_elements f s acc = Some (v, r) -> (length r < length s)%nat)
  /\ (forall s acc v r, parse_members f s acc = Some (v, r) -> (length r < length s)%nat).
Proof.
  induction f as [|f (IHv & IHe & IHm)]; [repeat split; intros; discriminate|].
  split; [|split].
  - intros s v r. rewrite parse_value_S. destruct s as [|c s']; [discriminate|].
    destruct (c =? cu "{")%N.
    { destruct (skip_ws s') as [|d s''] eqn:E; [discriminate|].
      apply skip_ws_cons_length in E.
      destruct (d =? cu "}")%N.
      - intros H; injection H as _ <-. simpl. lia.
      - intros H. apply IHm in H. simpl in *. lia. }
    destruct (c =? cu "[")%N.
    { destruct (skip_ws s') as [|d s''] eqn:E; [discriminate|].
      apply skip_ws_cons_length in E.
      destruct (d =? cu "]")%N.
      - intros H; injection H as _ <-. simpl. lia.
      - intros H. apply IHe in H. simpl in *. lia. }
    destruct (c =? dquote)%N.
    { destruct (string_body s' []) as [[str r']|] eqn:E; [|discriminate].
      apply string_body_length in E. intros H; injection H as _ <-. simpl. lia. }
    destruct ((c =? cu "-")%N || is_digit c).
    { destruct (parse_number (c :: s')) as [[n r']|] eqn:E; [|discriminate].
      apply parse_number_length in E. intros H; injection H as _ <-. exact E. }
    apply parse_literal_length.
  - intros s acc v r. rewrite parse_elements_S.
    destruct (parse_value f (skip_ws s)) as [[v1 r1]|] eqn:E1; [|discriminate].
    apply IHv in E1. pose proof (skip_ws_length s) as Hws.
    destruct (skip_ws r1) as [|d r'] eqn:E2; [discriminate|].
    apply skip_ws_cons_length in E2.
    destruct (d =? cu ",")%N; [intros H; apply IHe in H; lia|].
    destruct (d =? cu "]")%N; [|discriminate].
    intros H; injection H as _ <-. lia.
  - intros s acc v r. rewrite parse_members_S.
    destruct (skip_ws s) as [|q s1] eqn:E0; [discriminate|].
    apply skip_ws_cons_length in E0.
    destruct (q =? dquote)%N; [|discriminate].
    destruct (string_body s1 []) as [[key s2]|] eqn:E1; [|discriminate].
    apply string_body_length in E1.
    destruct (skip_ws s2) as [|c s3] eqn:E2; [discriminate|].
    apply skip_ws_cons_length in E2.
    destruct (c =? cu ":")%N; [|discriminate].
    destruct (parse_value f (skip_ws s3)) as [[v1 r1]|] eqn:E3; [|discriminate].
    apply IHv in E3. pose proof (skip_ws_length s3) as Hws.
    destruct (skip_ws r1) as [|d r'] eqn:E4; [discriminate|].
    apply skip_ws_cons_length in E4.
    destruct (d =? cu ",")%N; [intros H; apply IHm in H; lia|].
    destruct (d =? cu "}")%N; [|discriminate].
    intros H; injection H as _ <-. lia.
Qed.

(** With more than twice the length of the input as fuel, more fuel
    changes nothing. *)
Lemma parse_stable f :
  (forall s f', (2 * length s < f)%nat -> (f <= f')%nat ->
     parse_value f' s = parse_value f s)
  /\ (forall s acc f', (2 * length s + 1 < f)%nat -> (f <= f')%nat ->
        parse_elements f' s acc = parse_elements f s acc)
  /\ (forall s acc f', (2 * length s + 1 < f)%nat -> (f <= f')%nat ->
        parse_members f' s acc = parse_members f s acc).
Proof.
  induction f as [|f (IHv & IHe & IHm)]; [repeat split; intros; lia|].
  destruct (parse_consumes f) as (Cv & Ce & Cm).
  split; [|split].
  - intros s f' Hs Hf. destruct f' as [|f']; [lia|].
    rewrite !parse_value_S. destruct s as [|c s']; [reflexivity|]. simpl in Hs.
    destruct (c =? cu "{")%N.
    { destruct (skip_ws s') as [|d s''] eqn:E; [reflexivity|].
      apply skip_ws_cons_length in E.
      destruct (d =? cu "}")%N; [reflexivity|]. apply IHm; simpl; lia. }
    destruct (c =? cu "[")%N.
    { destruct (skip_ws s') as [|d s''] eqn:E; [reflexivity|].
      apply skip_ws_cons_length in E.
      destruct (d =? cu "]")%N; [reflexivity|]. apply IHe; simpl; lia. }
    reflexivity.
  - intros s acc f' Hs Hf. destruct f' as [|f']; [lia|].
    rewrite !parse_elements_S. pose proof (skip_ws_length s) as Hws.
    rewrite (IHv (skip_ws s) f') by lia.
    destruct (parse_value f (skip_ws s)) as [[v1 r1]|] eqn:E1; [|reflexivity].
    apply Cv in E1.
    destruct (skip_ws r1) as [|d r'] eqn:E2; [reflexivity|].
    apply skip_ws_cons_length in E2.
    destruct (d =? cu ",")%N; [|reflexivity]. apply IHe; lia.
  - intros s acc f' Hs Hf. destruct f' as [|f']; [lia|].
    rewrite !parse_members_S.
    destruct (skip_ws s) as [|q s1] eqn:E0; [reflexivity|].
    apply skip_ws_cons_length in E0.
    destruct (q =? dquote)%N; [|reflexivity].
    destruct (string_body s1 []) as [[key s2]|] eqn:E1; [|reflexivity].
    apply string_body_length in E1.
    destruct (skip_ws s2) as [|c s3] eqn:E2; [reflexivity|].
    apply skip_ws_cons_length in E2.
    destruct (c =? cu ":")%N; [|reflexivity].
    pose proof (skip_ws_length s3) as Hws.
    rewrite (IHv (skip_ws s3) f') by lia.
    destruct (parse_value f (skip_ws s3)) as [[v1 r1]|] eqn:E3; [|reflexivity].
    apply Cv in E3.
    destruct (skip_ws r1) as [|d r'] eqn:E4; [reflexivity|].
    apply skip_ws_cons_length in E4.
    destruct (d =? cu ",")%N; [|reflexivity]. apply IHm; lia.
Qed.

(** [JSON_parse] does not depend on its fuel: any larger amount gives
    the same answer. *)
Theorem JSON_parse_fuel s f :
  (2 * length s < f)%nat ->
  match parse_value f (skip_ws s) with
  | Some (v, r) => match skip_ws r with [] => Some v | _ :: _ => None end
  | None => None
  end = JSON_parse s.
Proof.
  intros Hf. unfold JSON_parse. pose proof (skip_ws_length s) as Hws.
  destruct (parse_stable (S (2 * length s))) as (Hv & _ & _).
  rewrite (Hv (skip_ws s) f) by lia. reflexivity.
Qed.

End JSONFacts.


(* ================================================================= *)
(** ** Regular expressions *)

Module RegExpFacts.


Lemma advance_0 s : advance 0 s = s.
Proof. now destruct s. Qed.

Lemma advance_S n x bef rest c :
  advance (S n) (MState bef (x :: rest) c) = advance n (MState (x :: bef) rest c).
Proof.
  unfold advance; simpl. now rewrite <- app_assoc.
Qed.

Lemma m_Rep_S ic n r k s :
  m ic (Rep (S n) r) k s = m ic r (m ic (Rep n r) k) s.
Proof. reflexivity. Qed.

Lemma m_Class ic inv rs k s :
  m ic (Class inv rs) k s = step (class_matches ic inv rs) k s.
Proof. reflexivity. Qed.

Lemma m_rep_class ic inv rs n k s :
  m ic (Rep n (Class inv rs)) k s =
  if (n <=? length (after s))%nat && forallb (class_matches ic inv rs) (firstn n (after s))
  then k (advance n s) else None.
Proof.
  revert s; induction n as [|n IH]; intros [bef aft c].
  - simpl. now rewrite advance_0.
  - rewrite m_Rep_S, m_Class. unfold step. cbn [after before cap1].
    destruct aft as [|x rest]; [reflexivity|].
    cbn [firstn forallb length].
    destruct (class_matches ic inv rs x);
      [|now rewrite andb_false_r].
    rewrite IH. cbn [after andb]. now rewrite advance_S.
Qed.


Lemma m_word ic w k s :
  m ic (word w) k s =
  if prefix_matches ic w (after s) then k (advance (length w) s) else None.
Proof.
  revert s; induction w as [|c w IH]; intros [bef aft cp].
  - simpl. now rewrite advance_0.
  - cbn [word m]. unfold step. cbn [after before cap1 prefix_matches].
    destruct aft as [|x rest]; [reflexivity|].
    destruct (char_matches ic c x); [|reflexivity].
    rewrite IH. cbn [after andb length]. now rewrite advance_S.
Qed.

(** [search] returns the leftmost position where the pattern matches. *)
Lemma search_some ic r bef aft s e :
  search ic r bef aft = Some (s, e) ->
  exists pre post,
    aft = pre ++ post /\ s = MState (rev pre ++ bef) post None /\
    m ic r Some s = Some e /\
    forall pre' post', aft = pre' ++ post' -> (length pre' < length pre)%nat ->
      m ic r Some (MState (rev pre' ++ bef) post' None) = None.
Proof.
  revert bef; induction aft as [|c aft IH]; intros bef; simpl.
  - destruct (m ic r Some (MState bef [] None)) eqn:E; [|discriminate].
    intros H; injection H as <- <-. exists [], []. repeat split; auto.
    intros pre' post' _ Hl; simpl in Hl; lia.
  - destruct (m ic r Some (MState bef (c :: aft) None)) eqn:E.
    + intros H; injection H as <- <-. exists [], (c :: aft). repeat split; auto.
      intros pre' post' _ Hl; simpl in Hl; lia.
    + intros H. destruct (IH _ H) as (pre & post & -> & -> & Hm & Hmin).
      exists (c :: pre), post. simpl. rewrite <- app_assoc. repeat split; auto.
      intros pre' post' Heq Hl. destruct pre' as [|c' pre'].
      * simpl in Heq; subst post'. exact E.
      * simpl in Heq. injection Heq as <- Heq. simpl. rewrite <- app_assoc.
        apply Hmin; [assumption | simpl in Hl; lia].
Qed.

Lemma search_none ic r bef aft :
  search ic r bef aft = None ->
  forall pre post, aft = pre ++ post ->
    m ic r Some (MState (rev pre ++ bef) post None) = None.
Proof.
  revert bef; induction aft as [|c aft IH]; intros bef; simpl.
  - destruct (m ic r Some (MState bef [] None)) eqn:E; [discriminate|].
    intros _ pre post Heq. symmetry in Heq. apply app_eq_nil in Heq as [-> ->]. exact E.
  - destruct (m ic r Some (MState bef (c :: aft) None)) eqn:E; [discriminate|].
    intros H pre post Heq. destruct pre as [|c' pre].
    + simpl in Heq; subst post. exact E.
    + simpl in Heq. injection Heq as <- Heq. simpl. rewrite <- app_assoc.
      now apply IH.
Qed.

(** The converse: a position where the pattern matches and before which
    it does not is the one [search] finds. *)
Lemma search_found ic r bef pre post e :
  m ic r Some (MState (rev pre ++ bef) post None) = Some e ->
  (forall pre' post', pre ++ post = pre' ++ post' -> (length pre' < length pre)%nat ->
     m ic r Some (MState (rev pre' ++ bef) post' None) = None) ->
  search ic r bef (pre ++ post) = Some (MState (rev pre ++ bef) post None, e).
Proof.
  revert bef; induction pre as [|c pre IH]; intros bef Hm Hmin.
  - simpl in *. destruct post; simpl; now rewrite Hm.
  - assert (H0 : m ic r Some (MState bef (c :: pre ++ post) None) = None)
      by (apply (Hmin [] (c :: pre ++ post) eq_refl); simpl; lia).
    simpl. rewrite H0.
    simpl in Hm. rewrite <- app_assoc in Hm. simpl in Hm.
    rewrite <- app_assoc. simpl. apply IH; [exact Hm|].
    intros pre' post' Heq Hl.
    specialize (Hmin (c :: pre') post'). simpl in Hmin.
    rewrite <- app_assoc in Hmin. apply Hmin; [now rewrite Heq | lia].
Qed.

(** [text.match(regex)] with the [g] flag: its first element is the
    first match, and it is [null] exactly when there is none. *)
Lemma match_global_none ic r t :
  search ic r [] t = None -> match_global ic r t = None.
Proof.
  intros H. unfold match_global. simpl. now rewrite H.
Qed.

Lemma match_global_some ic r t s e :
  search ic r [] t = Some (s, e) ->
  exists rest, match_global ic r t = Some (consumed s e :: rest).
Proof.
  intros H. unfold match_global. simpl. rewrite H. eauto.
Qed.

Lemma consumed_advance n s c :
  (n <= length (after s))%nat ->
  consumed s (MState (before (advance n s)) (after (advance n s)) c) = firstn n (after s).
Proof.
  intros Hn. unfold consumed, advance. cbn [before after].
  rewrite length_app, length_rev, length_firstn, Nat.min_l by assumption.
  replace (n + length (before s) - length (before s))%nat with n by lia.
  rewrite firstn_app, length_rev, length_firstn, Nat.min_l by assumption.
  rewrite Nat.sub_diag, firstn_O, app_nil_r.
  rewrite firstn_all2 by (rewrite length_rev, length_firstn; lia).
  apply rev_involutive.
Qed.

End RegExpFacts.

Import RegExpFacts.

(* ================================================================= *)
(** ** Hexadecimal tokens: [\b([a-f0-9]{n})\b] with the [gi] flags *)

Module TokenFacts.

Lemma m_Seq ic a b k s : m ic (Seq a b) k s = m ic a (m ic b k) s.
Proof. reflexivity. Qed.

Lemma m_WordB ic k s : m ic WordB k s = if at_boundary s then k s else None.
Proof. reflexivity. Qed.

Lemma m_Group ic r k s :
  m ic (Group r) k s =
  m ic r (fun s' => k (MState (before s') (after s') (Some (consumed s s')))) s.
Proof. reflexivity. Qed.

(** Replace the character constants by their codes. *)
Ltac codes :=
  repeat match goal with
         | |- context [cu ?a] =>
             let v := eval vm_compute in (cu a) in change (cu a) with v
         | H : context [cu ?a] |- _ =>
             let v := eval vm_compute in (cu a) in change (cu a) with v in H
         end.

Ltac bool_to_prop :=
  repeat (rewrite ?andb_true_iff, ?orb_true_iff, ?N.leb_le, ?N.eqb_eq,
           ?negb_true_iff, ?andb_false_iff, ?orb_false_iff, ?N.leb_gt, ?N.eqb_neq in * ).

(** Under the [i] flag the class [[a-f0-9]] is the hexadecimal digits of
    both cases. *)
Lemma hex_class c : class_matches true false [(cu "a", cu "f"); (cu "0", cu "9")] c = is_hex c.
Proof.
  apply eq_true_iff_eq.
  unfold class_matches, in_ranges, is_hex, upper, lower, is_lower, is_upper,
    is_digit, in_range; cbn [existsb fst snd xorb]; codes.
  destruct ((97 <=? c)%N && (c <=? 122)%N) eqn:L;
  destruct ((65 <=? c)%N && (c <=? 90)%N) eqn:U;
  bool_to_prop; lia.
Qed.

Lemma hex_is_word c : is_hex c = true -> is_word_char c = true.
Proof.
  unfold is_hex, is_word_char, is_lower, is_upper, is_digit, in_range; codes.
  bool_to_prop. lia.
Qed.

Lemma forallb_rev_head (p : N -> bool) l :
  forallb p l = true -> l <> [] -> exists y l', rev l = y :: l' /\ p y = true.
Proof.
  intros Hp Hne. destruct (rev l) as [|y l'] eqn:E.
  - apply (f_equal (@rev N)) in E. rewrite rev_involutive in E. now subst.
  - exists y, l'. split; [reflexivity|].
    rewrite forallb_forall in Hp. apply Hp, in_rev. rewrite E. now left.
Qed.

Lemma forallb_eq (f g : N -> bool) l :
  (forall x, f x = g x) -> forallb f l = forallb g l.
Proof. intros H. induction l; simpl; congruence. Qed.

(** The pattern at one position. *)
Lemma m_token n bef aft :
  m true (Seq WordB (Seq (Group (Rep (S n) hex)) WordB)) Some (MState bef aft None) =
  if token_here (S n) bef aft
  then Some (MState (rev (firstn (S n) aft) ++ bef) (skipn (S n) aft)
               (Some (firstn (S n) aft)))
  else None.
Proof.
  rewrite m_Seq, m_WordB, m_Seq, m_Group. unfold hex. rewrite m_rep_class.
  cbn [after before].
  rewrite (forallb_eq _ _ _ hex_class).
  unfold token_here.
  destruct ((S n <=? length aft)%nat) eqn:Hlen;
    [|rewrite andb_false_r; cbn [andb]; now destruct (at_boundary _)].
  destruct (forallb is_hex (firstn (S n) aft)) eqn:Hhex;
    [|rewrite !andb_false_r; cbn [andb]; now destruct (at_boundary _)].
  cbn [andb]. rewrite andb_true_r.
  apply Nat.leb_le in Hlen.
  assert (Hne : firstn (S n) aft <> []).
  { destruct aft; [simpl in Hlen; lia | discriminate]. }
  destruct (forallb_rev_head _ _ Hhex Hne) as (y & l' & Hrev & Hy).
  assert (Hfirst : exists x rest, aft = x :: rest /\ is_word_char x = true).
  { destruct aft as [|x rest]; [simpl in Hlen; lia|]. exists x, rest. split; [reflexivity|].
    apply hex_is_word. simpl in Hhex. now apply andb_true_iff in Hhex as [? _]. }
  destruct Hfirst as (x & rest & -> & Hx).
  rewrite m_WordB.
  replace (at_boundary (MState bef (x :: rest) None))
    with (match bef with z :: _ => negb (is_word_char z) | [] => true end)
    by (unfold at_boundary; cbn [before after]; rewrite Hx; destruct bef; simpl;
        [reflexivity | now rewrite xorb_true_r]).
  destruct (match bef with z :: _ => negb (is_word_char z) | [] => true end);
    [|reflexivity].
  cbn [andb].
  pose proof (consumed_advance (S n) (MState bef (x :: rest) None) None Hlen) as Hc.
  unfold at_boundary, advance in *. cbn [before after cap1] in *.
  rewrite Hc. clear Hc.
  assert (Hhd : match rev (firstn (S n) (x :: rest)) ++ bef with
                | z :: _ => is_word_char z
                | [] => false
                end = true)
    by (rewrite Hrev; cbn [app]; now apply hex_is_word).
  rewrite Hhd.
  destruct (skipn (S n) (x :: rest)) as [|z ?]; cbn [xorb negb]; [reflexivity|].
  now destruct (is_word_char z).
Qed.

Lemma skipn_length_app (pre post : text) : skipn (length pre) (pre ++ post) = post.
Proof. induction pre; simpl; auto. Qed.

Lemma nth_error_hd_skipn (l : text) n : nth_error l n = hd_error (skipn n l).
Proof.
  revert l; induction n as [|n IH]; intros [|x l]; simpl; auto.
Qed.

(** The index form and the position form of a token agree. *)
Lemma tokenb_split n pre post :
  tokenb n (pre ++ post) (length pre) = token_here n (rev pre) post.
Proof.
  unfold tokenb, token_here, substring, no_word_at.
  rewrite skipn_length_app, length_app.
  replace ((length pre + n <=? length pre + length post)%nat)
    with ((n <=? length post)%nat)
    by (destruct (Nat.leb_spec n (length post));
        destruct (Nat.leb_spec (length pre + n) (length pre + length post)); lia || reflexivity).
  rewrite nth_error_app2, Nat.add_comm, Nat.add_sub by lia.
  rewrite nth_error_hd_skipn.
  assert (Hleft : match length pre with
                  | O => true
                  | S j => match nth_error (pre ++ post) j with
                           | Some c => negb (is_word_char c)
                           | None => true
                           end
                  end = match rev pre with x :: _ => negb (is_word_char x) | [] => true end).
  { destruct pre as [|a pre'] using rev_ind; [reflexivity|].
    rewrite length_app, rev_app_distr. simpl.
    rewrite Nat.add_1_r. rewrite <- app_assoc. simpl.
    rewrite nth_error_app2, Nat.sub_diag by lia. reflexivity. }
  rewrite Hleft.
  destruct (match rev pre with x :: _ => negb (is_word_char x) | [] => true end);
  destruct (n <=? length post)%nat; destruct (forallb is_hex (firstn n post));
  destruct (skipn n post); reflexivity.
Qed.

Lemma token_at_bound n t i : token_at n t i -> (i + n <= length t)%nat.
Proof.
  unfold token_at, tokenb. rewrite !andb_true_iff. intros [[[H _] _] _].
  now apply Nat.leb_le.
Qed.

Lemma split_at (t : text) i :
  (i <= length t)%nat -> t = firstn i t ++ skipn i t /\ length (firstn i t) = i.
Proof.
  intros H. split; [symmetry; apply firstn_skipn | rewrite length_firstn; lia].
Qed.

(** Among the tokens of a text there is a first one. *)
Lemma first_token n t i :
  token_at n t i ->
  exists k, (k <= i)%nat /\ token_at n t k /\ forall j, (j < k)%nat -> ~ token_at n t j.
Proof.
  induction i as [i IH] using lt_wf_ind. intros Hi.
  destruct (existsb (tokenb n t) (seq 0 i)) eqn:E.
  - apply existsb_exists in E as (j & Hj & Hjt). apply in_seq in Hj.
    destruct (IH j ltac:(lia) Hjt) as (k & Hk & Hkt & Hmin).
    exists k. repeat split; auto; lia.
  - exists i. repeat split; auto. intros j Hj Hjt.
    assert (existsb (tokenb n t) (seq 0 i) = true); [|congruence].
    apply existsb_exists. exists j. split; [apply in_seq; lia | exact Hjt].
Qed.

(** [text.match(/\b([a-f0-9]{n})\b/gi)] starts with the first token of
    the text, as it is written there. *)
Lemma match_first_token n t i :
  token_at (S n) t i ->
  (forall j, (j < i)%nat -> ~ token_at (S n) t j) ->
  exists rest,
    match_global true (Seq WordB (Seq (Group (Rep (S n) hex)) WordB)) t
    = Some (substring i (S n) t :: rest).
Proof.
  intros Hi Hmin.
  pose proof (token_at_bound _ _ _ Hi) as Hb.
  destruct (split_at t i ltac:(lia)) as [Ht Hl].
  set (pre := firstn i t) in *. set (post := skipn i t) in *.
  assert (Hhere : token_here (S n) (rev pre) post = true).
  { rewrite <- tokenb_split, <- Ht, Hl. exact Hi. }
  assert (Hs : search true (Seq WordB (Seq (Group (Rep (S n) hex)) WordB)) [] t
               = Some (MState (rev pre ++ []) post None,
                       MState (rev (firstn (S n) post) ++ rev pre ++ []) (skipn (S n) post)
                         (Some (firstn (S n) post)))).
  { rewrite Ht at 1. apply search_found.
    - rewrite m_token, app_nil_r, Hhere. reflexivity.
    - intros pre' post' Heq Hlt. rewrite m_token, app_nil_r.
      destruct (token_here (S n) (rev pre') post') eqn:E; [|reflexivity].
      exfalso. apply (Hmin (length pre')); [lia|].
      unfold token_at. rewrite Ht, Heq, tokenb_split. exact E. }
  destruct (match_global_some _ _ _ _ _ Hs) as (rest & Hrest).
  exists rest. rewrite Hrest. do 2 f_equal.
  unfold substring. fold post.
  assert (Hlen : (S n <= length post)%nat).
  { unfold post. rewrite length_skipn. lia. }
  exact (consumed_advance (S n) (MState (rev pre ++ []) post None)
           (Some (firstn (S n) post)) Hlen).
Qed.

Lemma match_no_token n t :
  (forall i, ~ token_at (S n) t i) ->
  match_global true (Seq WordB (Seq (Group (Rep (S n) hex)) WordB)) t = None.
Proof.
  intros Hno. apply match_global_none.
  destruct (search true _ [] t) as [[s e]|] eqn:E; [|reflexivity].
  exfalso. apply search_some in E as (pre & post & Ht & -> & Hm & _).
  rewrite m_token, app_nil_r in Hm.
  destruct (token_here (S n) (rev pre) post) eqn:H; [|discriminate].
  apply (Hno (length pre)). unfold token_at. now rewrite Ht, tokenb_split.
Qed.

End TokenFacts.

Import TokenFacts.

(* ================================================================= *)
(** ** fetch-proposal.ts: [extractCommitHash] *)

Module CommitHashFacts.

(** A finite check that index [i] carries the only token of a text. *)
Lemma only_token_check n t i :
  forallb (fun j => implb (tokenb n t j) (j =? i)%nat) (seq 0 (S (length t))) = true ->
  forall j, token_at n t j -> j = i.
Proof.
  intros H j Hj. rewrite forallb_forall in H.
  pose proof (token_at_bound _ _ _ Hj) as Hb.
  specialize (H j ltac:(apply in_seq; lia)).
  unfold token_at in Hj. rewrite Hj in H. simpl in H. now apply Nat.eqb_eq.
Qed.

(** A finite check that a text has no token. *)
Lemma no_token_check n t :
  forallb (fun j => negb (tokenb n t j)) (seq 0 (S (length t))) = true ->
  forall j, ~ token_at n t j.
Proof.
  intros H j Hj. rewrite forallb_forall in H.
  pose proof (token_at_bound _ _ _ Hj) as Hb.
  specialize (H j ltac:(apply in_seq; lia)).
  unfold token_at in Hj. rewrite Hj in H. discriminate.
Qed.

Lemma extractCommitHash_at_first t i :
  token_at 40 t i -> (forall j, (j < i)%nat -> ~ token_at 40 t j) ->
  extractCommitHash t = Some (substring i 40 t).
Proof.
  intros Hi Hmin. unfold extractCommitHash, commitRegex.
  destruct (match_first_token 39 t i Hi Hmin) as [rest ->]. reflexivity.
Qed.

Lemma extractCommitHash_no_token t :
  (forall i, ~ token_at 40 t i) -> extractCommitHash t = None.
Proof.
  intros Hno. unfold extractCommitHash, commitRegex.
  now rewrite (match_no_token 39 t Hno).
Qed.

End CommitHashFacts.

Import CommitHashFacts.


(** C3, as stated, fails: on a text whose single 40-hex token is written
    in upper case, [extractCommitHash] returns the token as written, not
    its lower-case form. *)
Lemma extractCommitHash_not_lowercased :
  ~ (forall t i,
        token_at 40 t i -> (forall j, token_at 40 t j -> j = i) ->
        extractCommitHash t = Some (toLowerCase (substring i 40 t))).
Proof.
  intros H.
  specialize (H upper_case_proposal 40%nat).
  assert (H1 : token_at 40 upper_case_proposal 40) by (vm_compute; reflexivity).
  assert (H2 : forall j, token_at 40 upper_case_proposal j -> j = 40%nat)
    by (apply only_token_check; vm_compute; reflexivity).
  specialize (H H1 H2). vm_compute in H. discriminate.
Qed.

(** C3 (amended): for every text with exactly one 40-hex-character token
    (hexadecimal digits of either case, word-bounded),
    [extractCommitHash] returns that token exactly as it is written in
    the text; for every text with no such token it returns [null]. *)
Theorem extractCommitHash_single_token :
  forall t : text,
    (forall i, token_at 40 t i -> (forall j, token_at 40 t j -> j = i) ->
       extractCommitHash t = Some (substring i 40 t))
    /\ ((forall i, ~ token_at 40 t i) -> extractCommitHash t = None).
Proof.
  intros t. split.
  - intros i Hi Huniq. apply extractCommitHash_at_first; [exact Hi|].
    intros j Hj Hjt. apply Huniq in Hjt. lia.
  - apply extractCommitHash_no_token.
Qed.

Lemma extractCommitHash_single_token_witness :
  extractCommitHash upper_case_proposal = Some (substring 40 40 upper_case_proposal)
  /\ extractCommitHash (lit "Motion: adopt the new roadmap (no code change).") = None.
Proof.
  split.
  - apply (proj1 (extractCommitHash_single_token upper_case_proposal) 40%nat).
    + vm_compute; reflexivity.
    + apply only_token_check; vm_compute; reflexivity.
  - apply (proj2 (extractCommitHash_single_token _)).
    apply no_token_check; vm_compute; reflexivity.
Defined.


(** C8: for every text containing several distinct 40-hex-character
    tokens, [extractCommitHash] returns the one that occurs first in the
    text. *)
Theorem extractCommitHash_first_occurrence :
  forall (t : text) (i j : nat),
    token_at 40 t i -> token_at 40 t j ->
    substring i 40 t <> substring j 40 t ->
    exists k,
      token_at 40 t k
      /\ (forall k', token_at 40 t k' -> (k <= k')%nat)
      /\ extractCommitHash t = Some (substring k 40 t).
Proof.
  intros t i j Hi _ _.
  destruct (first_token 40 t i Hi) as (k & _ & Hk & Hmin).
  exists k. repeat split.
  - exact Hk.
  - intros k' Hk'. destruct (Nat.le_gt_cases k k') as [|Hlt]; [assumption|].
    now apply Hmin in Hlt.
  - now apply extractCommitHash_at_first.
Qed.

Lemma extractCommitHash_first_occurrence_witness :
  exists k,
    token_at 40 two_commit_proposal k
    /\ (forall k', token_at 40 two_commit_proposal k' -> (k <= k')%nat)
    /\ extractCommitHash two_commit_proposal = Some (substring k 40 two_commit_proposal).
Proof.
  apply (extractCommitHash_first_occurrence two_commit_proposal 11 71).
  - vm_compute; reflexivity.
  - vm_compute; reflexivity.
  - intros H; vm_compute in H; discriminate.
Defined.

(* ================================================================= *)
(** ** fetch-proposal.ts: [extractWasmHash] *)

Module WasmHashFacts.


Lemma star_lazy_class ic inv rs k fuel s :
  (length (after s) <= fuel)%nat ->
  star_loop (m ic (Class inv rs)) false k fuel s
  = lazy_scan (class_matches ic inv rs) k (before s) (after s) (cap1 s).
Proof.
  revert s; induction fuel as [|f IH]; intros [bef aft c] Hlen; cbn [before after cap1] in *.
  - destruct aft; [|simpl in Hlen; lia]. simpl. now destruct (k _).
  - cbn [star_loop]. destruct aft as [|x rest]; cbn [lazy_scan].
    + destruct (k _); reflexivity.
    + destruct (k _); [reflexivity|].
      rewrite m_Class. unfold step. cbn [before after cap1].
      destruct (class_matches ic inv rs x); [|reflexivity].
      unfold progressed. cbn [after length].
      rewrite (proj2 (Nat.ltb_lt _ _)) by lia.
      rewrite IH by (simpl in *; lia). reflexivity.
Qed.

Lemma m_star_lazy_class ic inv rs k s :
  m ic (Star false (Class inv rs)) k s
  = lazy_scan (class_matches ic inv rs) k (before s) (after s) (cap1 s).
Proof. cbn [m]. now apply star_lazy_class. Qed.

(** [([a-f0-9]{n})] at one position. *)
Lemma m_hex_group n bef aft c :
  m true (Group (Rep n hex)) Some (MState bef aft c)
  = if (n <=? length aft)%nat && forallb is_hex (firstn n aft)
    then Some (MState (rev (firstn n aft) ++ bef) (skipn n aft) (Some (firstn n aft)))
    else None.
Proof.
  rewrite m_Group. unfold hex. rewrite m_rep_class. cbn [after before].
  rewrite (forallb_eq _ _ _ hex_class).
  destruct (n <=? length aft)%nat eqn:Hlen; [|reflexivity].
  destruct (forallb is_hex (firstn n aft)); [|reflexivity]. cbn [andb].
  apply Nat.leb_le in Hlen.
  pose proof (consumed_advance n (MState bef aft c) c Hlen) as Hc.
  unfold advance in *. cbn [before after cap1] in *. now rewrite Hc.
Qed.


Lemma newline_class c : class_matches true true [(10%N, 10%N)] c = not_newline c.
Proof.
  unfold class_matches, in_ranges, not_newline, upper, lower, is_lower, is_upper, in_range;
    cbn [existsb fst snd]; codes.
  rewrite xorb_true_l. f_equal. apply eq_true_iff_eq.
  destruct ((97 <=? c)%N && (c <=? 122)%N) eqn:L;
  destruct ((65 <=? c)%N && (c <=? 90)%N) eqn:U;
  bool_to_prop; lia.
Qed.

Lemma lazy_scan_ext p q k bef aft c :
  (forall x, p x = q x) -> lazy_scan p k bef aft c = lazy_scan q k bef aft c.
Proof.
  intros H. revert bef; induction aft as [|x aft IH]; intros bef; simpl.
  - reflexivity.
  - destruct (k _); [reflexivity|]. rewrite H. destruct (q x); auto.
Qed.

Lemma substring_0 n (t : text) : substring 0 n t = firstn n t.
Proof. reflexivity. Qed.

Lemma substring_S k n x (t : text) : substring (S k) n (x :: t) = substring k n t.
Proof. reflexivity. Qed.

Lemma substring_app k n (pre post : text) :
  substring (length pre + k) n (pre ++ post) = substring k n post.
Proof.
  unfold substring. induction pre; simpl; auto.
Qed.

Lemma hex_run_0 n (t : text) :
  hex_run n t 0 = (n <=? length t)%nat && forallb is_hex (firstn n t).
Proof. reflexivity. Qed.

Lemma hex_run_S n x (t : text) k : hex_run n (x :: t) (S k) = hex_run n t k.
Proof. reflexivity. Qed.

Lemma hex_run_app n (pre post : text) k :
  hex_run n (pre ++ post) (length pre + k) = hex_run n post k.
Proof. induction pre; simpl; auto. Qed.

(** The lazy scan in front of the hash group finds [hash_offset]. *)
Lemma lazy_scan_hash bef aft c :
  lazy_scan not_newline (m true (Group (Rep 64 hex)) Some) bef aft c
  = match hash_offset aft with
    | Some k =>
        Some (MState (rev (firstn (k + 64) aft) ++ bef) (skipn (k + 64) aft)
                (Some (substring k 64 aft)))
    | None => None
    end.
Proof.
  revert bef; induction aft as [|x aft IH]; intros bef.
  - reflexivity.
  - cbn [lazy_scan hash_offset]. rewrite m_hex_group.
    destruct ((64 <=? length (x :: aft))%nat && forallb is_hex (firstn 64 (x :: aft))).
    + reflexivity.
    + destruct (not_newline x); [|reflexivity].
      rewrite IH. destruct (hash_offset aft) as [k|]; [|reflexivity].
      cbn [option_map]. rewrite substring_S.
      replace (S k + 64)%nat with (S (k + 64)) by lia.
      cbn [firstn skipn rev]. now rewrite <- app_assoc.
Qed.

Lemma hash_offset_sound aft k :
  hash_offset aft = Some k ->
  forallb not_newline (firstn k aft) = true /\ hex_run 64 aft k = true.
Proof.
  revert k; induction aft as [|x aft IH]; intros k.
  - discriminate.
  - cbn [hash_offset]. rewrite <- hex_run_0.
    destruct (hex_run 64 (x :: aft) 0) eqn:E.
    + intros H; injection H as <-. split; [reflexivity | exact E].
    + destruct (not_newline x) eqn:Hx; [|discriminate].
      destruct (hash_offset aft) as [k'|]; [|discriminate].
      intros H; injection H as <-. destruct (IH k' eq_refl) as [H1 H2].
      split; [simpl; now rewrite Hx | now rewrite hex_run_S].
Qed.

Lemma hash_offset_min aft k k' :
  hash_offset aft = Some k -> hex_run 64 aft k' = true -> (k <= k')%nat.
Proof.
  revert k k'; induction aft as [|x aft IH]; intros k k'.
  - discriminate.
  - cbn [hash_offset]. rewrite <- hex_run_0.
    destruct (hex_run 64 (x :: aft) 0) eqn:E.
    + intros H; injection H as <-. lia.
    + destruct (not_newline x); [|discriminate].
      destruct (hash_offset aft) as [k0|] eqn:E0; [|discriminate].
      intros H; injection H as <-. destruct k' as [|k'].
      * congruence.
      * rewrite hex_run_S. intros H. specialize (IH k0 k' eq_refl H). lia.
Qed.

Lemma hash_offset_complete aft k :
  forallb not_newline (firstn k aft) = true -> hex_run 64 aft k = true ->
  hash_offset aft <> None.
Proof.
  revert k; induction aft as [|x aft IH]; intros k Hnl Hhex.
  - unfold hex_run in Hhex. simpl in Hhex.
    apply andb_true_iff in Hhex as [H _]. apply Nat.leb_le in H. lia.
  - cbn [hash_offset]. rewrite <- hex_run_0.
    destruct (hex_run 64 (x :: aft) 0) eqn:E; [discriminate|].
    destruct k as [|k]; [congruence|].
    simpl in Hnl. apply andb_true_iff in Hnl as [Hx Hnl]. rewrite Hx.
    rewrite hex_run_S in Hhex. specialize (IH k Hnl Hhex).
    destruct (hash_offset aft); [discriminate | contradiction].
Qed.


Lemma prefix_matches_same_word w aft :
  prefix_matches true w aft = same_word w (firstn (length w) aft).
Proof.
  unfold same_word, text_eqb.
  revert aft; induction w as [|c w IH]; intros [|x aft]; try reflexivity.
  cbn [prefix_matches length firstn map startsWith char_matches]. rewrite IH.
  cbn [Nat.eqb]. rewrite (N.eqb_sym (upper x)).
  destruct (upper c =? upper x)%N; [reflexivity|].
  now rewrite andb_false_r.
Qed.

(** No two labels start alike, so at most one of them is at a position. *)
Lemma labels_exclusive post :
  (prefix_matches true (lit "wasm") post = true ->
     prefix_matches true (lit "module") post = false
     /\ prefix_matches true (lit "sha256") post = false)
  /\ (prefix_matches true (lit "module") post = true ->
        prefix_matches true (lit "sha256") post = false).
Proof.
  destruct post as [|x post]; [split; discriminate|].
  unfold lit; cbn [list_ascii_of_string map prefix_matches char_matches].
  change (upper (N_of_ascii "w")) with 87%N.
  change (upper (N_of_ascii "m")) with 77%N.
  change (upper (N_of_ascii "s")) with 83%N.
  destruct (N.eqb_spec 87 (upper x)) as [<-|]; [split; [split; reflexivity | discriminate]|].
  destruct (N.eqb_spec 77 (upper x)) as [<-|]; split; try discriminate; reflexivity.
Qed.

Lemma m_labels K s :
  m true (Alt (word (lit "wasm")) (Alt (word (lit "module")) (word (lit "sha256")))) K s
  = match label_here (after s) with
    | Some w => K (advance (length w) s)
    | None => None
    end.
Proof.
  cbn [m]. rewrite !m_word. unfold label_here, labels. cbn [find].
  destruct (labels_exclusive (after s)) as [H1 H2].
  destruct (prefix_matches true (lit "wasm") (after s)).
  - destruct (H1 eq_refl) as [-> ->]. now destruct (K _).
  - destruct (prefix_matches true (lit "module") (after s)).
    + rewrite (H2 eq_refl). now destruct (K _).
    + now destruct (prefix_matches true (lit "sha256") (after s)).
Qed.


(** The hash pattern at one position. *)
Lemma m_hash bef post :
  option_map cap1 (m true hashRegex Some (MState bef post None))
  = option_map (fun d => Some (substring d 64 post)) (hash_after post).
Proof.
  unfold hashRegex, hash_after. rewrite m_Seq, m_labels. cbn [after].
  destruct (label_here post) as [w|]; [|reflexivity].
  rewrite m_Seq, m_star_lazy_class.
  rewrite (lazy_scan_ext _ _ _ _ _ _ newline_class).
  unfold advance. cbn [before after cap1]. rewrite lazy_scan_hash.
  destruct (hash_offset (skipn (length w) post)) as [k|]; [|reflexivity].
  cbn [option_map cap1]. do 2 f_equal.
  unfold substring. now rewrite skipn_skipn, Nat.add_comm.
Qed.

Lemma prefix_matches_length ic w aft :
  prefix_matches ic w aft = true -> (length w <= length aft)%nat.
Proof.
  revert aft; induction w as [|c w IH]; intros [|x aft]; simpl; try lia; try discriminate.
  rewrite andb_true_iff. intros [_ H]. apply IH in H. lia.
Qed.

Lemma label_here_some post w :
  label_here post = Some w ->
  prefix_matches true w post = true /\ (length w <= length post)%nat.
Proof.
  unfold label_here. intros H. apply find_some in H as [_ H].
  split; [exact H | now apply prefix_matches_length in H].
Qed.

Lemma hex_run_skipn n (post : text) L k :
  (L <= length post)%nat -> hex_run n (skipn L post) k = hex_run n post (L + k).
Proof.
  intros HL. destruct (split_at post L HL) as [_ Hl].
  rewrite <- (hex_run_app n (firstn L post) (skipn L post) k).
  now rewrite Hl, firstn_skipn.
Qed.

(** [labelledb] at the position that splits a text. *)
Lemma labelledb_split pre post j :
  labelledb (pre ++ post) (length pre) j
  = match label_here post with
    | Some w =>
        (length pre + length w <=? j)%nat
        && forallb not_newline (firstn (j - (length pre + length w)) (skipn (length w) post))
        && hex_run 64 (pre ++ post) j
    | None => false
    end.
Proof.
  unfold labelledb, label_here, labels. cbn [existsb find].
  rewrite !(substring_app _ _ pre post).
  pose proof (substring_app 0 (length (lit "wasm")) pre post) as E1.
  pose proof (substring_app 0 (length (lit "module")) pre post) as E2.
  pose proof (substring_app 0 (length (lit "sha256")) pre post) as E3.
  rewrite Nat.add_0_r in E1, E2, E3. rewrite E1, E2, E3.
  rewrite !substring_0, <- !prefix_matches_same_word.
  unfold substring at 1 2 3.
  destruct (labels_exclusive post) as [H1 H2].
  destruct (prefix_matches true (lit "wasm") post).
  - destruct (H1 eq_refl) as [-> ->]. cbn [andb orb]. now rewrite !orb_false_r.
  - destruct (prefix_matches true (lit "module") post).
    + rewrite (H2 eq_refl). cbn [andb orb]. now rewrite !orb_false_r.
    + destruct (prefix_matches true (lit "sha256") post); cbn [andb orb];
        [now rewrite !orb_false_r | reflexivity].
Qed.

Lemma hash_after_sound pre post d :
  hash_after post = Some d ->
  labelledb (pre ++ post) (length pre) (length pre + d) = true.
Proof.
  unfold hash_after. rewrite labelledb_split.
  destruct (label_here post) as [w|] eqn:Hw; [|discriminate].
  destruct (hash_offset (skipn (length w) post)) as [k|] eqn:Hk; [|discriminate].
  intros H; injection H as <-.
  destruct (label_here_some _ _ Hw) as [_ Hlen].
  destruct (hash_offset_sound _ _ Hk) as [Hnl Hhex].
  rewrite hex_run_app, <- (hex_run_skipn _ _ _ _ Hlen), Hhex.
  replace (length pre + (length w + k) - (length pre + length w))%nat with k by lia.
  rewrite Hnl. rewrite (proj2 (Nat.leb_le _ _)) by lia. reflexivity.
Qed.

Lemma hash_after_min pre post d j :
  hash_after post = Some d ->
  labelledb (pre ++ post) (length pre) j = true ->
  (length pre + d <= j)%nat.
Proof.
  unfold hash_after. rewrite labelledb_split.
  destruct (label_here post) as [w|] eqn:Hw; [|discriminate].
  destruct (hash_offset (skipn (length w) post)) as [k|] eqn:Hk; [|discriminate].
  intros H; injection H as <-.
  destruct (label_here_some _ _ Hw) as [_ Hlen].
  rewrite !andb_true_iff, Nat.leb_le. intros [[Hj _] Hhex].
  replace j with (length pre + (length w + (j - (length pre + length w))))%nat in Hhex by lia.
  rewrite hex_run_app, <- (hex_run_skipn _ _ _ _ Hlen) in Hhex.
  pose proof (hash_offset_min _ _ _ Hk Hhex). lia.
Qed.

Lemma hash_after_complete pre post j :
  labelledb (pre ++ post) (length pre) j = true -> hash_after post <> None.
Proof.
  unfold hash_after. rewrite labelledb_split.
  destruct (label_here post) as [w|] eqn:Hw; [|discriminate].
  destruct (label_here_some _ _ Hw) as [_ Hlen].
  rewrite !andb_true_iff, Nat.leb_le. intros [[Hj Hnl] Hhex].
  replace j with (length pre + (length w + (j - (length pre + length w))))%nat in Hhex by lia.
  rewrite hex_run_app, <- (hex_run_skipn _ _ _ _ Hlen) in Hhex.
  pose proof (hash_offset_complete _ _ Hnl Hhex).
  destruct (hash_offset (skipn (length w) post)); [discriminate | contradiction].
Qed.

Lemma labelled_at_bound t i j : labelled_at t i j -> (i <= j /\ j + 64 <= length t)%nat.
Proof.
  unfold labelled_at, labelledb. rewrite existsb_exists.
  intros (w & _ & H). unfold hex_run in H.
  rewrite !andb_true_iff, !Nat.leb_le in H. lia.
Qed.

(** [hashRegex.exec(text)]: the first label with a hash after it on its
    line, and the nearest such hash. *)
Lemma exec_hash_labelled t i j :
  labelled_at t i j ->
  (forall i' j', labelled_at t i' j' -> (i < i' \/ (i = i' /\ j <= j'))%nat) ->
  exists r, exec true hashRegex t = Some r /\ group1 r = Some (substring j 64 t).
Proof.
  intros Hij Hmin.
  destruct (labelled_at_bound _ _ _ Hij) as [Hle Hb].
  destruct (split_at t i ltac:(lia)) as [Ht Hl].
  set (pre := firstn i t) in *. set (post := skipn i t) in *.
  assert (Hcomp : hash_after post <> None).
  { apply (hash_after_complete pre post j). rewrite <- Ht, Hl. exact Hij. }
  destruct (hash_after post) as [d|] eqn:Hd; [clear Hcomp | contradiction].
  assert (Hj : j = (i + d)%nat).
  { pose proof (hash_after_sound pre post d Hd) as Hs. rewrite <- Ht, Hl in Hs.
    pose proof (hash_after_min pre post d j Hd) as Hm. rewrite <- Ht, Hl in Hm.
    specialize (Hm Hij). destruct (Hmin _ _ Hs) as [|[_ ?]]; lia. }
  pose proof (m_hash (rev pre ++ []) post) as Hm. rewrite Hd in Hm. cbn [option_map] in Hm.
  destruct (m true hashRegex Some (MState (rev pre ++ []) post None)) as [e|] eqn:He;
    [|discriminate].
  injection Hm as Hcap.
  assert (Hs : search true hashRegex [] t = Some (MState (rev pre ++ []) post None, e)).
  { rewrite Ht at 1. apply search_found; [exact He|].
    intros pre' post' Heq Hlt.
    destruct (m true hashRegex Some (MState (rev pre' ++ []) post' None)) eqn:E; [|reflexivity].
    exfalso. pose proof (m_hash (rev pre' ++ []) post') as Hm'. rewrite E in Hm'.
    destruct (hash_after post') as [d'|] eqn:Hd'; [|discriminate].
    pose proof (hash_after_sound pre' post' d' Hd') as Hs'.
    rewrite <- Heq, <- Ht in Hs'. destruct (Hmin _ _ Hs') as [|[? _]]; lia. }
  exists (result_of (MState (rev pre ++ []) post None, e)). split.
  - unfold exec. now rewrite Hs.
  - cbn [result_of group1]. rewrite Hcap, Hj, Ht, <- Hl. now rewrite substring_app.
Qed.

Lemma exec_hash_none t :
  (forall i j, ~ labelled_at t i j) -> exec true hashRegex t = None.
Proof.
  intros Hno. unfold exec.
  destruct (search true hashRegex [] t) as [[s e]|] eqn:E; [|reflexivity].
  exfalso. apply search_some in E as (pre & post & Ht & -> & Hm & _).
  pose proof (m_hash (rev pre ++ []) post) as Hm'. rewrite Hm in Hm'.
  destruct (hash_after post) as [d|] eqn:Hd; [|discriminate].
  apply (Hno (length pre) (length pre + d)%nat).
  unfold labelled_at. rewrite Ht. now apply hash_after_sound.
Qed.

Lemma generic_at_first t k :
  token_at 64 t k -> (forall j, (j < k)%nat -> ~ token_at 64 t j) ->
  exists rest, match_global true genericRegex t = Some (substring k 64 t :: rest).
Proof. intros Hk Hmin. exact (match_first_token 63 t k Hk Hmin). Qed.

Lemma generic_no_token t :
  (forall k, ~ token_at 64 t k) -> match_global true genericRegex t = None.
Proof. intros Hno. exact (match_no_token 63 t Hno). Qed.

End WasmHashFacts.

Import WasmHashFacts.


Lemma labelled_hash_after t i j :
  labelled_at t i j ->
  exists d, hash_after (skipn i t) = Some d /\ (i + d <= j)%nat.
Proof.
  intros Hij. destruct (labelled_at_bound _ _ _ Hij) as [Hle Hb].
  destruct (split_at t i ltac:(lia)) as [Ht Hl].
  assert (Hij' : labelledb (firstn i t ++ skipn i t) (length (firstn i t)) j = true)
    by (rewrite Hl, <- Ht; exact Hij).
  pose proof (hash_after_complete _ _ _ Hij') as Hc.
  destruct (hash_after (skipn i t)) as [d|] eqn:Hd; [|contradiction].
  exists d. split; [reflexivity|].
  pose proof (hash_after_min _ _ _ _ Hd Hij'). lia.
Qed.

Lemma no_labelled_check t :
  forallb (unlabelled t) (seq 0 (S (length t))) = true ->
  forall i j, ~ labelled_at t i j.
Proof.
  intros H i j Hij. destruct (labelled_at_bound _ _ _ Hij) as [Hle Hb].
  destruct (labelled_hash_after _ _ _ Hij) as (d & Hd & _).
  rewrite forallb_forall in H. specialize (H i ltac:(apply in_seq; lia)).
  unfold unlabelled in H. now rewrite Hd in H.
Qed.

Lemma first_labelled_check t i d :
  hash_after (skipn i t) = Some d ->
  forallb (unlabelled t) (seq 0 i) = true ->
  forall i' j', labelled_at t i' j' -> (i < i' \/ (i = i' /\ i + d <= j'))%nat.
Proof.
  intros Hd H i' j' Hij.
  destruct (labelled_hash_after _ _ _ Hij) as (d' & Hd' & Hle).
  destruct (Nat.lt_trichotomy i i') as [Hlt|[<-|Hgt]].
  - now left.
  - right. split; [reflexivity|]. rewrite Hd in Hd'. injection Hd' as <-. exact Hle.
  - rewrite forallb_forall in H. specialize (H i' ltac:(apply in_seq; lia)).
    unfold unlabelled in H. now rewrite Hd' in H.
Qed.


(** C9, as stated, fails: "hash" is not one of the labels.  A 64-hex
    token right after "hash: " is not what [extractWasmHash] returns when
    another bare token stands earlier in the text. *)
Lemma extractWasmHash_hash_is_no_label :
  ~ (forall t i,
        substring i 6 t = lit "hash: " -> token_at 64 t (i + 6) ->
        extractWasmHash t = Some (substring (i + 6) 64 t)).
Proof.
  intros H. specialize (H hash_label_proposal 85%nat).
  assert (H1 : substring 85 6 hash_label_proposal = lit "hash: ") by (vm_compute; reflexivity).
  assert (H2 : token_at 64 hash_label_proposal (85 + 6)) by (vm_compute; reflexivity).
  specialize (H H1 H2). vm_compute in H. discriminate.
Qed.

(** C9 (amended): the labels are "wasm", "module" and "sha256", in any
    letter case.  When some label is followed on its line by 64
    hexadecimal digits, [extractWasmHash] returns such digits: those
    nearest after the first such label (they need not be word-bounded).
    When there is none, it returns the first word-bounded 64-hex token
    of the text, as written; when there is none either, [null]. *)
Theorem extractWasmHash_labelled_then_bare :
  forall t : text,
    (forall i j,
        labelled_at t i j ->
        (forall i' j', labelled_at t i' j' -> (i < i' \/ (i = i' /\ j <= j'))%nat) ->
        extractWasmHash t = Some (substring j 64 t))
    /\ ((forall i j, ~ labelled_at t i j) ->
        forall k, token_at 64 t k -> (forall k', token_at 64 t k' -> (k <= k')%nat) ->
        extractWasmHash t = Some (substring k 64 t))
    /\ ((forall i j, ~ labelled_at t i j) -> (forall k, ~ token_at 64 t k) ->
        extractWasmHash t = None).
Proof.
  intros t. split; [|split].
  - intros i j Hij Hmin. unfold extractWasmHash.
    destruct (exec_hash_labelled t i j Hij Hmin) as (r & -> & Hr). exact Hr.
  - intros Hno k Hk Hmin. unfold extractWasmHash. rewrite (exec_hash_none t Hno).
    destruct (generic_at_first t k Hk) as [rest ->]; [|reflexivity].
    intros j Hj Hjt. apply Hmin in Hjt. lia.
  - intros Hno Hnot. unfold extractWasmHash.
    now rewrite (exec_hash_none t Hno), (generic_no_token t Hnot).
Qed.


Lemma extractWasmHash_labelled_then_bare_witness :
  extractWasmHash labelled_proposal = Some (substring 24 64 labelled_proposal)
  /\ extractWasmHash bare_proposal = Some (substring 9 64 bare_proposal)
  /\ extractWasmHash upper_case_proposal = None.
Proof.
  split; [|split].
  - apply (proj1 (extractWasmHash_labelled_then_bare labelled_proposal) 4%nat 24%nat).
    + vm_compute; reflexivity.
    + apply (first_labelled_check labelled_proposal 4 20); vm_compute; reflexivity.
  - apply (proj1 (proj2 (extractWasmHash_labelled_then_bare bare_proposal))).
    + apply no_labelled_check; vm_compute; reflexivity.
    + vm_compute; reflexivity.
    + intros k' Hk'.
      destruct (Nat.le_gt_cases 9 k') as [|Hlt]; [assumption|].
      exfalso. unfold token_at in Hk'.
      assert (Hin : In k' (seq 0 9)) by (apply in_seq; lia).
      assert (Hall : forallb (fun k => negb (tokenb 64 bare_proposal k)) (seq 0 9) = true)
        by (vm_compute; reflexivity).
      rewrite forallb_forall in Hall. specialize (Hall _ Hin). now rewrite Hk' in Hall.
  - apply (proj2 (proj2 (extractWasmHash_labelled_then_bare upper_case_proposal))).
    + apply no_labelled_check; vm_compute; reflexivity.
    + apply no_token_check; vm_compute; reflexivity.
Defined.

(* ================================================================= *)
(** ** extract-build-steps.ts: [parseGeminiResponse] *)

Module ParseFacts.


Lemma prop_get v key : v <> Null -> prop v key = Ret (get v key).
Proof. destruct v; try reflexivity. congruence. Qed.

Lemma get_some_not_null v key x : get v key = Some x -> v <> Null.
Proof. destruct v; discriminate. Qed.

(** Accepted: the text left after trimming and unfencing is JSON whose
    [steps] is an array. *)
Lemma parse_accepts response w parsed l :
  JSON_parse (unfence response) = Some parsed ->
  get parsed (lit "steps") = Some (Arr l) ->
  parseGeminiResponse response w
  = (Ret (Plan l (or_value (get parsed (lit "wasmOutputPath")) default_path)), w).
Proof.
  intros Hp Hs. unfold parseGeminiResponse, try_catch. rewrite Hp.
  pose proof (get_some_not_null _ _ _ Hs) as Hn.
  unfold bind, lift. rewrite (prop_get _ _ Hn), Hs.
  rewrite (prop_get _ _ Hn). reflexivity.
Qed.

(** Rejected: everything else. *)
Lemma parse_rejects_syntax response w :
  JSON_parse (unfence response) = None ->
  rejected response w (parseGeminiResponse response w).
Proof.
  intros Hp. unfold parseGeminiResponse, try_catch, rejected. rewrite Hp.
  exists SyntaxError. reflexivity.
Qed.

Lemma parse_rejects_steps response w parsed :
  JSON_parse (unfence response) = Some parsed ->
  (forall l, get parsed (lit "steps") <> Some (Arr l)) ->
  rejected response w (parseGeminiResponse response w).
Proof.
  intros Hp Hs. unfold parseGeminiResponse, try_catch, rejected. rewrite Hp.
  destruct parsed as [| b | n | s | l | ms].
  1: now exists TypeError.
  all: exists (Error (lit "Invalid response: steps must be an array")).
  all: unfold bind, lift, prop; cbn [get] in *.
  1-4: reflexivity.
  destruct (lookup (lit "steps") ms) as [[| b | n | s | l | ms']|] eqn:E; try reflexivity.
  now destruct (Hs l).
Qed.

(** An accepted response is one of the kind [parse_accepts] describes. *)
Lemma parse_accepted_inv response w p w' :
  parseGeminiResponse response w = (Ret p, w') ->
  exists parsed,
    JSON_parse (unfence response) = Some parsed
    /\ get parsed (lit "steps") = Some (Arr (steps p))
    /\ wasmOutputPath p = or_value (get parsed (lit "wasmOutputPath")) default_path
    /\ w' = w.
Proof.
  intros H.
  destruct (JSON_parse (unfence response)) as [parsed|] eqn:Hp.
  - destruct (get parsed (lit "steps")) as [[| b | n | s | l | ms']|] eqn:Hs.
    5:{ rewrite (parse_accepts _ w _ _ Hp Hs) in H. injection H as <- <-.
        exists parsed. repeat split; auto. }
    all: assert (Hr : rejected response w (parseGeminiResponse response w))
      by (apply (parse_rejects_steps _ _ _ Hp); intros l'; rewrite Hs; discriminate);
      destruct Hr as [c Hr]; rewrite Hr in H; discriminate.
  - destruct (parse_rejects_syntax _ w Hp) as [c Hr]. rewrite Hr in H. discriminate.
Qed.

End ParseFacts.

Import ParseFacts.

(* ================================================================= *)
(** ** extract-build-steps.ts: the markdown code block markers *)

Module FenceFacts.

Lemma m_Bol ic k s :
  m ic Bol k s = match before s with [] => k s | _ :: _ => None end.
Proof. reflexivity. Qed.

Lemma m_Eol ic k s :
  m ic Eol k s = match after s with [] => k s | _ :: _ => None end.
Proof. reflexivity. Qed.

Lemma m_opt_char ic c k s :
  m ic (Opt (Char c)) k s =
  match after s with
  | x :: rest =>
      if char_matches ic c x then
        match k (MState (x :: before s) rest (cap1 s)) with
        | Some e => Some e
        | None => k s
        end
      else k s
  | [] => k s
  end.
Proof.
  cbn [m]. unfold step, progressed. destruct (after s) as [|x rest]; [reflexivity|].
  destruct (char_matches ic c x); [|reflexivity].
  cbn [after length]. rewrite (proj2 (Nat.ltb_lt _ _)) by lia. reflexivity.
Qed.

Lemma m_opt_word ic w k s :
  w <> [] ->
  m ic (Opt (word w)) k s =
  if prefix_matches ic w (after s) then
    match k (advance (length w) s) with
    | Some e => Some e
    | None => k s
    end
  else k s.
Proof.
  intros Hw. cbn [m]. rewrite m_word.
  destruct (prefix_matches ic w (after s)) eqn:E; [|reflexivity].
  apply prefix_matches_length in E.
  unfold progressed, advance. cbn [after]. rewrite length_skipn.
  destruct w; [contradiction|]. simpl in E.
  rewrite (proj2 (Nat.ltb_lt _ _)) by (simpl; lia). reflexivity.
Qed.

Lemma fence_not_nil : fence <> [].
Proof. discriminate. Qed.

(** The closing marker matches only at the very end of the text. *)
Lemma fenceClose_short bef aft c e :
  m false fenceClose Some (MState bef aft c) = Some e -> (length aft <= 4)%nat.
Proof.
  assert (HK : forall s e', m false (Seq (word fence) Eol) Some s = Some e' ->
                            (length (after s) <= 3)%nat).
  { intros s e'. rewrite m_Seq, m_word.
    destruct (prefix_matches false fence (after s)); [|discriminate].
    rewrite m_Eol. unfold advance. cbn [after].
    destruct (skipn (length fence) (after s)) eqn:E; [|discriminate].
    intros _. apply (f_equal (@length N)) in E. rewrite length_skipn in E.
    change (length fence) with 3%nat in E. simpl in E. lia. }
  unfold fenceClose. rewrite m_Seq, m_opt_char. cbn [after before cap1].
  destruct aft as [|x rest]; [simpl; lia|].
  destruct (char_matches false 10 x).
  - destruct (m false (Seq (word fence) Eol) Some (MState (x :: bef) rest c)) eqn:E.
    + intros _. apply HK in E. simpl in *. lia.
    + intros H. apply HK in H. simpl in *. lia.
  - intros H. apply HK in H. simpl in *. lia.
Qed.

(** Cutting the closing marker off a text that ends with a line break
    and the marker. *)
Lemma replace_fenceClose body :
  replace_first false fenceClose (body ++ nl ++ fence) = body.
Proof.
  unfold replace_first.
  rewrite (search_found false fenceClose [] body (nl ++ fence)
             (MState (rev fence ++ nl ++ rev body ++ []) [] None)).
  - cbn [before after]. now rewrite !app_nil_r, rev_involutive.
  - reflexivity.
  - intros pre' post' Heq Hlt.
    destruct (m false fenceClose Some (MState (rev pre' ++ []) post' None)) eqn:E;
      [|reflexivity].
    apply fenceClose_short in E. apply (f_equal (@length N)) in Heq.
    rewrite !length_app in Heq. simpl in Heq. lia.
Qed.

(** Cutting the opening marker, with and without the language tag. *)
Lemma replace_fenceOpen_json rest :
  replace_first false fenceOpen (fence ++ lit "json" ++ nl ++ rest) = rest.
Proof.
  assert (Hs : search false fenceOpen [] (fence ++ lit "json" ++ nl ++ rest)
               = Some (MState [] (fence ++ lit "json" ++ nl ++ rest) None,
                       MState (nl ++ rev (lit "json") ++ rev fence) rest None)).
  { apply (search_found false fenceOpen [] [] (fence ++ lit "json" ++ nl ++ rest)).
    - unfold fenceOpen. rewrite m_Seq, m_Bol. cbn [before rev app].
      rewrite m_Seq, m_word. cbn -[m word].
      rewrite m_Seq, m_opt_word by discriminate. cbn -[m].
      rewrite m_opt_char. cbn. reflexivity.
    - intros pre' post' _ Hlt. simpl in Hlt. lia. }
  unfold replace_first. rewrite Hs. reflexivity.
Qed.

Lemma replace_fenceOpen_plain rest :
  replace_first false fenceOpen (fence ++ nl ++ rest) = rest.
Proof.
  assert (Hs : search false fenceOpen [] (fence ++ nl ++ rest)
               = Some (MState [] (fence ++ nl ++ rest) None,
                       MState (nl ++ rev fence) rest None)).
  { apply (search_found false fenceOpen [] [] (fence ++ nl ++ rest)).
    - unfold fenceOpen. rewrite m_Seq, m_Bol. cbn [before rev app].
      rewrite m_Seq, m_word. cbn -[m word].
      rewrite m_Seq, m_opt_word by discriminate. cbn -[m].
      rewrite m_opt_char. cbn. reflexivity.
    - intros pre' post' _ Hlt. simpl in Hlt. lia. }
  unfold replace_first. rewrite Hs. reflexivity.
Qed.

Lemma trimStart_id (s : text) :
  match s with c :: _ => is_js_space c = false | [] => True end -> trimStart s = s.
Proof. destruct s as [|c s]; [reflexivity|]. intros H. simpl. now rewrite H. Qed.

(** A text that starts and ends with the marker has nothing to trim. *)
Lemma trim_fenced middle : trim (fence ++ middle ++ fence) = fence ++ middle ++ fence.
Proof.
  unfold trim, trimEnd.
  rewrite (trimStart_id (fence ++ middle ++ fence)) by reflexivity.
  rewrite !rev_app_distr, <- app_assoc.
  rewrite (trimStart_id (rev fence ++ rev middle ++ rev fence)) by reflexivity.
  rewrite !rev_app_distr, !rev_involutive, <- app_assoc. reflexivity.
Qed.

(** The text inside a code block is what is handed to [JSON.parse]. *)
Lemma unfence_json_block body :
  unfence (fence ++ lit "json" ++ nl ++ body ++ nl ++ fence) = body.
Proof.
  unfold unfence.
  replace (fence ++ lit "json" ++ nl ++ body ++ nl ++ fence)
    with (fence ++ (lit "json" ++ nl ++ body ++ nl) ++ fence)
    by (now rewrite <- !app_assoc).
  rewrite trim_fenced.
  replace (startsWith (fence ++ (lit "json" ++ nl ++ body ++ nl) ++ fence) fence) with true
    by (symmetry; apply startsWith_app; eauto).
  rewrite <- !app_assoc.
  rewrite replace_fenceOpen_json. apply replace_fenceClose.
Qed.

Lemma unfence_plain_block body :
  unfence (fence ++ nl ++ body ++ nl ++ fence) = body.
Proof.
  unfold unfence.
  replace (fence ++ nl ++ body ++ nl ++ fence)
    with (fence ++ (nl ++ body ++ nl) ++ fence)
    by (now rewrite <- !app_assoc).
  rewrite trim_fenced.
  replace (startsWith (fence ++ (nl ++ body ++ nl) ++ fence) fence) with true
    by (symmetry; apply startsWith_app; eauto).
  rewrite <- !app_assoc.
  rewrite replace_fenceOpen_plain. apply replace_fenceClose.
Qed.

End FenceFacts.

Import FenceFacts.

(* ================================================================= *)
(** ** extract-build-steps.ts: what [parseGeminiResponse] rejects and accepts *)


(** C1, as stated, fails: an empty [steps] array is not rejected;
    [parseGeminiResponse] returns a plan with no steps. *)
Lemma parseGeminiResponse_accepts_empty_steps :
  ~ (forall response w parsed,
        JSON_parse (unfence response) = Some parsed ->
        get parsed (lit "steps") = Some (Arr []) ->
        exists e w', parseGeminiResponse response w = (Throw e, w')).
Proof.
  intros H.
  destruct (JSON_parse (unfence empty_steps_response)) as [parsed|] eqn:Hp;
    [|vm_compute in Hp; discriminate].
  specialize (H empty_steps_response fresh parsed Hp).
  vm_compute in Hp. injection Hp as <-.
  destruct (H eq_refl) as (e & w' & He). vm_compute in He. discriminate.
Qed.

(** C1 (amended): [parseGeminiResponse] throws (after logging the
    response) when [steps] is present but not an array, when the [steps]
    key is missing, and when the response is wrapped in a code block
    whose body is not valid JSON.  An empty [steps] array is accepted:
    the plan returned has no steps. *)
Theorem parseGeminiResponse_malformed :
  forall (response : text) (w : world),
    (forall parsed x,
        JSON_parse (unfence response) = Some parsed ->
        get parsed (lit "steps") = Some x -> isArray (Some x) = false ->
        rejected response w (parseGeminiResponse response w))
    /\ (forall parsed,
          JSON_parse (unfence response) = Some parsed ->
          get parsed (lit "steps") = None ->
          rejected response w (parseGeminiResponse response w))
    /\ (startsWith (trim response) fence = true ->
        JSON_parse (unfence response) = None ->
        rejected response w (parseGeminiResponse response w))
    /\ (forall parsed,
          JSON_parse (unfence response) = Some parsed ->
          get parsed (lit "steps") = Some (Arr []) ->
          parseGeminiResponse response w
          = (Ret (Plan [] (or_value (get parsed (lit "wasmOutputPath")) default_path)), w)).
Proof.
  intros response w. split; [|split; [|split]].
  - intros parsed x Hp Hs Hx. apply (parse_rejects_steps _ _ _ Hp).
    intros l E. rewrite Hs in E. injection E as ->. discriminate.
  - intros parsed Hp Hs. apply (parse_rejects_steps _ _ _ Hp).
    intros l E. rewrite Hs in E. discriminate.
  - intros _ Hp. now apply parse_rejects_syntax.
  - intros parsed Hp Hs. now apply parse_accepts.
Qed.


Lemma parseGeminiResponse_malformed_witness :
  rejected steps_not_array_response fresh (parseGeminiResponse steps_not_array_response fresh)
  /\ rejected steps_missing_response fresh (parseGeminiResponse steps_missing_response fresh)
  /\ rejected fenced_prose_response fresh (parseGeminiResponse fenced_prose_response fresh)
  /\ parseGeminiResponse empty_steps_response fresh
     = (Ret (Plan [] (Str (lit "artifacts/canisters/registry-canister.wasm"))), fresh).
Proof.
  split; [|split; [|split]].
  - destruct (JSON_parse (unfence steps_not_array_response)) as [parsed|] eqn:Hp;
      [|vm_compute in Hp; discriminate].
    apply (proj1 (parseGeminiResponse_malformed steps_not_array_response fresh)
             parsed (Str (lit "bazel build //rs/registry/canister")) Hp);
      vm_compute in Hp; injection Hp as <-; reflexivity.
  - destruct (JSON_parse (unfence steps_missing_response)) as [parsed|] eqn:Hp;
      [|vm_compute in Hp; discriminate].
    apply (proj1 (proj2 (parseGeminiResponse_malformed steps_missing_response fresh))
             parsed Hp);
      vm_compute in Hp; injection Hp as <-; reflexivity.
  - apply (proj1 (proj2 (proj2 (parseGeminiResponse_malformed fenced_prose_response fresh))));
      vm_compute; reflexivity.
  - destruct (JSON_parse (unfence empty_steps_response)) as [parsed|] eqn:Hp;
      [|vm_compute in Hp; discriminate].
    rewrite (proj2 (proj2 (proj2 (parseGeminiResponse_malformed empty_steps_response fresh)))
               parsed Hp);
      vm_compute in Hp; injection Hp as <-; reflexivity.
Defined.


(** C2, as stated, fails: when the accepted response has no
    [wasmOutputPath], the plan carries the default ['output.wasm'], a
    path the response did not supply. *)
Lemma parseGeminiResponse_substitutes_default :
  ~ (forall response w p w' parsed,
        parseGeminiResponse response w = (Ret p, w') ->
        JSON_parse (unfence response) = Some parsed ->
        get parsed (lit "wasmOutputPath") = Some (wasmOutputPath p)).
Proof.
  intros H.
  destruct (JSON_parse (unfence no_path_response)) as [parsed|] eqn:Hp;
    [|vm_compute in Hp; discriminate].
  specialize (H no_path_response fresh
                (Plan [Str (lit "bazel build //rs/registry/canister")] default_path)
                fresh parsed ltac:(vm_compute; reflexivity) Hp).
  vm_compute in Hp. injection Hp as <-. vm_compute in H. discriminate.
Qed.

(** C2 (amended): for every accepted response, the steps of the plan are
    the [steps] array of the response, unchanged, and the output path is
    the response's [wasmOutputPath] whenever that field is present and
    truthy (a non-empty string, for one); when the field is missing or
    falsy the path is the default ['output.wasm']. *)
Theorem parseGeminiResponse_output_path :
  forall (response : text) (w w' : world) (p : plan),
    parseGeminiResponse response w = (Ret p, w') ->
    exists parsed,
      JSON_parse (unfence response) = Some parsed
      /\ get parsed (lit "steps") = Some (Arr (steps p))
      /\ ((truthy (get parsed (lit "wasmOutputPath")) = true
           /\ get parsed (lit "wasmOutputPath") = Some (wasmOutputPath p))
          \/ (truthy (get parsed (lit "wasmOutputPath")) = false
              /\ wasmOutputPath p = Str (lit "output.wasm"))).
Proof.
  intros response w w' p H.
  destruct (parse_accepted_inv _ _ _ _ H) as (parsed & Hp & Hs & Ho & _).
  exists parsed. split; [exact Hp|]. split; [exact Hs|].
  rewrite Ho. unfold or_value, if_truthy.
  destruct (get parsed (lit "wasmOutputPath")) as [v|] eqn:E.
  - destruct (truthy (Some v)); [left | right]; auto.
  - right. auto.
Qed.


Lemma parseGeminiResponse_output_path_witness :
  exists parsed,
    JSON_parse (unfence full_response) = Some parsed
    /\ get parsed (lit "steps") = Some (Arr [Str (lit "bazel build //rs/registry/canister")])
    /\ ((truthy (get parsed (lit "wasmOutputPath")) = true
         /\ get parsed (lit "wasmOutputPath")
            = Some (Str (lit "bazel-bin/rs/registry/canister/registry-canister.wasm")))
        \/ (truthy (get parsed (lit "wasmOutputPath")) = false
            /\ Str (lit "bazel-bin/rs/registry/canister/registry-canister.wasm")
               = Str (lit "output.wasm"))).
Proof.
  apply (parseGeminiResponse_output_path full_response fresh fresh
           (Plan [Str (lit "bazel build //rs/registry/canister")]
                 (Str (lit "bazel-bin/rs/registry/canister/registry-canister.wasm")))).
  vm_compute; reflexivity.
Defined.


(** C4, as stated, fails: a response wrapped in a markdown code block is
    accepted when its body is a plan. *)
Lemma parseGeminiResponse_accepts_fenced :
  ~ (forall response w,
        startsWith (trim response) fence = true ->
        exists e w', parseGeminiResponse response w = (Throw e, w')).
Proof.
  intros H.
  destruct (H fenced_response fresh ltac:(vm_compute; reflexivity)) as (e & w' & He).
  vm_compute in He. discriminate.
Qed.

(** C4 (amended): the response is trimmed and a leading [```] or
    [```json] line and a trailing [```] are removed; what is left is
    handed to [JSON.parse].  The run hard-fails when that text is not
    JSON or its value has no array under [steps]; every other response
    is accepted, so a fenced response whose body is a plan is accepted
    as the plan of its body. *)
Theorem parseGeminiResponse_fence_is_stripped :
  (forall response w,
      (forall parsed l,
          JSON_parse (unfence response) = Some parsed ->
          get parsed (lit "steps") <> Some (Arr l)) ->
      rejected response w (parseGeminiResponse response w))
  /\ (forall response w parsed l,
        JSON_parse (unfence response) = Some parsed ->
        get parsed (lit "steps") = Some (Arr l) ->
        parseGeminiResponse response w
        = (Ret (Plan l (or_value (get parsed (lit "wasmOutputPath")) default_path)), w))
  /\ (forall body,
        unfence (fence ++ lit "json" ++ nl ++ body ++ nl ++ fence) = body
        /\ unfence (fence ++ nl ++ body ++ nl ++ fence) = body).
Proof.
  split; [|split].
  - intros response w Hno.
    destruct (JSON_parse (unfence response)) as [parsed|] eqn:Hp.
    + apply (parse_rejects_steps _ _ _ Hp). intros l. now apply Hno.
    + now apply parse_rejects_syntax.
  - intros response w parsed l Hp Hs. now apply parse_accepts.
  - intros body. split; [apply unfence_json_block | apply unfence_plain_block].
Qed.

Lemma parseGeminiResponse_fence_is_stripped_witness :
  rejected fenced_prose_response fresh (parseGeminiResponse fenced_prose_response fresh)
  /\ parseGeminiResponse fenced_response fresh
     = (Ret (Plan [Str (lit "bazel build //rs/registry/canister")]
               (Str (lit "bazel-bin/rs/registry/canister/registry-canister.wasm"))), fresh).
Proof.
  split.
  - apply (proj1 parseGeminiResponse_fence_is_stripped fenced_prose_response fresh).
    intros parsed l Hp. vm_compute in Hp. discriminate.
  - destruct (JSON_parse (unfence fenced_response)) as [parsed|] eqn:Hp;
      [|vm_compute in Hp; discriminate].
    rewrite (proj1 (proj2 parseGeminiResponse_fence_is_stripped) fenced_response fresh parsed
               [Str (lit "bazel build //rs/registry/canister")] Hp);
      vm_compute in Hp; injection Hp as <-; reflexivity.
Defined.

(* ================================================================= *)
(** ** No commit reference: the run ends before the inference *)

Module StoreFacts.

Lemma text_eqb_refl (a : text) : text_eqb a a = true.
Proof. now apply text_eqb_eq. Qed.

Lemma lookup_store path doc fs : lookup path (Node.store path doc fs) = Some doc.
Proof.
  induction fs as [|[p d] fs IH]; simpl.
  - now rewrite text_eqb_refl.
  - destruct (text_eqb p path) eqn:E; simpl; rewrite E; auto.
Qed.

Lemma lookup_store_other path path' doc fs :
  text_eqb path path' = false ->
  lookup path' (Node.store path doc fs) = lookup path' fs.
Proof.
  intros Hne. induction fs as [|[p d] fs IH]; simpl.
  - now rewrite Hne.
  - destruct (text_eqb p path) eqn:E; simpl.
    + apply text_eqb_eq in E. subst p. now rewrite Hne.
    + destruct (text_eqb p path'); auto.
Qed.

End StoreFacts.

Import StoreFacts.


Lemma fetch_without_commit argv2 get_proposal_info w c id info p :
  argv2 = Some (c :: id) ->
  get_proposal_info (c :: id) = Ret (Some info) ->
  proposal info = Some p ->
  extractCommitHash (combinedText p) = None ->
  exists events,
    FetchProposal.script argv2 get_proposal_info w
    = (0%Z, World (Node.store (lit "proposal.json") (proposal_document (c :: id) p) (files w))
              (trace w ++ events))
    /\ existsb is_request events = false.
Proof.
  intros Hargv Hinfo Hp Hc.
  unfold FetchProposal.script, run_main, FetchProposal.main. rewrite Hargv.
  unfold Node.bind, console_log, console_warn, emit, lift, writeJSON, Node.when.
  rewrite Hinfo. cbn [trace files]. rewrite Hp.
  change (or_else (title p) (lit "Untitled") ++ nl ++ summary p ++ nl ++ url p)
    with (combinedText p).
  unfold proposal_document. rewrite Hc.
  destruct (extractWasmHash (combinedText p)) as [[|x h]|];
    cbn [nullable truthy negb trace files Node.ret];
    rewrite <- !app_assoc; cbn [app];
    (eexists; split; [reflexivity | reflexivity]).
Qed.

Lemma extract_without_commit KEY generateContent fs tr id p :
  lookup (lit "proposal.json") fs = Some (proposal_document id p) ->
  ExtractBuildSteps.script KEY generateContent (World fs tr)
  = (1%Z, World fs (tr ++ [no_commit_message])).
Proof.
  intros Hfs.
  unfold ExtractBuildSteps.script, run_main, ExtractBuildSteps.main.
  unfold Node.bind, try_catch, readJSON, lift. cbn [files trace].
  rewrite Hfs. reflexivity.
Qed.

(** Started in a workspace without a build plan, build.sh stops at its
    first check: it runs no command at all. *)
Lemma script_without_plan (disk : Type) (run : BuildSh.command -> disk -> Z * disk)
    (eval_step : text -> bool -> text -> list text -> disk -> BuildSh.reply disk)
    (is_dir is_file : disk -> text -> bool) (find_wasm : disk -> list text * Z)
    (inspect : jsval -> text) (s : BuildSh.shell disk) :
  lookup (lit "build-steps.json") (BuildSh.docs s) = None ->
  BuildSh.script run eval_step is_dir is_file find_wasm inspect s
  = (BuildSh.Halt 1,
     BuildSh.Shell (BuildSh.docs s) (BuildSh.machine s)
       (BuildSh.out s
        ++ [BuildSh.Echo (lit "=== ICP Build Verifier ===");
            BuildSh.Echo
              (lit "Error: build-steps.json not found. Run extract-build-steps.ts first.")])).
Proof.
  intros H. unfold BuildSh.script, BuildSh.prepare, BuildSh.bind, BuildSh.echo,
    BuildSh.test_doc, BuildSh.halt.
  cbn [BuildSh.docs BuildSh.machine BuildSh.out]. rewrite H. cbn.
  now rewrite <- app_assoc.
Qed.

(** C5: when the proposal has no 40-hex token anywhere in its text (the
    only place a commit reference is taken from), the run ends in the
    second stage, before the inference request: the exit code is 1, the
    last thing reported is that no commit hash was found, no request is
    sent to the inference service, no build plan is written, and the
    build stage is not started.  Were build.sh started all the same in
    the workspace the run leaves (one that held no build plan before),
    it would stop at its first check without running a command. *)
Theorem no_commit_ends_the_run :
  forall (argv2 : option text)
         (get_proposal_info : text -> outcome (option ProposalInfo))
         (GEMINI_API_KEY : option text)
         (generateContent : list arg -> outcome (option text))
         (disk : Type) (run : BuildSh.command -> disk -> Z * disk)
         (eval_step : text -> bool -> text -> list text -> disk -> BuildSh.reply disk)
         (is_dir is_file : disk -> text -> bool)
         (find_wasm : disk -> list text * Z) (inspect : jsval -> text)
         (w : world) (d : disk)
         (c : N) (id : text) (info : ProposalInfo) (p : Proposal),
    argv2 = Some (c :: id) ->
    get_proposal_info (c :: id) = Ret (Some info) ->
    proposal info = Some p ->
    (forall i, ~ token_at 40 (combinedText p) i) ->
    let report :=
      Pipeline.verify argv2 get_proposal_info GEMINI_API_KEY generateContent
        run eval_step is_dir is_file find_wasm inspect w d in
    Pipeline.started report = [Pipeline.Fetch; Pipeline.Infer]
    /\ Pipeline.exit_code report = 1%Z
    /\ Pipeline.shell report = None
    /\ (exists events,
          trace (Pipeline.node report) = trace w ++ events ++ [no_commit_message]
          /\ forall prompt, ~ In (GenerateContent prompt) events)
    /\ lookup (lit "build-steps.json") (files (Pipeline.node report))
       = lookup (lit "build-steps.json") (files w)
    /\ (lookup (lit "build-steps.json") (files w) = None ->
        BuildSh.script run eval_step is_dir is_file find_wasm inspect
          (BuildSh.Shell (files (Pipeline.node report)) d [])
        = (BuildSh.Halt 1,
           BuildSh.Shell (files (Pipeline.node report)) d
             [BuildSh.Echo (lit "=== ICP Build Verifier ===");
              BuildSh.Echo
                (lit "Error: build-steps.json not found. Run extract-build-steps.ts first.")])).
Proof.
  intros argv2 get_proposal_info KEY generateContent disk run eval_step is_dir is_file
    find_wasm inspect w d c id info p Hargv Hinfo Hp Hno report.
  pose proof (extractCommitHash_no_token _ Hno) as Hc.
  destruct (fetch_without_commit argv2 get_proposal_info w c id info p Hargv Hinfo Hp Hc)
    as (events & Hfetch & Hev).
  subst report. unfold Pipeline.verify. rewrite Hfetch. cbn [Z.eqb negb].
  rewrite (extract_without_commit KEY generateContent _ _ (c :: id) p)
    by apply lookup_store.
  cbn [Z.eqb negb Pipeline.started Pipeline.exit_code Pipeline.shell Pipeline.node
       trace files].
  assert (Hplan : lookup (lit "build-steps.json")
                    (Node.store (lit "proposal.json") (proposal_document (c :: id) p) (files w))
                  = lookup (lit "build-steps.json") (files w))
    by now rewrite lookup_store_other.
  split; [reflexivity|]. split; [reflexivity|]. split; [reflexivity|].
  split; [|split].
  - exists events. split; [now rewrite app_assoc|].
    intros prompt Hin.
    assert (Hex : existsb is_request events = true)
      by (apply existsb_exists; exists (GenerateContent prompt); split; [exact Hin | reflexivity]).
    congruence.
  - exact Hplan.
  - intros Hnone. rewrite script_without_plan by (cbn [BuildSh.docs]; congruence).
    reflexivity.
Qed.


Lemma no_commit_ends_the_run_witness :
  let report :=
    Pipeline.verify (Some (lit "131375")) (fun _ => Ret (Some motion_info))
      (Some (lit "key")) (fun _ => Ret (Some empty_steps_response))
      (fun (_ : BuildSh.command) (d : unit) => (0%Z, d))
      (fun _ errexit path _ d => BuildSh.Returns 0 d errexit path 0)
      (fun _ _ => false) (fun _ _ => false) (fun _ => ([], 0%Z)) (fun _ => [])
      fresh tt in
  Pipeline.started report = [Pipeline.Fetch; Pipeline.Infer]
  /\ Pipeline.exit_code report = 1%Z
  /\ Pipeline.shell report = None
  /\ (exists events,
        trace (Pipeline.node report) = trace fresh ++ events ++ [no_commit_message]
        /\ forall prompt, ~ In (GenerateContent prompt) events)
  /\ lookup (lit "build-steps.json") (files (Pipeline.node report))
     = lookup (lit "build-steps.json") (files fresh)
  /\ (lookup (lit "build-steps.json") (files fresh) = None ->
      BuildSh.script (fun (_ : BuildSh.command) (d : unit) => (0%Z, d))
        (fun _ errexit path _ d => BuildSh.Returns 0 d errexit path 0)
        (fun _ _ => false) (fun _ _ => false) (fun _ => ([], 0%Z)) (fun _ => [])
        (BuildSh.Shell (files (Pipeline.node report)) tt [])
      = (BuildSh.Halt 1,
         BuildSh.Shell (files (Pipeline.node report)) tt
           [BuildSh.Echo (lit "=== ICP Build Verifier ===");
            BuildSh.Echo
              (lit "Error: build-steps.json not found. Run extract-build-steps.ts first.")])).
Proof.
  apply (no_commit_ends_the_run (Some (lit "131375")) (fun _ => Ret (Some motion_info))
           (Some (lit "key")) (fun _ => Ret (Some empty_steps_response))
           unit (fun _ d => (0%Z, d))
           (fun _ errexit path _ d => BuildSh.Returns 0 d errexit path 0)
           (fun _ _ => false) (fun _ _ => false)
           (fun _ => ([], 0%Z)) (fun _ => []) fresh tt
           (cu "1") (lit "31375") motion_info
           {| title := Some (lit "Motion: adopt the new roadmap");
              summary := lit "No code change is proposed.";
              url := lit "https://forum.dfinity.org/t/roadmap" |}).
  - reflexivity.
  - reflexivity.
  - reflexivity.
  - apply no_token_check; vm_compute; reflexivity.
Defined.

(* ================================================================= *)
(** ** build.sh *)

Module BuildFacts.

Import BuildSh.

Section Script.

Variable disk : Type.
Variable run : command -> disk -> Z * disk.
Variable eval_step : text -> bool -> text -> list text -> disk -> reply disk.
Variables is_dir is_file : disk -> text -> bool.
Variable find_wasm : disk -> list text * Z.
Variable inspect : jsval -> text.

#[local] Abbreviation sh := (BuildSh.sh disk).
#[local] Abbreviation shell := (BuildSh.shell disk).
#[local] Abbreviation cmd := (BuildSh.cmd run).
#[local] Abbreviation cmd_at := (BuildSh.cmd_at run).
#[local] Abbreviation eval := (BuildSh.eval eval_step).
#[local] Abbreviation build_loop := (BuildSh.build_loop eval_step).
#[local] Abbreviation prepare := (BuildSh.prepare (disk := disk) inspect).
#[local] Abbreviation checkout := (BuildSh.checkout run is_dir).
#[local] Abbreviation build := (BuildSh.build eval_step inspect).
#[local] Abbreviation locate := (BuildSh.locate run is_file find_wasm).
#[local] Abbreviation finish := (BuildSh.finish run).
#[local] Abbreviation script :=
  (BuildSh.script run eval_step is_dir is_file find_wasm inspect).
#[local] Abbreviation adds := (BuildNotions.adds (disk := disk)).
#[local] Abbreviation safe := (BuildNotions.safe (disk := disk)).

(** *** What a computation adds to the trace *)


Lemma adds_ret {A} (a : A) P : adds (BuildSh.ret a) P.
Proof. intros s. split; [reflexivity|]. exists []. now rewrite app_nil_r. Qed.

Lemma adds_halt {A} n P : adds (@BuildSh.halt disk A n) P.
Proof. intros s. split; [reflexivity|]. exists []. now rewrite app_nil_r. Qed.

Lemma adds_bind {A B} (c : sh A) (f : A -> sh B) P :
  adds c P -> (forall a, adds (f a) P) -> adds (BuildSh.bind c f) P.
Proof.
  intros Hc Hf s. unfold BuildSh.bind.
  destruct (Hc s) as [Hd (new & Hn & HP)].
  destruct (c s) as [[a|n] s1]; cbn [snd] in *.
  - destruct (Hf a s1) as [Hd' (new' & Hn' & HP')].
    split; [congruence|]. exists (new ++ new').
    split; [rewrite Hn', Hn; now rewrite app_assoc | now apply Forall_app].
  - split; [assumption|]. now exists new.
Qed.

Lemma adds_echo line (P : sh_event -> Prop) : P (Echo line) -> adds (echo line) P.
Proof.
  intros HP s. split; [reflexivity|]. exists [Echo line]. split; [reflexivity|].
  now constructor.
Qed.

Lemma adds_cmd c (P : sh_event -> Prop) : (forall n, P (Ran c n)) -> adds (cmd c) P.
Proof.
  intros HP s. unfold BuildSh.cmd. destruct (run c (machine s)) as [st d].
  destruct (st =? 0)%Z; (split; [reflexivity|]); exists [Ran c st];
    (split; [reflexivity | now constructor]).
Qed.

Lemma adds_silent {A} (c : sh A) P :
  (forall s, snd (c s) = s) -> adds c P.
Proof.
  intros H s. rewrite H. split; [reflexivity|]. exists []. now rewrite app_nil_r.
Qed.

Lemma adds_test_doc path P : adds (@test_doc disk path) P.
Proof. now apply adds_silent. Qed.

Lemma adds_test_d path P : adds (test_d is_dir path) P.
Proof. now apply adds_silent. Qed.

Lemma adds_test_f path P : adds (test_f is_file path) P.
Proof. now apply adds_silent. Qed.

Lemma adds_node_field path key P : adds (@node_field disk inspect path key) P.
Proof.
  apply adds_silent. intros s. unfold node_field.
  destruct (lookup path (docs s)); [|reflexivity]. now destruct (prop _ _) as [?| |].
Qed.

Lemma adds_node_steps path P : adds (@node_steps disk inspect path) P.
Proof.
  apply adds_silent. intros s. unfold node_steps.
  destruct (lookup path (docs s)); [|reflexivity].
  destruct (prop _ _) as [[[]|]| |]; reflexivity.
Qed.

Lemma adds_find_head (P : sh_event -> Prop) :
  (forall l, P (Listed l)) -> adds (find_head find_wasm) P.
Proof.
  intros HP s. unfold find_head. destruct (find_wasm (machine s)) as [paths st].
  destruct (st =? 0)%Z; (split; [reflexivity|]); eexists; (split; [reflexivity|]);
    now constructor.
Qed.

Lemma adds_cmd_at errexit c (P : sh_event -> Prop) :
  (forall n, P (Ran c n)) -> adds (cmd_at errexit c) P.
Proof.
  intros HP. destruct errexit; cbn [BuildSh.cmd_at]; [now apply adds_cmd|].
  intros s. destruct (run c (machine s)) as [st d].
  split; [reflexivity|]. exists [Ran c st]. split; [reflexivity | now constructor].
Qed.

Lemma adds_find_head_at errexit (P : sh_event -> Prop) :
  (forall l, P (Listed l)) -> adds (find_head_at find_wasm errexit) P.
Proof.
  intros HP. destruct errexit; cbn [BuildSh.find_head_at]; [now apply adds_find_head|].
  intros s. split; [reflexivity|]. eexists. split; [reflexivity | now constructor].
Qed.

(** Whatever the steps do, the loop only adds to the trace. *)
Lemma adds_eval_any step errexit path input :
  adds (eval step errexit path input) (fun _ => True).
Proof.
  intros s. unfold BuildSh.eval.
  destruct (eval_step step errexit path input (machine s)) as [st d e' p' k|st d|st rest x d].
  - destruct (e' && negb (st =? 0)%Z); (split; [reflexivity|]); eexists;
      (split; [reflexivity | now constructor]).
  - split; [reflexivity|]. eexists. split; [reflexivity | now constructor].
  - split; [reflexivity|]. eexists. split; [reflexivity | now apply Forall_forall].
Qed.

Lemma adds_build_loop_any input : forall skip errexit path,
  adds (build_loop input skip errexit path) (fun _ => True).
Proof.
  induction input as [|step rest IH]; intros skip errexit path; cbn [BuildSh.build_loop].
  - apply adds_ret.
  - destruct skip; [|apply IH]. destruct step; [apply IH|].
    apply adds_bind; [now apply adds_echo | intros _].
    apply adds_bind; [now apply adds_echo | intros _].
    apply adds_bind; [apply adds_eval_any | intros after; apply IH].
Qed.

(** *** A failed command is the last thing the script does *)


Lemma clean_snoc l e :
  clean l -> match e with Ran _ n => n = 0%Z | _ => True end -> clean (l ++ [e]).
Proof.
  intros Hl He c n Hin. apply in_app_or in Hin as [Hin|[Heq|[]]]; [eauto|].
  subst e. exact He.
Qed.

Lemma safe_ret {A} (a : A) : safe (BuildSh.ret a).
Proof. intros s H. exact H. Qed.

Lemma safe_halt {A} n : safe (@BuildSh.halt disk A n).
Proof. intros s H. now left. Qed.

Lemma safe_bind {A B} (c : sh A) (f : A -> sh B) :
  safe c -> (forall a, safe (f a)) -> safe (BuildSh.bind c f).
Proof.
  intros Hc Hf s Hs. unfold BuildSh.bind. specialize (Hc s Hs).
  destruct (c s) as [[a|n] s1]; [now apply Hf | exact Hc].
Qed.

Lemma safe_echo line : safe (@echo disk line).
Proof. intros s H. cbn. now apply clean_snoc. Qed.

Lemma safe_cmd c : safe (cmd c).
Proof.
  intros s H. unfold BuildSh.cmd. destruct (run c (machine s)) as [st d].
  destruct (Z.eqb_spec st 0) as [->|Hne]; cbn [out].
  - now apply clean_snoc.
  - right. split; [exact Hne|]. now exists (out s), c.
Qed.

Lemma safe_silent {A} (c : sh A) : (forall s, snd (c s) = s) -> safe c.
Proof.
  intros H s Hs. specialize (H s). destruct (c s) as [[a|n] s']; cbn [snd] in H; subst s';
    [exact Hs | now left].
Qed.

Lemma safe_find_head : safe (find_head find_wasm).
Proof.
  intros s H. unfold find_head. destruct (find_wasm (machine s)) as [paths st].
  destruct (st =? 0)%Z; cbn [out]; [|left]; now apply clean_snoc.
Qed.

Lemma silent_node_field path key s : snd (@node_field disk inspect path key s) = s.
Proof.
  unfold node_field. destruct (lookup path (docs s)); [|reflexivity].
  now destruct (prop _ _) as [?| |].
Qed.

Lemma silent_node_steps path s : snd (@node_steps disk inspect path s) = s.
Proof.
  unfold node_steps. destruct (lookup path (docs s)); [|reflexivity].
  destruct (prop _ _) as [[[]|]| |]; reflexivity.
Qed.

Ltac safe_step :=
  first
    [ progress cbn [BuildSh.cmd_at BuildSh.find_head_at]
    | apply safe_bind; [|intros ?]
    | apply safe_echo | apply safe_cmd | apply safe_ret | apply safe_halt
    | apply safe_find_head
    | apply safe_silent; first [ apply silent_node_field | apply silent_node_steps
                               | intros ?; reflexivity ]
    | match goal with |- safe (if ?b then _ else _) => destruct b end
    | match goal with |- safe (match ?b with _ => _ end) => destruct b end ].

(** *** The events of each part of the script *)


Ltac adds_step :=
  first
    [ apply adds_bind; [|intros ?]
    | apply adds_echo; reflexivity
    | apply adds_cmd; intros ?; reflexivity
    | apply adds_ret | apply adds_halt
    | apply adds_test_doc | apply adds_test_d | apply adds_test_f
    | apply adds_node_field | apply adds_node_steps
    | apply adds_cmd_at; intros ?; reflexivity
    | apply adds_find_head; intros ?; reflexivity
    | apply adds_find_head_at; intros ?; reflexivity
    | match goal with |- adds (if ?b then _ else _) _ => destruct b end ].

Lemma adds_prepare : adds prepare (fun e => quiet e = true).
Proof. unfold BuildSh.prepare. repeat adds_step. Qed.

Lemma adds_checkout commit : adds (checkout commit) (fun e => quiet e = true).
Proof. unfold BuildSh.checkout. repeat adds_step. Qed.

Lemma adds_locate errexit path : adds (locate errexit path) (fun e => closing e = true).
Proof. unfold BuildSh.locate. repeat adds_step. Qed.

Lemma adds_finish errexit : adds (finish errexit) (fun e => closing e = true).
Proof. unfold BuildSh.finish. repeat adds_step. Qed.

Lemma evals_app a b : evals (a ++ b) = evals a ++ evals b.
Proof. apply flat_map_app. Qed.

Lemma evals_none (P : sh_event -> bool) new :
  (forall e, P e = true -> is_eval e = false) ->
  Forall (fun e => P e = true) new -> evals new = [].
Proof.
  intros HP H. induction H as [|e new He _ IH]; [reflexivity|].
  unfold evals in *. cbn [flat_map]. rewrite IH, app_nil_r.
  apply HP in He. destruct e as [| [] |]; try reflexivity; discriminate.
Qed.

Lemma quiet_no_eval e : quiet e = true -> is_eval e = false.
Proof. destruct e as [| [] |]; simpl; congruence. Qed.

Lemma closing_no_eval e : closing e = true -> is_eval e = false.
Proof. unfold closing. now destruct (is_eval e). Qed.

Lemma quiet_not_complete new :
  Forall (fun e => quiet e = true) new -> ~ In build_complete new.
Proof.
  intros H Hin. rewrite Forall_forall in H. apply H in Hin. discriminate.
Qed.

Lemma looping_not_complete new :
  Forall (fun e => looping e = true) new -> ~ In build_complete new.
Proof.
  intros H Hin. rewrite Forall_forall in H. apply H in Hin. discriminate.
Qed.

Lemma no_cp_in (P : sh_event -> bool) new :
  (forall e, P e = true -> is_cp e = false) ->
  Forall (fun e => P e = true) new -> existsb is_cp new = false.
Proof.
  intros HP H. induction H as [|e new He _ IH]; [reflexivity|].
  simpl. now rewrite (HP _ He), IH.
Qed.

Lemma quiet_no_cp e : quiet e = true -> is_cp e = false.
Proof. destruct e as [| [] |]; simpl; congruence. Qed.

Lemma looping_no_cp e : looping e = true -> is_cp e = false.
Proof. destruct e as [| [] |]; simpl; congruence. Qed.

(** *** Running the script step by step *)

Lemma bind_assoc {A B C} (c : sh A) (f : A -> sh B) (g : B -> sh C) s :
  BuildSh.bind (BuildSh.bind c f) g s = BuildSh.bind c (fun a => BuildSh.bind (f a) g) s.
Proof. unfold BuildSh.bind. now destruct (c s) as [[a|n] s1]. Qed.

Lemma bind_ret {A B} (a : A) (f : A -> sh B) s : BuildSh.bind (BuildSh.ret a) f s = f a s.
Proof. reflexivity. Qed.

Lemma bind_echo {B} line (f : unit -> sh B) (s : shell) :
  BuildSh.bind (echo line) f s = f tt (Shell (docs s) (machine s) (out s ++ [Echo line])).
Proof. reflexivity. Qed.

Lemma bind_cmd {B} c (f : unit -> sh B) (s : shell) :
  BuildSh.bind (cmd c) f s
  = if (fst (run c (machine s)) =? 0)%Z
    then f tt (Shell (docs s) (snd (run c (machine s)))
                 (out s ++ [Ran c (fst (run c (machine s)))]))
    else (Halt (fst (run c (machine s))),
          Shell (docs s) (snd (run c (machine s)))
            (out s ++ [Ran c (fst (run c (machine s)))])).
Proof.
  unfold BuildSh.bind, BuildSh.cmd. destruct (run c (machine s)) as [st d]. cbn [fst snd].
  now destruct (st =? 0)%Z.
Qed.

(** *** The script, part by part *)

Lemma script_unfold (s : shell) :
  script s
  = match prepare s with
    | (Next vars, s1) =>
        match checkout (fst vars) s1 with
        | (Next _, s2) =>
            match build (snd vars) s2 with
            | (Next after, s3) =>
                BuildSh.bind (locate (fst after) (snd after)) (fun _ => finish (fst after)) s3
            | (Halt n, s3) => (Halt n, s3)
            end
        | (Halt n, s2) => (Halt n, s2)
        end
    | (Halt n, s1) => (Halt n, s1)
    end.
Proof. reflexivity. Qed.

Lemma adds_closing errexit path :
  adds (BuildSh.bind (locate errexit path) (fun _ => finish errexit))
    (fun e => closing e = true).
Proof. apply adds_bind; [apply adds_locate | intros _; apply adds_finish]. Qed.

Lemma prepare_declared_path (s s1 : shell) vars :
  prepare s = (Next vars, s1) -> snd vars = declared_path inspect (docs s).
Proof.
  unfold BuildSh.prepare, declared_path. rewrite bind_echo.
  unfold BuildSh.bind, test_doc, node_field, echo, BuildSh.ret, BuildSh.halt.
  cbn beta iota delta [docs out machine].
  destruct (lookup (lit "build-steps.json") (docs s)) as [doc|] eqn:E1;
    cbn beta iota delta [negb docs out machine]; [|discriminate].
  destruct (lookup (lit "proposal.json") (docs s));
    cbn beta iota delta [negb docs out machine]; [|discriminate].
  rewrite E1.
  destruct doc; cbn beta iota delta [prop docs out machine]; try discriminate;
    rewrite E1; cbn beta iota delta [prop docs out machine];
    intros H; injection H as <- _; reflexivity.
Qed.

Lemma evals_clean l : clean l -> Forall (fun e => snd e = 0%Z) (evals l).
Proof.
  intros H. apply Forall_forall. intros [step st] Hin.
  unfold evals in Hin. apply in_flat_map in Hin as (e & He & Hin).
  destruct e as [| [] |]; cbn in Hin; try contradiction.
  destruct Hin as [Heq|[]]. injection Heq as -> ->. cbn. now apply (H _ _ He).
Qed.

(** Whatever the steps do, the build stage only adds to the trace. *)
Lemma adds_build_any path : adds (build path) (fun _ => True).
Proof.
  unfold BuildSh.build.
  apply adds_bind; [now apply adds_echo | intros _].
  apply adds_bind; [now apply adds_echo | intros _].
  apply adds_bind; [apply adds_node_steps | intros STEPS; apply adds_build_loop_any].
Qed.

(** *** The checkout, when it fails *)

(** The preparation runs no command. *)
Lemma prepare_runs_nothing :
  adds prepare (fun e => match e with Ran _ _ => False | _ => True end).
Proof.
  unfold BuildSh.prepare.
  repeat first
    [ apply adds_bind; [|intros ?]
    | apply adds_echo; exact I
    | apply adds_ret | apply adds_halt | apply adds_test_doc | apply adds_node_field
    | match goal with |- BuildNotions.adds (if ?b then _ else _) _ => destruct b end ].
Qed.

(** A checkout that fails has not checked out the commit. *)
Lemma checkout_halted commit (s1 s2 : shell) n :
  checkout commit s1 = (Halt n, s2) ->
  exists new, out s2 = out s1 ++ new /\ forall c, ~ In (Ran (GitCheckout c) 0) new.
Proof.
  unfold BuildSh.checkout, BuildSh.bind, BuildSh.echo, BuildSh.test_d, BuildSh.cmd, BuildSh.ret.
  cbn [docs machine out].
  repeat first
    [ match goal with |- context [is_dir ?d ?p] => destruct (is_dir d p) end
    | match goal with |- context [run ?c ?d] =>
        let st := fresh "st" in
        destruct (run c d) as [st ?]; destruct (Z.eqb_spec st 0); cbn [docs machine out]
      end ];
    intros H; try discriminate; injection H as <- <-; cbn [out]; rewrite <- ?app_assoc;
    (eexists; split; [reflexivity|]); intros c Hin; cbn [app In] in Hin;
    repeat match type of Hin with
           | _ \/ _ => destruct Hin as [Hin|Hin]
           end;
    try discriminate; try contradiction; injection Hin as _ Hst; congruence.
Qed.

(** The closing part starts by announcing the build complete. *)
Lemma locate_announces errexit path (s : shell) :
  exists more, out (snd (locate errexit path s)) = out s ++ Echo [] :: build_complete :: more.
Proof.
  unfold BuildSh.locate, BuildSh.bind, BuildSh.echo, BuildSh.cmd_at, BuildSh.cmd,
    BuildSh.test_f, BuildSh.find_head_at, BuildSh.find_head, BuildSh.halt.
  cbn [docs machine out].
  destruct errexit;
    repeat first
      [ match goal with |- context [run ?c ?d] =>
          let st := fresh "st" in
          destruct (run c d) as [st ?]; try destruct (st =? 0)%Z; cbn [docs machine out]
        end
      | match goal with |- context [is_file ?d ?p] =>
          destruct (is_file d p); cbn [docs machine out]
        end
      | match goal with |- context [find_wasm ?d] =>
          let st := fresh "st" in
          destruct (find_wasm d) as [? st]; try destruct (st =? 0)%Z;
          cbn [docs machine out fst]
        end ];
    cbn [snd out]; rewrite <- ?app_assoc; eexists; reflexivity.
Qed.

Lemma closing_announces errexit path (s : shell) :
  In build_complete
    (out (snd (BuildSh.bind (locate errexit path) (fun _ => finish errexit) s))).
Proof.
  destruct (locate_announces errexit path s) as [more Hm].
  unfold BuildSh.bind.
  destruct (locate errexit path s) as [[[]|n] s4]; cbn [snd] in *.
  - destruct (adds_finish errexit s4) as [_ (n5 & Ho5 & _)]. rewrite Ho5, Hm.
    apply in_or_app. left. apply in_or_app. right. right. now left.
  - rewrite Hm. apply in_or_app. right. right. now left.
Qed.

(** *** Steps that leave the shell alone *)

Section Plain.

Hypothesis all_plain :
  forall step errexit path input d,
    exists status d', eval_step step errexit path input d = Returns status d' errexit path 0.

(** Under [set -e] such a step is a simple command. *)
Lemma eval_plain step path input (s : shell) :
  exists status d,
    eval step true path input s
    = (if (status =? 0)%Z then Next (true, path, 0%nat) else Halt status,
       Shell (docs s) d (out s ++ [Ran (Eval step) status])).
Proof.
  unfold BuildSh.eval.
  destruct (all_plain step true path input (machine s)) as (status & d & ->).
  exists status, d. cbn [andb]. now destruct (status =? 0)%Z.
Qed.

Lemma adds_build_loop input (P : sh_event -> Prop) :
  P (Echo []) -> (forall step, P (Echo (lit ">>> Executing: " ++ step))) ->
  (forall step n, P (Ran (Eval step) n)) ->
  forall path, adds (build_loop input 0 true path) P.
Proof.
  intros He He' Hr. induction input as [|step rest IH]; intros path;
    cbn [BuildSh.build_loop].
  - apply adds_ret.
  - destruct step as [|x t]; [apply IH|].
    apply adds_bind; [now apply adds_echo | intros _].
    apply adds_bind; [now apply adds_echo | intros _].
    intros s. unfold BuildSh.bind.
    destruct (eval_plain (x :: t) path rest s) as (st & d & ->).
    destruct (st =? 0)%Z; cbn [fst snd].
    + destruct (IH path (Shell (docs s) d (out s ++ [Ran (Eval (x :: t)) st])))
        as [Hd (new & Hn & HP)].
      cbn [docs out] in *. split; [exact Hd|]. exists (Ran (Eval (x :: t)) st :: new).
      split; [rewrite Hn, <- app_assoc; reflexivity | constructor; auto].
    + split; [reflexivity|]. exists [Ran (Eval (x :: t)) st]. split; [reflexivity|].
      constructor; auto.
Qed.

Lemma safe_build_loop input : forall path, safe (build_loop input 0 true path).
Proof.
  induction input as [|step rest IH]; intros path; cbn [BuildSh.build_loop];
    [apply safe_ret|].
  destruct step as [|x t]; [apply IH|].
  apply safe_bind; [apply safe_echo | intros _].
  apply safe_bind; [apply safe_echo | intros _].
  intros s Hs. unfold BuildSh.bind.
  destruct (eval_plain (x :: t) path rest s) as (st & d & ->).
  destruct (Z.eqb_spec st 0) as [->|Hne]; cbn [fst snd].
  - apply IH. cbn [out]. now apply clean_snoc.
  - right. split; [exact Hne|]. now exists (out s), (Eval (x :: t)).
Qed.

Lemma safe_script : safe script.
Proof.
  intros s Hs. rewrite script_unfold.
  assert (H1 : safe prepare) by (unfold BuildSh.prepare; repeat safe_step).
  specialize (H1 s Hs). destruct (prepare s) as [[vars|n1] s1]; [|exact H1].
  assert (H2 : safe (checkout (fst vars))) by (unfold BuildSh.checkout; repeat safe_step).
  specialize (H2 s1 H1). destruct (checkout (fst vars) s1) as [[[]|n2] s2]; [|exact H2].
  assert (H3 : safe (build (snd vars)))
    by (unfold BuildSh.build; repeat first [apply safe_build_loop | safe_step]).
  specialize (H3 s2 H2).
  assert (Hafter : forall after s3,
            build (snd vars) s2 = (Next after, s3) -> fst after = true).
  { unfold BuildSh.build. rewrite !bind_echo. unfold BuildSh.bind at 1.
    destruct (node_steps _ _ _) as [[STEPS|n] s']; [|discriminate].
    generalize (lines STEPS) as input. intros input. revert s'.
    generalize (snd vars) as path.
    induction input as [|step rest IH]; intros path s' after s3; cbn [BuildSh.build_loop].
    - intros H; now injection H as <- _.
    - destruct step as [|x t]; [apply IH|].
      rewrite !bind_echo. unfold BuildSh.bind.
      match goal with |- context [eval ?a true ?b ?c ?d] =>
        destruct (eval_plain a b c d) as (st & d' & E) end.
      rewrite E. cbn [docs machine out].
      destruct (st =? 0)%Z; [apply IH | discriminate]. }
  destruct (build (snd vars) s2) as [[after|n3] s3] eqn:Hb; [|exact H3].
  rewrite (Hafter after s3 eq_refl).
  assert (H4 : safe (BuildSh.bind (locate true (snd after)) (fun _ => finish true)))
    by (unfold BuildSh.locate, BuildSh.finish; repeat safe_step).
  exact (H4 s3 H3).
Qed.

Lemma adds_build path : adds (build path) (fun e => looping e = true).
Proof.
  unfold BuildSh.build. repeat adds_step.
  apply adds_build_loop; intros; reflexivity.
Qed.

(** *** The build loop *)

Lemma build_loop_evals input : forall path (s : shell),
  match fst (build_loop input 0 true path s) with
  | Next after =>
      after = (true, path)
      /\ evals (out (snd (build_loop input 0 true path s)))
         = evals (out s) ++ map succeeded (filter nonempty input)
  | Halt code =>
      code <> 0%Z
      /\ exists done failed rest,
          filter nonempty input = done ++ failed :: rest
          /\ evals (out (snd (build_loop input 0 true path s)))
             = evals (out s) ++ map succeeded done ++ [(failed, code)]
  end.
Proof.
  induction input as [|step input IH]; intros path s.
  - cbn. now rewrite app_nil_r.
  - cbn [BuildSh.build_loop]. destruct step as [|x t].
    + cbn [filter nonempty]. apply IH.
    + cbn [filter nonempty]. rewrite !bind_echo. unfold BuildSh.bind.
      match goal with |- context [eval ?a true ?b ?c ?d] =>
        destruct (eval_plain a b c d) as (st & d' & E) end.
      rewrite E. cbn [docs machine out].
      destruct (Z.eqb_spec st 0) as [->|Hne]; cbn [fst snd].
      * set (s3 := Shell _ _ _). specialize (IH path s3).
        assert (He : evals (out s3) = evals (out s) ++ [succeeded (x :: t)])
          by (unfold s3; cbn [out]; rewrite !evals_app; cbn; now rewrite !app_nil_r).
        destruct (build_loop input 0 true path s3) as [[after|code] s4]; cbn [fst snd] in *.
        -- destruct IH as [Ha IH]. split; [exact Ha|].
           rewrite IH, He, <- app_assoc. reflexivity.
        -- destruct IH as (Hc & done & failed & rest & Hf & Hev). split; [exact Hc|].
           exists ((x :: t) :: done), failed, rest. split; [now rewrite Hf|].
           rewrite Hev, He, <- !app_assoc. reflexivity.
      * split; [exact Hne|].
        exists [], (x :: t), (filter nonempty input). split; [reflexivity|].
        cbn [out]. rewrite !evals_app. cbn. now rewrite !app_nil_r.
Qed.

(** The build stage of a plan: every command is run, in order, up to
    the first one that fails. *)
Lemma build_evals path (s : shell) doc steps :
  lookup (lit "build-steps.json") (docs s) = Some doc ->
  get doc (lit "steps") = Some (Arr steps) ->
  let cmds := plan_commands inspect (docs s) in
  match fst (build path s) with
  | Next after =>
      after = (true, path)
      /\ evals (out (snd (build path s))) = evals (out s) ++ map succeeded cmds
  | Halt code =>
      code <> 0%Z
      /\ exists done failed rest,
          cmds = done ++ failed :: rest
          /\ evals (out (snd (build path s)))
             = evals (out s) ++ map succeeded done ++ [(failed, code)]
  end.
Proof.
  intros Hdoc Hsteps cmds. subst cmds. unfold plan_commands. rewrite Hdoc, Hsteps.
  unfold BuildSh.build. rewrite !bind_echo. unfold BuildSh.bind, node_steps.
  cbn [docs out machine]. rewrite Hdoc.
  destruct doc as [| b | n | t | l | ms]; try discriminate.
  cbn [prop]. rewrite Hsteps. cbn beta iota.
  set (input := lines _). set (s2 := Shell _ _ _).
  pose proof (build_loop_evals input path s2) as H.
  assert (He : evals (out s2) = evals (out s))
    by (unfold s2; cbn [out]; rewrite !evals_app; cbn; now rewrite !app_nil_r).
  rewrite He in H. exact H.
Qed.

(** The build stage, whatever the plan: the steps run are the first
    commands of the plan, and all of them when the stage ends normally,
    with option [-e] and the variable as they were. *)
Lemma build_evals_any path (s : shell) :
  exists ran,
    evals (out (snd (build path s))) = evals (out s) ++ ran
    /\ (exists n, map fst ran = firstn n (plan_commands inspect (docs s)))
    /\ (forall after, fst (build path s) = Next after ->
        after = (true, path) /\ ran = map succeeded (plan_commands inspect (docs s))).
Proof.
  assert (Hhalt : forall n,
            build path s
            = (Halt n, Shell (docs s) (machine s)
                         ((out s ++ [Echo []]) ++ [Echo (lit "=== Running build steps ===")])) ->
            exists ran,
              evals (out (snd (build path s))) = evals (out s) ++ ran
              /\ (exists n, map fst ran = firstn n (plan_commands inspect (docs s)))
              /\ (forall after, fst (build path s) = Next after ->
                  after = (true, path)
                  /\ ran = map succeeded (plan_commands inspect (docs s)))).
  { intros n ->. exists []. cbn [fst snd out]. rewrite !evals_app. cbn. rewrite !app_nil_r.
    split; [reflexivity|]. split; [now exists 0%nat | discriminate]. }
  destruct (lookup (lit "build-steps.json") (docs s)) as [doc|] eqn:Hdoc.
  2:{ apply (Hhalt 1%Z). unfold BuildSh.build. rewrite !bind_echo.
      unfold BuildSh.bind, node_steps. cbn [docs out machine]. now rewrite Hdoc. }
  destruct (get doc (lit "steps")) as [[| b | n | t | steps | ms']|] eqn:Hsteps.
  5:{ pose proof (build_evals path s doc steps Hdoc Hsteps) as H. cbn zeta in H.
      destruct (fst (build path s)) as [after|code].
      - destruct H as [Ha H]. exists (map succeeded (plan_commands inspect (docs s))).
        split; [exact H|]. split.
        + exists (length (plan_commands inspect (docs s))).
          rewrite map_map. cbn [succeeded fst]. now rewrite map_id, firstn_all.
        + intros after' Heq. injection Heq as <-. now split.
      - destruct H as (Hc & done & failed & rest & Hf & Hev).
        exists (map succeeded done ++ [(failed, code)]). split; [exact Hev|].
        split; [|discriminate].
        exists (length (done ++ [failed])). rewrite Hf.
        rewrite map_app, map_map. cbn [succeeded fst map]. rewrite map_id.
        change (failed :: rest) with ([failed] ++ rest).
        now rewrite app_assoc, firstn_app, firstn_all, Nat.sub_diag, firstn_O, app_nil_r. }
  all: apply (Hhalt 1%Z); unfold BuildSh.build; rewrite !bind_echo;
    unfold BuildSh.bind, node_steps; cbn [docs out machine]; rewrite Hdoc;
    destruct doc as [| b0 | n0 | t0 | l0 | ms0]; try discriminate;
    cbn [prop]; rewrite ?Hsteps; reflexivity.
Qed.

(** *** The script as a whole *)

(** The steps run by the whole script. *)
Lemma script_evals (s : shell) :
  exists new ran,
    out (snd (script s)) = out s ++ new
    /\ evals new = ran
    /\ (exists n, map fst ran = firstn n (plan_commands inspect (docs s)))
    /\ (In build_complete new -> ran = map succeeded (plan_commands inspect (docs s))).
Proof.
  rewrite script_unfold.
  destruct (adds_prepare s) as [Hd1 (n1 & Ho1 & Hq1)].
  destruct (prepare s) as [[vars|c1] s1]; cbn [snd] in *.
  2:{ exists n1, []. split; [exact Ho1|]. split; [exact (evals_none _ _ quiet_no_eval Hq1)|].
      split; [now exists 0%nat|]. intros Hin. now apply quiet_not_complete in Hin. }
  destruct (adds_checkout (fst vars) s1) as [Hd2 (n2 & Ho2 & Hq2)].
  destruct (checkout (fst vars) s1) as [[[]|c2] s2]; cbn [snd] in *.
  2:{ exists (n1 ++ n2), []. split; [now rewrite Ho2, Ho1, app_assoc|].
      split; [now rewrite evals_app, (evals_none _ _ quiet_no_eval Hq1),
                (evals_none _ _ quiet_no_eval Hq2)|].
      split; [now exists 0%nat|]. intros Hin. apply in_app_or in Hin as [Hin|Hin];
        now apply quiet_not_complete in Hin. }
  destruct (adds_build (snd vars) s2) as [Hd3 (n3 & Ho3 & Hq3)].
  destruct (build_evals_any (snd vars) s2) as (ran & Hran & Hpre & Hall).
  rewrite Ho3, evals_app in Hran. apply app_inv_head in Hran.
  rewrite Hd2, Hd1 in Hpre, Hall.
  assert (He3 : evals (n1 ++ n2 ++ n3) = ran)
    by now rewrite !evals_app, (evals_none _ _ quiet_no_eval Hq1),
         (evals_none _ _ quiet_no_eval Hq2).
  destruct (build (snd vars) s2) as [[after|c3] s3]; cbn [fst snd] in *.
  2:{ exists (n1 ++ n2 ++ n3), ran. split; [now rewrite Ho3, Ho2, Ho1, <- !app_assoc|].
      split; [exact He3|]. split; [exact Hpre|]. intros Hin.
      apply in_app_or in Hin as [Hin|Hin]; [now apply quiet_not_complete in Hin|].
      apply in_app_or in Hin as [Hin|Hin]; [now apply quiet_not_complete in Hin|].
      now apply looping_not_complete in Hin. }
  destruct (adds_closing (fst after) (snd after) s3) as [_ (n4 & Ho4 & Hq4)].
  exists (n1 ++ n2 ++ n3 ++ n4), ran.
  split; [now rewrite Ho4, Ho3, Ho2, Ho1, <- !app_assoc|].
  split.
  - rewrite !app_assoc, evals_app, <- !app_assoc, He3.
    now rewrite (evals_none _ _ closing_no_eval Hq4), app_nil_r.
  - split; [exact Hpre|]. intros _. now apply (Hall after).
Qed.

(** A failed step ends the script, with its status. *)
Lemma script_failure (s : shell) pre step code post :
  clean (out s) ->
  out (snd (script s)) = pre ++ Ran (Eval step) code :: post -> code <> 0%Z ->
  post = [] /\ fst (script s) = Halt code /\ clean pre.
Proof.
  intros Hs Hout Hne. pose proof (safe_script s Hs) as H.
  assert (Hin : In (Ran (Eval step) code) (out (snd (script s))))
    by (rewrite Hout; apply in_or_app; right; now left).
  destruct (script s) as [[[]|n] s']; cbn [fst snd] in *.
  - now apply H in Hin.
  - destruct H as [H|(Hn & pre' & c & Hl & Hpre)]; [now apply H in Hin|].
    rewrite Hl in Hout.
    destruct post as [|e post] using rev_ind.
    + apply app_inj_tail in Hout as [-> Heq]. injection Heq as _ ->. auto.
    + clear IHpost. exfalso.
      change (pre ++ Ran (Eval step) code :: post ++ [e])
        with (pre ++ (Ran (Eval step) code :: post) ++ [e]) in Hout.
      rewrite app_assoc in Hout. apply app_inj_tail in Hout as [-> _].
      apply Hne, (Hpre (Eval step)). apply in_or_app. right. now left.
Qed.

(** Once the commit is checked out, the commands of the plan are run:
    all of them, and the build is announced complete, or those up to
    the first that fails, which ends the script. *)
Lemma script_progress (s : shell) doc steps c :
  out s = [] ->
  lookup (lit "build-steps.json") (docs s) = Some doc ->
  get doc (lit "steps") = Some (Arr steps) ->
  In (Ran (GitCheckout c) 0) (out (snd (script s))) ->
  let cmds := plan_commands inspect (docs s) in
  (evals (out (snd (script s))) = map succeeded cmds
   /\ In build_complete (out (snd (script s))))
  \/ exists done failed rest code,
       cmds = done ++ failed :: rest
       /\ code <> 0%Z
       /\ evals (out (snd (script s))) = map succeeded done ++ [(failed, code)]
       /\ fst (script s) = Halt code.
Proof.
  intros Hs Hdoc Hsteps. rewrite script_unfold.
  destruct (adds_prepare s) as [Hd1 (n1 & Ho1 & Hq1)].
  destruct (prepare_runs_nothing s) as [_ (n1' & Ho1' & Hr1)].
  rewrite Ho1 in Ho1'. apply app_inv_head in Ho1'. subst n1'.
  rewrite Hs in Ho1. cbn [app] in Ho1.
  assert (Hn1 : ~ In (Ran (GitCheckout c) 0) n1).
  { intros Hin. rewrite Forall_forall in Hr1. exact (Hr1 _ Hin). }
  destruct (prepare s) as [[vars|c1] s1]; cbn [snd] in *.
  { destruct (adds_checkout (fst vars) s1) as [Hd2 (n2 & Ho2 & Hq2)].
    pose proof (checkout_halted (fst vars) s1) as Hhalted.
    destruct (checkout (fst vars) s1) as [[[]|c2] s2]; cbn [snd] in *.
    - intros _. set (cmds := plan_commands inspect (docs s)).
      pose proof (build_evals (snd vars) s2 doc steps) as Hb.
      rewrite Hd2, Hd1 in Hb. specialize (Hb Hdoc Hsteps). cbn zeta in Hb. fold cmds in Hb.
      assert (He2 : evals (out s2) = [])
        by (rewrite Ho2, Ho1, evals_app, (evals_none _ _ quiet_no_eval Hq1),
              (evals_none _ _ quiet_no_eval Hq2); reflexivity).
      rewrite He2 in Hb. cbn [app] in Hb.
      destruct (build (snd vars) s2) as [[after|c3] s3]; cbn [fst snd] in *.
      + left. destruct Hb as [_ Hb].
        destruct (adds_closing (fst after) (snd after) s3) as [_ (n4 & Ho4 & Hq4)].
        split.
        * rewrite Ho4, evals_app, Hb, (evals_none _ _ closing_no_eval Hq4).
          apply app_nil_r.
        * apply closing_announces.
      + right. destruct Hb as (Hc & done & failed & rest & Hf & Hev).
        exists done, failed, rest, c3. auto.
    - destruct (Hhalted s2 c2 eq_refl) as (n2' & Ho2' & Hno).
      rewrite Ho2 in Ho2'. apply app_inv_head in Ho2'. subst n2'.
      intros Hin. exfalso. rewrite Ho2, Ho1 in Hin.
      apply in_app_or in Hin as [Hin|Hin]; [exact (Hn1 Hin) | exact (Hno c Hin)]. }
  intros Hin. exfalso. rewrite Ho1 in Hin. exact (Hn1 Hin).
Qed.

End Plain.

(** *** The commands of a plan of plain strings *)

Lemma lines_from_line cur line rest :
  forallb not_newline line = true ->
  lines_from cur (line ++ nl ++ rest) = (rev cur ++ line) :: lines_from [] rest.
Proof.
  revert cur; induction line as [|c line IH]; intros cur H; simpl in *.
  - now rewrite app_nil_r.
  - apply andb_true_iff in H as [Hc H]. unfold not_newline in Hc.
    apply negb_true_iff in Hc. rewrite Hc, IH by assumption.
    simpl. now rewrite <- app_assoc.
Qed.

Lemma lines_from_end cur line :
  forallb not_newline line = true -> lines_from cur line = [rev cur ++ line].
Proof.
  revert cur; induction line as [|c line IH]; intros cur H; simpl in *.
  - now rewrite app_nil_r.
  - apply andb_true_iff in H as [Hc H]. unfold not_newline in Hc.
    apply negb_true_iff in Hc. rewrite Hc, IH by assumption.
    simpl. now rewrite <- app_assoc.
Qed.

Lemma chomp_newline t : chomp (t ++ nl) = chomp t.
Proof. unfold chomp, nl. rewrite rev_app_distr. reflexivity. Qed.

Lemma chomp_line t line :
  nonempty line = true -> forallb not_newline line = true ->
  chomp (t ++ line) = t ++ line.
Proof.
  intros Hn Hl. unfold chomp. rewrite rev_app_distr.
  destruct line as [|c line] using rev_ind; [discriminate|]. clear IHline.
  rewrite rev_app_distr. simpl.
  rewrite forallb_app in Hl. apply andb_true_iff in Hl as [_ Hc].
  simpl in Hc. rewrite andb_true_r in Hc. unfold not_newline in Hc.
  apply negb_true_iff in Hc. rewrite Hc.
  simpl. now rewrite rev_app_distr, !rev_involutive, <- app_assoc.
Qed.

(** The lines of [s1\ns2\n...\nsn] are [s1], ..., [sn]. *)
Lemma lines_joined cur (s : text) (ss : list text) :
  Forall (fun s => nonempty s = true /\ forallb not_newline s = true) (s :: ss) ->
  exists body,
    chomp (concat (map (fun x : text => x ++ nl) (s :: ss))) = body
    /\ lines_from cur body = (rev cur ++ s) :: ss.
Proof.
  revert cur s. induction ss as [|s' ss IH]; intros cur s H.
  - inversion H as [|? ? [Hn Hl] _]; subst. eexists. split; [reflexivity|].
    change (concat (map (fun s0 => s0 ++ nl) [s])) with ((s ++ nl) ++ []).
    rewrite app_nil_r, chomp_newline.
    change (chomp s) with (chomp ([] ++ s)).
    rewrite (chomp_line [] s Hn Hl). now apply lines_from_end.
  - inversion H as [|? ? [Hn Hl] H']; subst.
    destruct (IH [] s' H') as (body & Hb & Hlines).
    eexists. split; [reflexivity|].
    assert (Hc : chomp (concat (map (fun x : text => x ++ nl) (s :: s' :: ss))) = s ++ nl ++ body).
    { clear - Hb H'. subst body.
      change (concat (map (fun s => s ++ nl) (s :: s' :: ss)))
        with ((s ++ nl) ++ concat (map (fun s => s ++ nl) (s' :: ss))).
      set (rest := s' :: ss) in *.
      assert (Hr : rest <> []) by (subst rest; discriminate).
      clearbody rest. clear s' ss.
      induction rest as [|r rest IHr] using rev_ind; [congruence|]. clear IHr.
      apply Forall_app in H' as [_ Hr']. inversion Hr' as [|? ? [Hn Hl] _]; subst.
      rewrite !map_app, !concat_app.
      change (concat (map (fun s0 => s0 ++ nl) [r])) with ((r ++ nl) ++ []).
      rewrite app_nil_r, !app_assoc, !chomp_newline.
      rewrite !(chomp_line _ r Hn Hl).
      now rewrite <- !app_assoc. }
    rewrite Hc, (lines_from_line cur s body Hl), Hlines. reflexivity.
Qed.

(** When the steps of the plan are non-empty strings without line
    breaks, the commands the script reads are those strings. *)
Lemma plan_commands_strings (docs : list (text * value)) (doc : value) (ss : list text) :
  lookup (lit "build-steps.json") docs = Some doc ->
  get doc (lit "steps") = Some (Arr (map Str ss)) ->
  Forall (fun s => nonempty s = true /\ forallb not_newline s = true) ss ->
  plan_commands inspect docs = ss.
Proof.
  intros Hdoc Hsteps Hss. unfold plan_commands. rewrite Hdoc, Hsteps.
  rewrite map_map. cbn [console_text].
  destruct ss as [|s ss]; [reflexivity|].
  destruct (lines_joined [] s ss Hss) as (body & Hb & Hl).
  rewrite Hb. unfold lines. rewrite Hl. simpl rev. simpl app.
  assert (Hf : forall l : list text,
             Forall (fun s => nonempty s = true /\ forallb not_newline s = true) l ->
             filter nonempty l = l).
  { clear. intros l H. induction H as [|x l [Hn _] _ IH]; [reflexivity|].
    simpl. rewrite Hn. f_equal. exact IH. }
  exact (Hf _ Hss).
Qed.

End Script.

(** *** A plan of steps that leave the shell alone

    When every command of the plan is a plain step, the script runs as
    it does on the machine whose steps have no effect on the shell. *)

Section PlainPlan.

Variable disk : Type.
Variable run : command -> disk -> Z * disk.
Variable eval_step : text -> bool -> text -> list text -> disk -> reply disk.
Variables is_dir is_file : disk -> text -> bool.
Variable find_wasm : disk -> list text * Z.
Variable inspect : jsval -> text.

Lemma calm_plain step errexit path input d :
  exists status d', calm eval_step step errexit path input d = Returns status d' errexit path 0.
Proof. unfold calm. destruct (eval_step step errexit path input d); eauto. Qed.

Lemma calm_agrees step errexit path input d :
  plain eval_step step ->
  calm eval_step step errexit path input d = eval_step step errexit path input d.
Proof.
  intros H. unfold calm. now destruct (H errexit path input d) as (status & d' & ->).
Qed.

Lemma build_loop_calm input :
  plain_plan eval_step (filter nonempty input) ->
  forall errexit path (s : BuildSh.shell disk),
    BuildSh.build_loop eval_step input 0 errexit path s
    = BuildSh.build_loop (calm eval_step) input 0 errexit path s.
Proof.
  induction input as [|step rest IH]; intros Hp errexit path s; [reflexivity|].
  cbn [BuildSh.build_loop]. destruct step as [|x t].
  - apply IH. exact Hp.
  - cbn [filter nonempty] in Hp. rewrite !bind_echo. unfold BuildSh.bind, BuildSh.eval.
    cbn [machine docs out].
    rewrite (calm_agrees (x :: t) errexit path rest (machine s)) by (apply Hp; now left).
    destruct (Hp (x :: t) (or_introl eq_refl) errexit path rest (machine s))
      as (status & d' & ->).
    destruct (errexit && negb (status =? 0)%Z); [reflexivity|]. cbn [fst snd].
    apply IH. intros step Hin. apply Hp. now right.
Qed.

Lemma build_calm path (s : BuildSh.shell disk) :
  plain_plan eval_step (plan_commands inspect (docs s)) ->
  BuildSh.build eval_step inspect path s = BuildSh.build (calm eval_step) inspect path s.
Proof.
  unfold plan_commands, BuildSh.build. rewrite !bind_echo.
  unfold BuildSh.bind, node_steps. cbn [docs machine out].
  destruct (lookup (lit "build-steps.json") (docs s)) as [doc|]; [|reflexivity].
  destruct doc as [| b | n | t | l | ms]; cbn [prop get]; try reflexivity.
  destruct (lookup (lit "steps") ms) as [[| b | n | t | steps | ms']|]; try reflexivity.
  intros Hp. now apply build_loop_calm.
Qed.

Lemma script_calm (s : BuildSh.shell disk) :
  plain_plan eval_step (plan_commands inspect (docs s)) ->
  BuildSh.script run eval_step is_dir is_file find_wasm inspect s
  = BuildSh.script run (calm eval_step) is_dir is_file find_wasm inspect s.
Proof.
  intros Hp. rewrite !script_unfold.
  destruct (adds_prepare disk inspect s) as [Hd1 _].
  destruct (BuildSh.prepare inspect s) as [[vars|c1] s1]; [|reflexivity]. cbn [snd] in Hd1.
  destruct (adds_checkout disk run is_dir (fst vars) s1) as [Hd2 _].
  destruct (BuildSh.checkout run is_dir (fst vars) s1) as [[[]|c2] s2]; [|reflexivity].
  cbn [snd] in Hd2.
  rewrite build_calm by (now rewrite Hd2, Hd1). reflexivity.
Qed.

End PlainPlan.


End BuildFacts.

Import BuildFacts.

(** The steps of the sample machines are plain steps. *)
Lemma toy_steps_plain (cmds : list text) : plain_plan toy_steps cmds.
Proof.
  intros step _ errexit path input d. unfold toy_steps.
  destruct (text_eqb step bazel_build); eexists; eexists; reflexivity.
Qed.


(** Nor is every command of a plan run: a step that reads its standard
    input takes the lines of the plan that are left.  After
    [cat > /dev/null] the second command is never run, and the build is
    announced complete. *)
Example swallowed_step_is_not_run :
  let result :=
    BuildSh.script toy_run sh_steps (fun _ _ => false) toy_is_file toy_find (fun _ => [])
      (toy_shell swallowing_plan) in
  plan_commands (fun _ => []) (BuildSh.docs (toy_shell swallowing_plan))
  = [lit "cat > /dev/null"; lit "touch ran-second"]
  /\ evals (BuildSh.out (snd result)) = [(lit "cat > /dev/null", 0%Z)]
  /\ existsb (fun e => match e with
                       | BuildSh.Echo l => text_eqb l (lit "=== Build complete ===")
                       | _ => false
                       end) (BuildSh.out (snd result)) = true.
Proof. vm_compute. repeat split; reflexivity. Qed.



(** On that machine the second of three steps fails: two steps are run,
    the third is not, and the script ends with status 2. *)
Example build_stops_at_second_step :
  let result :=
    BuildSh.script toy_run toy_steps (fun _ _ => false) toy_is_file toy_find (fun _ => [])
      (toy_shell [bazel_build; lit "./ci/missing.sh"; lit "sha256sum out.wasm"]) in
  evals (BuildSh.out (snd result)) = [(bazel_build, 0%Z); (lit "./ci/missing.sh", 2%Z)]
  /\ fst result = BuildSh.Halt 2.
Proof. vm_compute. split; reflexivity. Qed.


(** When the output directory cannot be made, the script ends there:
    nothing is searched for. *)
Example no_search_without_output_directory :
  let result :=
    BuildSh.script readonly_run toy_steps (fun _ _ => false) toy_is_file toy_find
      (fun _ => []) (toy_shell [bazel_build]) in
  fst result = BuildSh.Halt 1
  /\ forallb (fun e => match e with BuildSh.Listed _ => false | _ => true end)
       (BuildSh.out (snd result)) = true.
Proof. vm_compute. split; reflexivity. Qed.




(* ================================================================= *)
(** ** The commentary poster *)

Module PostFacts.

Import PostCommentary.


(** What [extractJsonFromText] returns is an object. *)
Lemma extractJsonFromText_object t : is_object (extractJsonFromText t).
Proof.
  unfold extractJsonFromText.
  destruct (exec false jsonObjectRegex t) as [mt|]; [|exact I].
  destruct (JSON_parse (matched mt)) as [parsed|]; [|exact I].
  destruct parsed; cbn; try exact I.
  destruct (both _ _); exact I.
Qed.

Lemma scan_content_object items acc c :
  is_object acc -> scan_content items acc = Ret c -> is_object c.
Proof.
  revert acc; induction items as [|item items IH]; intros acc Hacc; cbn [scan_content].
  - intros H; injection H as <-. exact Hacc.
  - destruct (prop item (lit "type")) as [ty| |]; try discriminate.
    destruct (is_str ty (lit "text") && truthy (get item (lit "text"))); [|now apply IH].
    destruct (get item (lit "text")) as [[| | | t | |]|]; try discriminate.
    pose proof (extractJsonFromText_object t) as Ht.
    destruct (extractJsonFromText t) as [found|]; apply IH; assumption.
Qed.

Lemma scan_turns_object ts st st' :
  is_object (commentary st) -> scan_turns ts st = Ret st' -> is_object (commentary st').
Proof.
  revert st; induction ts as [|turn ts IH]; intros st Hst; cbn [scan_turns].
  - intros H; injection H as <-. exact Hst.
  - destruct (prop turn (lit "type")) as [ty| |]; try discriminate.
    set (st1 := if is_str ty (lit "result") then _ else st).
    assert (H1 : is_object (commentary st1))
      by (unfold st1; destruct (is_str ty (lit "result")); exact Hst).
    clearbody st1.
    destruct (is_str ty (lit "assistant") && truthy (message_content turn)); [|now apply IH].
    destruct (message_content turn) as [content|]; [|now apply IH].
    destruct (iterate content) as [items| |]; try discriminate.
    destruct (scan_content items (commentary st1)) as [c| |] eqn:E; try discriminate.
    apply IH. cbn [commentary]. exact (scan_content_object _ _ _ H1 E).
Qed.

Lemma parseClaudeOutput_object readFileSync path st :
  parseClaudeOutput readFileSync path = Ret st -> is_object (commentary st).
Proof.
  unfold parseClaudeOutput.
  destruct (readFileSync path) as [raw| |]; try discriminate.
  destruct (JSON_parse raw) as [turns|]; try discriminate.
  destruct (iterate turns) as [ts| |]; try discriminate.
  apply scan_turns_object. exact I.
Qed.

Lemma lookup_set key v ms : lookup key (JSON.set key v ms) = Some v.
Proof.
  induction ms as [|[k w] ms IH]; cbn [JSON.set lookup].
  - now rewrite text_eqb_refl.
  - destruct (text_eqb k key) eqn:E; cbn [lookup]; rewrite E; auto.
Qed.

Lemma set_same key v ms : lookup key ms = Some v -> JSON.set key v ms = ms.
Proof.
  induction ms as [|[k w] ms IH]; cbn [JSON.set lookup]; [discriminate|].
  destruct (text_eqb k key); [intros H; now injection H as -> | intros H; now rewrite IH].
Qed.

Lemma is_str_true v s : is_str v s = true -> v = Some (Str s).
Proof.
  destruct v as [[| | | t | |]|]; cbn; try discriminate.
  intros H. apply text_eqb_eq in H. now subst.
Qed.

End PostFacts.

Import PostFacts.

Module NodeFacts.


Lemma pn_ret {A} (a : A) : posts_nothing (Node.ret a).
Proof. intros w. exists []. now rewrite app_nil_r. Qed.

Lemma pn_throw {A} e : posts_nothing (@throw A e).
Proof. intros w. exists []. now rewrite app_nil_r. Qed.

Lemma pn_exit {A} n : posts_nothing (@exit A n).
Proof. intros w. exists []. now rewrite app_nil_r. Qed.

Lemma pn_lift {A} (o : outcome A) : posts_nothing (lift o).
Proof. intros w. exists []. now rewrite app_nil_r. Qed.

Lemma pn_console to args : posts_nothing (emit (Console to args)).
Proof. intros w. now exists [Console to args]. Qed.

Lemma pn_bind {A B} (c : M A) (f : A -> M B) :
  posts_nothing c -> (forall a, posts_nothing (f a)) -> posts_nothing (Node.bind c f).
Proof.
  intros Hc Hf w. unfold Node.bind. destruct (Hc w) as (n1 & H1 & P1).
  destruct (c w) as [[a|e|n] w1]; cbn [snd] in *; try (now exists n1).
  destruct (Hf a w1) as (n2 & H2 & P2). exists (n1 ++ n2).
  split; [now rewrite H2, H1, app_assoc | now rewrite existsb_app, P1, P2].
Qed.

Lemma pn_try_catch {A} (c : M A) (h : js_error -> M A) :
  posts_nothing c -> (forall e, posts_nothing (h e)) -> posts_nothing (try_catch c h).
Proof.
  intros Hc Hh w. unfold try_catch. destruct (Hc w) as (n1 & H1 & P1).
  destruct (c w) as [[a|e|n] w1]; cbn [snd] in *; try (now exists n1).
  destruct (Hh e w1) as (n2 & H2 & P2). exists (n1 ++ n2).
  split; [now rewrite H2, H1, app_assoc | now rewrite existsb_app, P1, P2].
Qed.

Lemma pn_template v : posts_nothing (template v).
Proof.
  unfold template. destruct v as [x|]; [destruct (unprintable x)|];
    [apply pn_throw | apply pn_ret | apply pn_ret].
Qed.

Lemma template_printable v : printable v = true -> template v = Node.ret (AVal v).
Proof.
  unfold printable, template. destruct v as [x|]; [|reflexivity].
  now destruct (unprintable x).
Qed.

Lemma template_not_printable v : printable v = false -> template v = throw TypeError.
Proof.
  unfold printable, template. destruct v as [x|]; [|discriminate].
  now destruct (unprintable x).
Qed.

Lemma template_unprintable x : unprintable x = true -> template (Some x) = throw TypeError.
Proof. unfold template. now intros ->. Qed.

Ltac pn_step :=
  first
    [ apply pn_bind; [|intros ?]
    | apply pn_try_catch; [|intros ?]
    | apply pn_console | apply pn_ret | apply pn_throw | apply pn_exit | apply pn_lift
    | apply pn_template
    | match goal with |- posts_nothing (if ?b then _ else _) => destruct b end
    | match goal with |- posts_nothing (match ?b with _ => _ end) => destruct b end ].

Lemma try_bind_emit {A} e (f : unit -> M A) h w :
  try_catch (Node.bind (emit e) f) h w
  = try_catch (f tt) h (World (files w) (trace w ++ [e])).
Proof. reflexivity. Qed.

Lemma try_bind_lift {A B} (a : A) (f : A -> M B) h w :
  try_catch (Node.bind (lift (Ret a)) f) h w = try_catch (f a) h w.
Proof. reflexivity. Qed.

Lemma try_bind_ret {A B} (a : A) (f : A -> M B) h w :
  try_catch (Node.bind (Node.ret a) f) h w = try_catch (f a) h w.
Proof. reflexivity. Qed.

Lemma try_bind_assoc {A B C} (c : M A) (f : A -> M B) (g : B -> M C) h w :
  try_catch (Node.bind (Node.bind c f) g) h w
  = try_catch (Node.bind c (fun a => Node.bind (f a) g)) h w.
Proof. unfold try_catch, Node.bind. now destruct (c w) as [[a|e|n] w1]. Qed.

End NodeFacts.

Import NodeFacts.


(** The claim of C10 as it is written fails: a commentary whose
    [proposal_id] is an object with a member named [toString] differs
    from the identifier of the command line, and the warning about the
    difference throws while it is put together; the error is caught,
    nothing is posted and the script leaves with status 1. *)
Lemma unprintable_id_is_not_overwritten :
  let run :=
    PostCommentary.postCommentary None (Some (lit "131375")) (Some (lit "https://portal.example"))
      (Some (lit "s3cret")) (fun _ => Ret odd_output) toy_fetch fresh in
  (exists st c,
      PostCommentary.parseClaudeOutput (fun _ => Ret odd_output) default_output = Ret st
      /\ PostCommentary.commentary st = Some c
      /\ get c (lit "proposal_id") = Some (Obj [(lit "toString", Null)])
      /\ get c (lit "proposal_id") <> Some (Str (lit "131375")))
  /\ fst run = Exit 1
  /\ existsb is_post (trace (snd run)) = false
  /\ ~ In overwrite_notice (trace (snd run)).
Proof.
  split.
  - eexists. eexists. split; [vm_compute; reflexivity|].
    split; [reflexivity|]. split; [reflexivity | discriminate].
  - split; [vm_compute; reflexivity|]. split; [vm_compute; reflexivity|].
    vm_compute. intuition discriminate.
Qed.

(** C10, amended: when a commentary was extracted whose [proposal_id]
    can be written into a template (a string, as the schema declares
    it, or any other value that converts to a string),
    [postCommentary] sends exactly one request to the portal, under the
    proposal identifier of the command line, and the commentary in the
    posted payload carries that identifier as its [proposal_id],
    whatever the document said.  A differing identifier is only warned
    about and overwritten; it does not make the script fail: when the
    portal accepts the request and its reply and the statistics can be
    printed, the script ends normally. *)
Theorem mismatched_id_is_overwritten :
  forall (argv2 : option text) (c0 : N) (id : text) (u0 : N) (rl : text) (k0 : N) (ey : text)
         (readFileSync : text -> outcome text)
         (fetch : text -> text -> value -> outcome PostCommentary.response)
         (w : world) (st : PostCommentary.stats) (c : value),
    let proposalId := c0 :: id in
    let portalUrl := u0 :: rl in
    let secret := k0 :: ey in
    let run :=
      PostCommentary.postCommentary argv2 (Some proposalId) (Some portalUrl) (Some secret)
        readFileSync fetch w in
    PostCommentary.parseClaudeOutput readFileSync (or_else argv2 default_output) = Ret st ->
    PostCommentary.commentary st = Some c ->
    printable (get c (lit "proposal_id")) = true ->
    exists members before after,
      c = Obj members
      /\ trace (snd run)
         = trace w ++ before
           ++ [HttpPost (commentary_url portalUrl proposalId) (lit "Bearer " ++ secret)
                 (payload_for st members proposalId)]
           ++ after
      /\ existsb is_post before = false
      /\ existsb is_post after = false
      /\ lookup (lit "proposal_id") (JSON.set (lit "proposal_id") (Str proposalId) members)
         = Some (Str proposalId)
      /\ (get c (lit "proposal_id") <> Some (Str proposalId) -> In overwrite_notice before)
      /\ (forall response result n,
            fetch (commentary_url portalUrl proposalId) (lit "Bearer " ++ secret)
              (payload_for st members proposalId) = Ret response ->
            PostCommentary.ok response = true ->
            PostCommentary.body_json response = Ret result ->
            result <> Null ->
            printable (get result (lit "commentary_id")) = true ->
            printable (get result (lit "created_at")) = true ->
            PostCommentary.cost st = Num n ->
            printable (Some (PostCommentary.duration st)) = true ->
            printable (Some (PostCommentary.turns st)) = true ->
            fst run = Ret tt).
Proof.
  intros argv2 c0 id u0 rl k0 ey readFileSync fetch w st c proposalId portalUrl secret run
    Hparse Hc Hid.
  pose proof (parseClaudeOutput_object _ _ _ Hparse) as Hobj. rewrite Hc in Hobj.
  destruct c as [| | | | |members]; try contradiction. clear Hobj.
  exists members. unfold commentary_url, payload_for. cbn [get] in *.
  assert (Hset : lookup (lit "proposal_id")
                   (JSON.set (lit "proposal_id") (Str proposalId) members)
                 = Some (Str proposalId)) by apply lookup_set.
  assert (Hsuccess :
    forall (T : M unit) h w2 response result n,
      T = (result <- lift (PostCommentary.body_json response) ;;
           console_log [AText (10003%N :: lit " Commentary posted successfully")] ;;
           commentary_id <- lift (prop result (lit "commentary_id")) ;;
           shown_id <- template commentary_id ;;
           console_log [AText (lit "  Commentary ID: "); shown_id] ;;
           created_at <- lift (prop result (lit "created_at")) ;;
           shown_at <- template created_at ;;
           console_log [AText (lit "  Created at: "); shown_at] ;;
           match PostCommentary.cost st with
           | Num _ => console_log [AText (lit "  Cost: $"); AVal (Some (PostCommentary.cost st))]
           | _ => throw TypeError
           end ;;
           seconds <- template (Some (PostCommentary.duration st)) ;;
           console_log [AText (lit "  Duration: "); seconds; AText (lit "s")] ;;
           shown_turns <- template (Some (PostCommentary.turns st)) ;;
           console_log [AText (lit "  Turns: "); shown_turns]) ->
      PostCommentary.body_json response = Ret result ->
      result <> Null ->
      printable (get result (lit "commentary_id")) = true ->
      printable (get result (lit "created_at")) = true ->
      PostCommentary.cost st = Num n ->
      printable (Some (PostCommentary.duration st)) = true ->
      printable (Some (PostCommentary.turns st)) = true ->
      fst (try_catch T h w2) = Ret tt).
  { intros T h w2 response result n -> Hj Hn Hp1 Hp2 Hcost Hp3 Hp4.
    rewrite Hj, try_bind_lift. unfold console_log. rewrite try_bind_emit.
    rewrite (prop_get _ _ Hn), try_bind_lift, (template_printable _ Hp1), try_bind_ret,
      try_bind_emit.
    rewrite (prop_get _ _ Hn), try_bind_lift, (template_printable _ Hp2), try_bind_ret,
      try_bind_emit.
    rewrite Hcost. cbn beta iota. rewrite try_bind_emit.
    rewrite (template_printable _ Hp3), try_bind_ret, try_bind_emit.
    rewrite (template_printable _ Hp4), try_bind_ret. reflexivity. }
  destruct (PostCommentary.is_str (lookup (lit "proposal_id") members) proposalId) eqn:E.
  - eassert (Hrun : run = _).
    { subst run. unfold PostCommentary.postCommentary.
      fold default_output. fold proposalId portalUrl secret.
      cbv beta iota zeta delta [proposalId portalUrl secret].
      fold proposalId portalUrl secret.
      unfold console_log at 1. rewrite try_bind_emit. rewrite Hparse, try_bind_lift, Hc.
      unfold prop at 1. cbn [get]. rewrite try_bind_lift, E. cbn [negb].
      rewrite try_bind_ret. unfold console_log at 1. rewrite try_bind_emit, try_bind_emit.
      cbn [files trace]. reflexivity. }
    rewrite Hrun. clear Hrun.
    apply is_str_true in E. rewrite (set_same _ _ _ E).
    match goal with
    | |- context [snd (try_catch ?T ?h ?w2)] =>
        assert (Hpn : posts_nothing (try_catch T h)) by (repeat pn_step);
        destruct (Hpn w2) as (after & Ht & Hp)
    end.
    rewrite Ht. cbn [trace].
    eexists [_; _], after. split; [reflexivity|].
    split; [rewrite <- !app_assoc; reflexivity|].
    split; [reflexivity|]. split; [exact Hp|]. split; [exact E|].
    split; [intros Hne; contradiction|].
    intros response result n Hf Hok Hj Hn Hp1 Hp2 Hcost Hp3 Hp4.
    rewrite Hf, try_bind_lift, Hok. cbn [negb]. rewrite try_bind_ret.
    now apply (Hsuccess _ _ _ response result n).
  - eassert (Hrun : run = _).
    { subst run. unfold PostCommentary.postCommentary.
      fold default_output. fold proposalId portalUrl secret.
      cbv beta iota zeta delta [proposalId portalUrl secret].
      fold proposalId portalUrl secret.
      unfold console_log at 1. rewrite try_bind_emit. rewrite Hparse, try_bind_lift, Hc.
      unfold prop at 1. cbn [get]. rewrite try_bind_lift, E. cbn [negb].
      rewrite try_bind_assoc, (template_printable _ Hid), try_bind_ret.
      rewrite try_bind_assoc. unfold console_warn at 1. rewrite try_bind_emit.
      rewrite try_bind_assoc. unfold console_warn at 1. rewrite try_bind_emit.
      unfold PostCommentary.assign. rewrite try_bind_lift.
      unfold console_log at 1. rewrite try_bind_emit, try_bind_emit.
      cbn [files trace]. reflexivity. }
    rewrite Hrun. clear Hrun.
    match goal with
    | |- context [snd (try_catch ?T ?h ?w2)] =>
        assert (Hpn : posts_nothing (try_catch T h)) by (repeat pn_step);
        destruct (Hpn w2) as (after & Ht & Hp)
    end.
    rewrite Ht. cbn [trace].
    eexists [_; _; _; _], after. split; [reflexivity|].
    split; [rewrite <- !app_assoc; reflexivity|].
    split; [reflexivity|]. split; [exact Hp|]. split; [exact Hset|].
    split; [intros _; right; right; now left|].
    intros response result n Hf Hok Hj Hn Hp1 Hp2 Hcost Hp3 Hp4.
    rewrite Hf, try_bind_lift, Hok. cbn [negb]. rewrite try_bind_ret.
    now apply (Hsuccess _ _ _ response result n).
Qed.


Lemma mismatched_id_is_overwritten_witness :
  let proposalId := lit "131375" in
  let portalUrl := lit "https://portal.example" in
  let secret := lit "s3cret" in
  let run :=
    PostCommentary.postCommentary None (Some proposalId) (Some portalUrl) (Some secret)
      toy_read toy_fetch fresh in
  exists members before after,
    toy_commentary = Obj members
    /\ trace (snd run)
       = trace fresh ++ before
         ++ [HttpPost (commentary_url portalUrl proposalId) (lit "Bearer " ++ secret)
               (payload_for toy_stats members proposalId)]
         ++ after
    /\ existsb is_post before = false
    /\ existsb is_post after = false
    /\ lookup (lit "proposal_id") (JSON.set (lit "proposal_id") (Str proposalId) members)
       = Some (Str proposalId)
    /\ (get toy_commentary (lit "proposal_id") <> Some (Str proposalId) ->
        In overwrite_notice before)
    /\ (forall response result n,
          toy_fetch (commentary_url portalUrl proposalId) (lit "Bearer " ++ secret)
            (payload_for toy_stats members proposalId) = Ret response ->
          PostCommentary.ok response = true ->
          PostCommentary.body_json response = Ret result ->
          result <> Null ->
          printable (get result (lit "commentary_id")) = true ->
          printable (get result (lit "created_at")) = true ->
          PostCommentary.cost toy_stats = Num n ->
          printable (Some (PostCommentary.duration toy_stats)) = true ->
          printable (Some (PostCommentary.turns toy_stats)) = true ->
          fst run = Ret tt).
Proof.
  apply (mismatched_id_is_overwritten None (cu "1") (lit "31375")
           (cu "h") (lit "ttps://portal.example") (cu "s") (lit "3cret")
           toy_read toy_fetch fresh toy_stats toy_commentary).
  - vm_compute; reflexivity.
  - vm_compute; reflexivity.
  - vm_compute; reflexivity.
Defined.

(** The recorded commentary names proposal 999; posted for proposal
    131375, it is sent with that identifier, after two warnings, and the
    script ends normally. *)
Example mismatch_run :
  let run :=
    PostCommentary.postCommentary None (Some (lit "131375")) (Some (lit "https://portal.example"))
      (Some (lit "s3cret")) toy_read toy_fetch fresh in
  get toy_commentary (lit "proposal_id") = Some (Str (lit "999"))
  /\ fst run = Ret tt
  /\ In overwrite_notice (trace (snd run))
  /\ exists members,
       In (HttpPost (lit "https://portal.example/api/proposals/131375/commentary")
             (lit "Bearer s3cret") (payload_for toy_stats members (lit "131375")))
          (trace (snd run)).
Proof.
  split; [vm_compute; reflexivity|]. split; [vm_compute; reflexivity|].
  split; [vm_compute; tauto|].
  destruct toy_commentary as [| | | | |members] eqn:E; try (vm_compute in E; discriminate).
  exists members. vm_compute in E. injection E as <-. vm_compute. tauto.
Qed.


(* ################################################################# *)
(** * Further properties of the code *)

(* ================================================================= *)
(** ** fetch-proposal.ts: what the two extractors return *)

Module ExtractorFacts.

(** Whether a text has a token can be decided by looking at every index. *)
Lemma token_dec n t : (exists i, token_at n t i) \/ (forall i, ~ token_at n t i).
Proof.
  destruct (existsb (tokenb n t) (seq 0 (S (length t)))) eqn:E.
  - left. apply existsb_exists in E as (i & _ & Hi). now exists i.
  - right. intros i Hi. pose proof (token_at_bound _ _ _ Hi) as Hb.
    assert (existsb (tokenb n t) (seq 0 (S (length t))) = true); [|congruence].
    apply existsb_exists. exists i. split; [apply in_seq; lia | exact Hi].
Qed.

Lemma token_hex n t i : token_at n t i -> forallb is_hex (substring i n t) = true.
Proof.
  unfold token_at, tokenb. rewrite !andb_true_iff. now intros [[[_ H] _] _].
Qed.

Lemma substring_length i n (t : text) :
  (i + n <= length t)%nat -> length (substring i n t) = n.
Proof. intros H. unfold substring. rewrite length_firstn, length_skipn. lia. Qed.

Lemma substring_all (t : text) : substring 0 (length t) t = t.
Proof. unfold substring. cbn [skipn]. apply firstn_all. Qed.

(** A text that is one run of hexadecimal digits is a token as a whole,
    and holds no shorter token. *)
Lemma whole_token (h : text) :
  forallb is_hex h = true -> h <> [] -> token_at (length h) h 0.
Proof.
  intros Hh Hne. unfold token_at, tokenb, no_word_at.
  rewrite substring_all, Hh. cbn [Nat.add].
  rewrite (proj2 (Nat.leb_le _ _)) by lia.
  now rewrite (proj2 (nth_error_None h (length h))) by lia.
Qed.

Lemma no_inner_token n (h : text) i :
  forallb is_hex h = true -> (n < length h)%nat -> ~ token_at n h i.
Proof.
  intros Hh Hn Hi. pose proof (token_at_bound _ _ _ Hi) as Hb.
  unfold token_at, tokenb, no_word_at in Hi. rewrite !andb_true_iff in Hi.
  destruct Hi as [[_ Hbefore] Hafter].
  assert (Hword : forall k, (k < length h)%nat ->
                    match nth_error h k with
                    | Some c => negb (is_word_char c)
                    | None => true
                    end = false).
  { intros k Hk. destruct (nth_error h k) as [c|] eqn:E.
    - apply nth_error_In in E. rewrite forallb_forall in Hh.
      now rewrite (hex_is_word c (Hh c E)).
    - apply nth_error_None in E. lia. }
  destruct i as [|i].
  - rewrite (Hword (0 + n)%nat) in Hafter by lia. discriminate.
  - rewrite (Hword i) in Hbefore by lia. discriminate.
Qed.

Lemma no_short_token n (t : text) i : (length t < n)%nat -> ~ token_at n t i.
Proof. intros Hn Hi. pose proof (token_at_bound _ _ _ Hi). lia. Qed.

Lemma no_short_labelled (t : text) i j : (length t < 68)%nat -> ~ labelled_at t i j.
Proof.
  intros Hn Hij. destruct (labelled_at_bound _ _ _ Hij) as [_ Hb].
  unfold labelled_at, labelledb in Hij. apply existsb_exists in Hij as (w & Hw & H).
  rewrite !andb_true_iff, !Nat.leb_le in H. destruct H as [[[_ Hle] _] _].
  assert (4 <= length w)%nat; [|lia].
  unfold labels in Hw. cbn in Hw. destruct Hw as [<-|[<-|[<-|[]]]]; cbn; lia.
Qed.

End ExtractorFacts.

Import ExtractorFacts.

(** X1: whatever [extractCommitHash] returns is the first 40-hex token
    of the text: 40 hexadecimal digits, as written in the text, with no
    word character right before or after them. *)
Theorem extractCommitHash_sound :
  forall (t h : text),
    extractCommitHash t = Some h ->
    exists i,
      token_at 40 t i
      /\ (forall j, token_at 40 t j -> (i <= j)%nat)
      /\ h = substring i 40 t
      /\ length h = 40%nat
      /\ forallb is_hex h = true.
Proof.
  intros t h Hh. destruct (token_dec 40 t) as [[j Hj]|Hno].
  - destruct (first_token _ _ _ Hj) as (k & _ & Hk & Hmin).
    rewrite (extractCommitHash_at_first t k Hk Hmin) in Hh. injection Hh as <-.
    exists k. split; [exact Hk|]. split.
    + intros j' Hj'. destruct (Nat.le_gt_cases k j') as [|Hlt]; [assumption|].
      now destruct (Hmin j' Hlt).
    + split; [reflexivity|]. split.
      * apply substring_length. exact (token_at_bound _ _ _ Hk).
      * exact (token_hex _ _ _ Hk).
  - rewrite (extractCommitHash_no_token t Hno) in Hh. discriminate.
Qed.

Lemma extractCommitHash_sound_witness :
  exists i,
    token_at 40 two_commit_proposal i
    /\ (forall j, token_at 40 two_commit_proposal j -> (i <= j)%nat)
    /\ substring 11 40 two_commit_proposal = substring i 40 two_commit_proposal
    /\ length (substring 11 40 two_commit_proposal) = 40%nat
    /\ forallb is_hex (substring 11 40 two_commit_proposal) = true.
Proof.
  apply (extractCommitHash_sound two_commit_proposal (substring 11 40 two_commit_proposal)).
  vm_compute. reflexivity.
Defined.

(** X2: whatever [extractWasmHash] returns is 64 hexadecimal digits
    that stand in the text. *)
Theorem extractWasmHash_sound :
  forall (t h : text),
    extractWasmHash t = Some h ->
    exists j,
      (j + 64 <= length t)%nat
      /\ h = substring j 64 t
      /\ length h = 64%nat
      /\ forallb is_hex h = true.
Proof.
  intros t h. unfold extractWasmHash, exec.
  destruct (search true hashRegex [] t) as [[s e]|] eqn:E; cbn [option_map].
  - apply search_some in E as (pre & post & Ht & -> & Hm & _).
    pose proof (m_hash (rev pre ++ []) post) as Hm'. rewrite Hm in Hm'.
    destruct (hash_after post) as [d|] eqn:Hd; [|discriminate].
    cbn [option_map] in Hm'. injection Hm' as Hcap.
    cbn [result_of group1]. rewrite Hcap. intros H; injection H as <-.
    pose proof (hash_after_sound pre post d Hd) as Hl. rewrite <- Ht in Hl.
    destruct (labelled_at_bound _ _ _ Hl) as [_ Hb].
    exists (length pre + d)%nat. split; [exact Hb|]. split.
    + rewrite Ht. now rewrite substring_app.
    + assert (Hsub : substring d 64 post = substring (length pre + d) 64 t)
        by (rewrite Ht; now rewrite substring_app).
      rewrite Hsub. split; [now apply substring_length|].
      unfold labelledb in Hl. apply existsb_exists in Hl as (w & _ & H).
      unfold hex_run in H. rewrite !andb_true_iff in H. tauto.
  - destruct (token_dec 64 t) as [[j Hj]|Hno].
    + destruct (first_token _ _ _ Hj) as (k & _ & Hk & Hmin).
      destruct (generic_at_first t k Hk Hmin) as [rest ->]. cbn [hd_error].
      intros H; injection H as <-.
      pose proof (token_at_bound _ _ _ Hk) as Hb.
      exists k. split; [exact Hb|]. split; [reflexivity|]. split.
      * now apply substring_length.
      * exact (token_hex _ _ _ Hk).
    + rewrite (generic_no_token t Hno). discriminate.
Qed.

Lemma extractWasmHash_sound_witness :
  exists j,
    (j + 64 <= length labelled_proposal)%nat
    /\ new_digest = substring j 64 labelled_proposal
    /\ length new_digest = 64%nat
    /\ forallb is_hex new_digest = true.
Proof.
  apply (extractWasmHash_sound labelled_proposal new_digest).
  vm_compute. reflexivity.
Defined.

(** X3: a bare hash is read back by its own extractor and by it only: a
    text that is exactly 40 hexadecimal digits is its own commit hash and
    holds no WASM hash; a text that is exactly 64 hexadecimal digits is
    its own WASM hash and holds no commit hash. *)
Theorem bare_hash_is_its_own :
  forall h : text,
    forallb is_hex h = true ->
    (length h = 40%nat -> extractCommitHash h = Some h /\ extractWasmHash h = None)
    /\ (length h = 64%nat -> extractWasmHash h = Some h /\ extractCommitHash h = None).
Proof.
  intros h Hh. split; intros Hl.
  - assert (Hne : h <> []) by (intros ->; discriminate).
    pose proof (whole_token h Hh Hne) as Hw. rewrite Hl in Hw. split.
    + rewrite (extractCommitHash_at_first h 0 Hw) by (intros j Hj; lia).
      f_equal. rewrite <- Hl. apply substring_all.
    + unfold extractWasmHash.
      rewrite exec_hash_none by (intros i j; apply no_short_labelled; lia).
      rewrite generic_no_token by (intros k; apply no_short_token; lia).
      reflexivity.
  - assert (Hne : h <> []) by (intros ->; discriminate).
    pose proof (whole_token h Hh Hne) as Hw. rewrite Hl in Hw. split.
    + unfold extractWasmHash.
      rewrite exec_hash_none by (intros i j; apply no_short_labelled; lia).
      destruct (generic_at_first h 0 Hw) as [rest ->]; [intros j Hj; lia|].
      cbn [hd_error]. f_equal. rewrite <- Hl. apply substring_all.
    + apply extractCommitHash_no_token. intros i.
      apply no_inner_token; [exact Hh | lia].
Qed.

Lemma bare_hash_is_its_own_witness :
  (length new_digest = 40%nat ->
   extractCommitHash new_digest = Some new_digest /\ extractWasmHash new_digest = None)
  /\ (length new_digest = 64%nat ->
      extractWasmHash new_digest = Some new_digest /\ extractCommitHash new_digest = None).
Proof.
  apply (bare_hash_is_its_own new_digest). vm_compute. reflexivity.
Defined.

(* ================================================================= *)
(** ** fetch-proposal.ts: [main] *)

(** The events of a run that has been computed, and what they amount to. *)
Ltac events_of_run :=
  cbn [trace files fst snd];
  eexists; split;
  [ rewrite <- ?app_assoc; reflexivity
  | split; [reflexivity | repeat split] ].

(** X4: the fetch script ends with code 0 exactly when it was given a
    proposal id for which the canister returned a proposal, and then it
    has written one file, proposal.json, holding the id, the title (or
    "Untitled"), the summary, the url and the two extracted hashes, each
    [null] when the text has none: a missing hash is only warned about.
    In every other case it ends with code 1 and writes nothing. *)
Theorem fetch_writes_found_proposal :
  forall (argv2 : option text)
         (get_proposal_info : text -> outcome (option ProposalInfo)) (w : world),
    (forall id n, get_proposal_info id <> Exit n) ->
    let run := FetchProposal.script argv2 get_proposal_info w in
    exists events,
      trace (snd run) = trace w ++ events
      /\ requests events = []
      /\ match found argv2 get_proposal_info with
         | Some (id, p) =>
             fst run = 0%Z
             /\ files (snd run) = Node.store (lit "proposal.json") (proposal_data id p) (files w)
             /\ writes events = [(lit "proposal.json", proposal_data id p)]
         | None =>
             fst run = 1%Z /\ files (snd run) = files w /\ writes events = []
         end.
Proof.
  intros argv2 gpi w Hexit run. subst run.
  unfold found, FetchProposal.script, run_main, FetchProposal.main.
  unfold Node.bind, console_log, console_warn, console_error, emit, lift, writeJSON,
    Node.when, Node.exit.
  destruct argv2 as [[|c id]|]; try events_of_run.
  destruct (gpi (c :: id)) as [[info|]|e|n] eqn:E;
    [ | | | destruct (Hexit _ _ E) ]; try events_of_run.
  destruct (proposal info) as [p|]; cbn [option_map]; try events_of_run.
  unfold proposal_data.
  change (or_else (title p) (lit "Untitled") ++ nl ++ summary p ++ nl ++ url p)
    with (combinedText p).
  destruct (extractCommitHash (combinedText p)) as [[|x h]|];
    destruct (extractWasmHash (combinedText p)) as [[|y g]|];
    cbn [nullable truthy negb Node.ret]; events_of_run.
Qed.

Lemma fetch_writes_found_proposal_witness :
  let run := FetchProposal.script (Some (lit "131375")) (fun _ => Ret (Some motion_info)) fresh in
  exists events,
    trace (snd run) = trace fresh ++ events
    /\ requests events = []
    /\ match found (Some (lit "131375")) (fun _ => Ret (Some motion_info)) with
       | Some (id, p) =>
           fst run = 0%Z
           /\ files (snd run) = Node.store (lit "proposal.json") (proposal_data id p) (files fresh)
           /\ writes events = [(lit "proposal.json", proposal_data id p)]
       | None =>
           fst run = 1%Z /\ files (snd run) = files fresh /\ writes events = []
       end.
Proof.
  apply (fetch_writes_found_proposal (Some (lit "131375")) (fun _ => Ret (Some motion_info)) fresh).
  intros id n. discriminate.
Defined.

(* ================================================================= *)
(** ** The second fetch script: [bytesToHex] and [main] *)

Module BytesFacts.

Import FetchInstallCode.

(** What holds for the 256 byte values holds for every byte. *)
Lemma every_byte (P : N -> bool) :
  forallb P (map N.of_nat (seq 0 256)) = true ->
  forall b, is_byte b = true -> P b = true.
Proof.
  intros H b Hb. unfold is_byte in Hb. apply N.ltb_lt in Hb.
  rewrite forallb_forall in H. apply H.
  apply in_map_iff. exists (N.to_nat b). split; [apply N2Nat.id|].
  apply in_seq. lia.
Qed.

Lemma byte_two_digits b : is_byte b = true -> two_digits b = true.
Proof. apply every_byte. vm_compute. reflexivity. Qed.

Lemma padStart_length n c s : (n <= length (padStart n c s))%nat.
Proof. unfold padStart. rewrite length_app, repeat_length. lia. Qed.

Lemma bytesToHex_cons b bytes :
  bytesToHex (b :: bytes) = padStart 2 (cu "0") (toString16 b) ++ bytesToHex bytes.
Proof. reflexivity. Qed.

(** Only the empty list of bytes gives the empty string. *)
Lemma bytesToHex_nil bytes : bytesToHex bytes = [] -> bytes = [].
Proof.
  destruct bytes as [|b bytes]; [reflexivity|]. rewrite bytesToHex_cons.
  intros H. apply (f_equal (@length N)) in H. rewrite length_app in H.
  pose proof (padStart_length 2 (cu "0") (toString16 b)). cbn [length] in H. lia.
Qed.

End BytesFacts.

Import BytesFacts.

(** X5: on bytes (numbers below 256) [bytesToHex] writes two lower-case
    hexadecimal digits a byte, and reading the digits back two by two
    gives the bytes again; so different hashes never get the same
    string. *)
Theorem bytesToHex_round_trip :
  forall bytes : list N,
    forallb is_byte bytes = true ->
    length (FetchInstallCode.bytesToHex bytes) = (2 * length bytes)%nat
    /\ forallb is_lower_hex (FetchInstallCode.bytesToHex bytes) = true
    /\ hexToBytes (FetchInstallCode.bytesToHex bytes) = Some bytes.
Proof.
  induction bytes as [|b bytes IH]; intros Hb; [repeat split|].
  cbn [forallb] in Hb. apply andb_true_iff in Hb as [Hb Hrest].
  destruct (IH Hrest) as (Hlen & Hhex & Hback).
  rewrite bytesToHex_cons. pose proof (byte_two_digits b Hb) as H2.
  unfold two_digits in H2.
  destruct (FetchInstallCode.padStart 2 (cu "0") (FetchInstallCode.toString16 b))
    as [|hi [|lo [|x r]]]; try discriminate.
  rewrite !andb_true_iff in H2. destruct H2 as [[Hhi Hlo] Hval].
  destruct (hex_digit hi) as [h|] eqn:Eh; [|discriminate].
  destruct (hex_digit lo) as [l|] eqn:El; [|discriminate].
  apply N.eqb_eq in Hval. split; [|split].
  - cbn [app length]. rewrite Hlen. cbn [length]. lia.
  - cbn [app forallb]. now rewrite Hhi, Hlo, Hhex.
  - cbn [app hexToBytes]. now rewrite Eh, El, Hback, Hval.
Qed.

Lemma bytesToHex_round_trip_witness :
  length (FetchInstallCode.bytesToHex [0; 15; 16; 171; 255]%N) = (2 * 5)%nat
  /\ forallb is_lower_hex (FetchInstallCode.bytesToHex [0; 15; 16; 171; 255]%N) = true
  /\ hexToBytes (FetchInstallCode.bytesToHex [0; 15; 16; 171; 255]%N)
     = Some [0; 15; 16; 171; 255]%N.
Proof.
  apply (bytesToHex_round_trip [0; 15; 16; 171; 255]%N). vm_compute. reflexivity.
Defined.

(** X6: the fetch script that reads the action writes proposal.json, and
    ends with code 0, exactly when the proposal was found and its
    [InstallCode] action carries a hash of at least one byte; the file
    then holds that hash in hexadecimal.  A proposal without an action,
    without a hash or with an empty hash is an error: code 1, nothing
    written.  A missing commit hash is only warned about. *)
Theorem action_fetch_needs_the_hash :
  forall (argv2 : option text)
         (get_proposal_info : text -> outcome (option FetchInstallCode.ProposalInfo))
         (w : world),
    (forall id n, get_proposal_info id <> Exit n) ->
    let run := FetchInstallCode.script argv2 get_proposal_info w in
    exists events,
      trace (snd run) = trace w ++ events
      /\ match found_action argv2 get_proposal_info with
         | Some (id, p) =>
             match module_hash p with
             | Some (b :: bytes) =>
                 fst run = 0%Z
                 /\ files (snd run)
                    = Node.store (lit "proposal.json") (action_data id p (b :: bytes)) (files w)
                 /\ writes events = [(lit "proposal.json", action_data id p (b :: bytes))]
             | _ => fst run = 1%Z /\ files (snd run) = files w /\ writes events = []
             end
         | None => fst run = 1%Z /\ files (snd run) = files w /\ writes events = []
         end.
Proof.
  intros argv2 gpi w Hexit run. subst run.
  unfold found_action, FetchInstallCode.script, run_main, FetchInstallCode.main.
  unfold Node.bind, console_log, console_warn, console_error, emit, lift, writeJSON,
    Node.when, Node.exit.
  destruct argv2 as [[|c id]|]; try (cbn [trace files fst snd]; eexists; split;
    [rewrite <- ?app_assoc; reflexivity | repeat split]).
  destruct (gpi (c :: id)) as [[info|]|e|n] eqn:E;
    [ | | | destruct (Hexit _ _ E) ];
    try (cbn [trace files fst snd]; eexists; split;
         [rewrite <- ?app_assoc; reflexivity | repeat split]).
  destruct (FetchInstallCode.proposal info) as [p|]; cbn [option_map];
    try (cbn [trace files fst snd]; eexists; split;
         [rewrite <- ?app_assoc; reflexivity | repeat split]).
  unfold module_hash, action_data, canister_of.
  set (text := or_else (FetchInstallCode.title p) (lit "Untitled") ++ nl
               ++ FetchInstallCode.summary p ++ nl ++ FetchInstallCode.url p).
  destruct (FetchInstallCode.action p) as [installCode|];
    [destruct (FetchInstallCode.wasm_module_hash installCode) as [[|b bytes]|]|];
    cbn [option_map].
  - (* an empty hash *)
    destruct (extractCommitHash text) as [[|x h]|];
      cbn [nullable truthy negb Node.ret FetchInstallCode.bytesToHex map concat];
      cbn [trace files fst snd]; eexists;
      (split; [rewrite <- ?app_assoc; reflexivity | repeat split]).
  - destruct (FetchInstallCode.bytesToHex (b :: bytes)) as [|y g] eqn:Eh;
      [apply bytesToHex_nil in Eh; discriminate|].
    destruct (extractCommitHash text) as [[|x h]|];
      cbn [nullable truthy negb Node.ret];
      cbn [trace files fst snd]; eexists;
      (split; [rewrite <- ?app_assoc; reflexivity | repeat split]).
  - destruct (extractCommitHash text) as [[|x h]|];
      cbn [nullable truthy negb Node.ret];
      cbn [trace files fst snd]; eexists;
      (split; [rewrite <- ?app_assoc; reflexivity | repeat split]).
  - destruct (extractCommitHash text) as [[|x h]|];
      cbn [nullable truthy negb Node.ret];
      cbn [trace files fst snd]; eexists;
      (split; [rewrite <- ?app_assoc; reflexivity | repeat split]).
Qed.

Lemma action_fetch_needs_the_hash_witness :
  let run := FetchInstallCode.script (Some (lit "131375")) (fun _ => Ret (Some upgrade_info)) fresh in
  exists events,
    trace (snd run) = trace fresh ++ events
    /\ match found_action (Some (lit "131375")) (fun _ => Ret (Some upgrade_info)) with
       | Some (id, p) =>
           match module_hash p with
           | Some (b :: bytes) =>
               fst run = 0%Z
               /\ files (snd run)
                  = Node.store (lit "proposal.json") (action_data id p (b :: bytes)) (files fresh)
               /\ writes events = [(lit "proposal.json", action_data id p (b :: bytes))]
           | _ => fst run = 1%Z /\ files (snd run) = files fresh /\ writes events = []
           end
       | None => fst run = 1%Z /\ files (snd run) = files fresh /\ writes events = []
       end.
Proof.
  apply (action_fetch_needs_the_hash (Some (lit "131375")) (fun _ => Ret (Some upgrade_info)) fresh).
  intros id n. discriminate.
Defined.

(* ================================================================= *)
(** ** Running a script step by step *)

Module RunFacts.

Lemma node_bind_def {A B} (c : M A) (f : A -> M B) w :
  Node.bind c f w
  = match c w with
    | (Ret a, w') => f a w'
    | (Throw e, w') => (Throw e, w')
    | (Exit n, w') => (Exit n, w')
    end.
Proof. reflexivity. Qed.

Lemma node_bind_emit {A} e (f : unit -> M A) w :
  Node.bind (emit e) f w = f tt (World (files w) (trace w ++ [e])).
Proof. reflexivity. Qed.

Lemma node_bind_write {A} path doc (f : unit -> M A) w :
  Node.bind (writeJSON path doc) f w
  = f tt (World (Node.store path doc (files w)) (trace w ++ [WriteFile path doc])).
Proof. reflexivity. Qed.

Lemma node_bind_ret {A B} (a : A) (f : A -> M B) w : Node.bind (Node.ret a) f w = f a w.
Proof. reflexivity. Qed.

Lemma node_bind_lift_ret {A B} (a : A) (f : A -> M B) w :
  Node.bind (lift (Ret a)) f w = f a w.
Proof. reflexivity. Qed.

Lemma node_bind_lift_throw {A B} e (f : A -> M B) w :
  Node.bind (lift (Throw e)) f w = (Throw e, w).
Proof. reflexivity. Qed.

Lemma node_bind_throw {A B} e (f : A -> M B) w :
  Node.bind (throw e) f w = (Throw e, w).
Proof. reflexivity. Qed.

Lemma node_bind_exit {A B} n (f : A -> M B) w :
  Node.bind (exit n) f w = (Exit n, w).
Proof. reflexivity. Qed.

Lemma node_bind_bind {A B C} (c : M A) (f : A -> M B) (g : B -> M C) w :
  Node.bind (Node.bind c f) g w = Node.bind c (fun a => Node.bind (f a) g) w.
Proof. unfold Node.bind. now destruct (c w) as [[a|e|n] w1]. Qed.

(** Running a script one step at a time. *)
Ltac node_run :=
  unfold console_log, console_warn, console_error;
  repeat first [ rewrite node_bind_emit | rewrite node_bind_write | rewrite node_bind_ret
               | rewrite node_bind_lift_ret | rewrite node_bind_lift_throw
               | rewrite node_bind_throw | rewrite node_bind_exit | rewrite node_bind_bind ];
  cbn [trace files fst snd].

(** The last step. *)
Ltac node_end :=
  unfold Node.exit, Node.throw, Node.ret, emit; cbn [trace files fst snd].

(** The events of a run that has been computed. *)
Ltac run_done :=
  eexists; (split; [rewrite <- ?app_assoc; reflexivity|]);
  cbn [requests writes flat_map app length no_key];
  repeat split; auto; try (intros; discriminate).

End RunFacts.

Import RunFacts.

(* ================================================================= *)
(** ** extract-build-steps.ts: [main] *)

Module ExtractFacts.

(** [parseGeminiResponse] either accepts or rejects. *)
Lemma parse_cases response w :
  (exists parsed l,
      JSON_parse (unfence response) = Some parsed
      /\ get parsed (lit "steps") = Some (Arr l)
      /\ parseGeminiResponse response w
         = (Ret (Plan l (or_value (get parsed (lit "wasmOutputPath")) default_path)), w))
  \/ ((JSON_parse (unfence response) = None
       \/ exists parsed, JSON_parse (unfence response) = Some parsed
                         /\ forall l, get parsed (lit "steps") <> Some (Arr l))
      /\ rejected response w (parseGeminiResponse response w)).
Proof.
  destruct (JSON_parse (unfence response)) as [parsed|] eqn:Hp.
  - destruct (get parsed (lit "steps")) as [[| b | n | s | l | ms']|] eqn:Hs.
    5:{ left. exists parsed, l. repeat split; auto. now apply parse_accepts. }
    all: right; split;
      [ right; exists parsed; split; [reflexivity | intros l'; rewrite Hs; discriminate]
      | apply (parse_rejects_steps _ _ _ Hp); intros l'; rewrite Hs; discriminate ].
  - right. split; [now left | now apply parse_rejects_syntax].
Qed.

Lemma writes_app a b : writes (a ++ b) = writes a ++ writes b.
Proof. unfold writes. apply flat_map_app. Qed.

Lemma requests_app a b : requests (a ++ b) = requests a ++ requests b.
Proof. unfold requests. apply flat_map_app. Qed.

(** The loop that prints the steps only prints, and stops at the first
    step that cannot be printed. *)
Lemma log_steps_run l : forall i w,
  log_steps i l w
  = (if existsb unprintable l then Throw TypeError else Ret tt,
     World (files w) (trace w ++ step_lines i (shown l))).
Proof.
  induction l as [|step rest IH]; intros i w; cbn [log_steps step_lines shown existsb].
  - rewrite app_nil_r. now destruct w.
  - unfold template. destruct (unprintable step); cbn [orb step_lines].
    + rewrite app_nil_r. now destruct w.
    + unfold Node.bind at 1, Node.ret, console_log. rewrite node_bind_emit, IH.
      cbn [files trace]. now rewrite <- app_assoc.
Qed.

Lemma step_lines_quiet l : forall i,
  writes (step_lines i l) = [] /\ requests (step_lines i l) = [].
Proof. induction l as [|step rest IH]; intros i; [split; reflexivity | apply IH]. Qed.

(** The error of a rejected response does not depend on the state. *)
Lemma parse_rejected response :
  (JSON_parse (unfence response) = None
   \/ exists parsed, JSON_parse (unfence response) = Some parsed
                     /\ forall l, get parsed (lit "steps") <> Some (Arr l)) ->
  exists cause, forall w,
    parseGeminiResponse response w
    = (Throw (ErrorOf (lit "Failed to parse LLM response: ") cause),
       World (files w)
         (trace w ++ [Console Err [AText (lit "Failed to parse Gemini response:");
                                   AText response]])).
Proof.
  intros [Hp|(parsed & Hp & Hs)]; unfold parseGeminiResponse, try_catch; rewrite Hp.
  - now exists SyntaxError.
  - destruct parsed as [| b | n | s | l | ms].
    1: now exists TypeError.
    all: exists (Error (lit "Invalid response: steps must be an array")); intros w.
    all: unfold Node.bind, lift, prop; cbn [get] in *.
    1-4: reflexivity.
    destruct (lookup (lit "steps") ms) as [[| b | n | s | l | ms']|] eqn:E; try reflexivity.
    now destruct (Hs l).
Qed.

End ExtractFacts.

Import ExtractFacts.

Ltac unfold_run :=
  unfold callGemini, Node.bind, lift, console_log, console_error, emit, writeJSON,
    Node.exit, Node.throw, Node.ret;
  cbv beta iota zeta; cbn [trace files].

Ltac next_run := cbv beta iota zeta; cbn [trace files].

(** A value spliced into a template, in a run that is being computed. *)
Ltac spliced H :=
  first [ rewrite (template_printable _ H) | rewrite (template_not_printable _ H)
        | rewrite (template_unprintable _ H) ];
  unfold Node.ret, Node.throw; next_run.

(** Running [main] up to the point a case analysis has reached. *)
Ltac main_is tac :=
  match goal with
  | |- context [ExtractBuildSteps.main ?k ?g ?w] =>
      let E := fresh "E" in
      eassert (E : ExtractBuildSteps.main k g w = _);
      [ unfold ExtractBuildSteps.main; rewrite node_bind_def; unfold try_catch at 1;
        unfold readJSON; tac; reflexivity
      | rewrite E; clear E ]
  end.

(** A proposal document that cannot be written into the log and the
    prompt ends the run before anything is requested. *)
Lemma main_unpresentable KEY gen w doc commit :
  lookup (lit "proposal.json") (files w) = Some doc ->
  doc <> Null ->
  get doc (lit "commitHash") = Some commit ->
  truthy (Some commit) = true ->
  presentable doc = false ->
  exists events,
    ExtractBuildSteps.main KEY gen w = (Throw TypeError, World (files w) (trace w ++ events))
    /\ requests events = [] /\ writes events = [].
Proof.
  intros Hdoc Hnull Hc Htruthy Hpres.
  assert (Hprop : prop doc = fun key => Ret (get doc key))
    by (destruct doc; [contradiction | reflexivity ..]).
  assert (Hcommit : if_truthy (get doc (lit "commitHash")) = Some commit)
    by (rewrite Hc; unfold if_truthy; now rewrite Htruthy).
  unfold presentable in Hpres. rewrite Hc in Hpres.
  destruct (printable (get doc (lit "title"))) eqn:Ht.
  2:{ main_is ltac:(rewrite Hdoc; cbv beta iota zeta;
                    rewrite Hprop, node_bind_lift_ret, Hcommit; unfold_run; spliced Ht).
      eexists. split; [rewrite <- ?app_assoc; reflexivity|]. split; reflexivity. }
  destruct (printable (Some commit)) eqn:Hpc.
  2:{ main_is ltac:(rewrite Hdoc; cbv beta iota zeta;
                    rewrite Hprop, node_bind_lift_ret, Hcommit; unfold_run; spliced Ht;
                    spliced Hpc).
      eexists. split; [rewrite <- ?app_assoc; reflexivity|]. split; reflexivity. }
  destruct (printable (get doc (lit "summary"))) eqn:Hsum.
  2:{ main_is ltac:(rewrite Hdoc; cbv beta iota zeta;
                    rewrite Hprop, node_bind_lift_ret, Hcommit; unfold_run; spliced Ht;
                    spliced Hpc; spliced Hsum).
      eexists. split; [rewrite <- ?app_assoc; reflexivity|]. split; reflexivity. }
  destruct (printable (get doc (lit "url"))) eqn:Hurl; [discriminate|].
  main_is ltac:(rewrite Hdoc; cbv beta iota zeta;
                rewrite Hprop, node_bind_lift_ret, Hcommit; unfold_run; spliced Ht;
                spliced Hpc; spliced Hsum; spliced Hurl).
  eexists. split; [rewrite <- ?app_assoc; reflexivity|]. split; reflexivity.
Qed.

Lemma if_truthy_some v x : if_truthy v = Some x -> v = Some x /\ truthy (Some x) = true.
Proof.
  unfold if_truthy. destruct v as [y|]; [|discriminate].
  destruct (truthy (Some y)) eqn:E; [|discriminate]. intros H; injection H as <-. auto.
Qed.

(** X7: the extraction script writes a build plan only when it got one.
    build-steps.json is written exactly when proposal.json holds a
    commit hash and can be written into the prompt, the API key is set,
    the service answers, and the answer holds an array of steps and an
    output path that can be printed; the file then holds the commit
    hash of proposal.json, unchanged, with the steps and the output
    path of the answer.  The script then ends with code 0 when every
    step can be printed, and with code 1, the file left written, when
    one cannot.  In every other case it ends with code 1 and writes
    nothing.  No run sends more than one request, and none is sent
    without a key. *)
Theorem extract_writes_plan_only_on_success :
  forall (GEMINI_API_KEY : option text)
         (generateContent : list arg -> outcome (option text)) (w : world),
    (forall prompt n, generateContent prompt <> Exit n) ->
    let run := ExtractBuildSteps.script GEMINI_API_KEY generateContent w in
    exists events,
      trace (snd run) = trace w ++ events
      /\ (length (requests events) <= 1)%nat
      /\ (no_key GEMINI_API_KEY = true -> requests events = [])
      /\ match plan_of GEMINI_API_KEY generateContent (files w) with
         | Some plan =>
             fst run = (if listable plan then 0%Z else 1%Z)
             /\ files (snd run) = Node.store (lit "build-steps.json") plan (files w)
             /\ writes events = [(lit "build-steps.json", plan)]
         | None =>
             fst run = 1%Z /\ files (snd run) = files w /\ writes events = []
         end.
Proof.
  intros KEY gen w Hexit run. subst run.
  unfold ExtractBuildSteps.script, run_main, plan_of.
  destruct (lookup (lit "proposal.json") (files w)) as [doc|] eqn:Hdoc.
  2:{ main_is ltac:(rewrite Hdoc; unfold_run). cbn [trace files fst snd]. run_done. }
  assert (Hnull : doc = Null \/ doc <> Null) by (destruct doc; auto; right; discriminate).
  destruct Hnull as [->|Hnull].
  { main_is ltac:(rewrite Hdoc; cbv beta iota zeta; cbn [prop]; unfold_run).
    cbn [trace files fst snd get if_truthy]. run_done. }
  assert (Hprop : prop doc = fun key => Ret (get doc key))
    by (destruct doc; [contradiction | reflexivity ..]).
  destruct (if_truthy (get doc (lit "commitHash"))) as [commit|] eqn:Hcommit.
  2:{ main_is ltac:(rewrite Hdoc; cbv beta iota zeta; rewrite Hprop, node_bind_lift_ret, Hcommit;
                    unfold_run).
      cbn [trace files fst snd]. run_done. }
  destruct (if_truthy_some _ _ Hcommit) as [Hc Htruthy].
  destruct (presentable doc) eqn:Hpres.
  2:{ destruct (main_unpresentable KEY gen w doc commit Hdoc Hnull Hc Htruthy Hpres)
        as (events & E & Hr & Hw).
      rewrite E. cbn [trace files fst snd]. eexists.
      split; [rewrite <- ?app_assoc; reflexivity|].
      rewrite !requests_app, !writes_app, Hw, Hr.
      cbn [requests writes flat_map app length no_key].
      destruct KEY as [[|k ks]|]; repeat split; auto. }
  unfold presentable in Hpres. rewrite Hc in Hpres.
  apply andb_prop in Hpres as [Hpres Hurl]. apply andb_prop in Hpres as [Hpres Hsum].
  apply andb_prop in Hpres as [Ht Hpc].
  destruct KEY as [[|k ks]|].
  1,3: main_is ltac:(rewrite Hdoc; cbv beta iota zeta;
                     rewrite Hprop, node_bind_lift_ret, Hcommit; unfold_run;
                     spliced Ht; spliced Hpc; spliced Hsum; spliced Hurl);
       cbn [trace files fst snd]; run_done.
  destruct (gen (prompt_for doc)) as [r|e|n] eqn:Hgen; [ | | destruct (Hexit _ _ Hgen)].
  2:{ unfold prompt_for in Hgen.
      main_is ltac:(rewrite Hdoc; cbv beta iota zeta;
                    rewrite Hprop, node_bind_lift_ret, Hcommit; unfold_run;
                    spliced Ht; spliced Hpc; spliced Hsum; spliced Hurl; rewrite Hgen).
      cbn [trace files fst snd]. run_done. }
  match goal with
  | |- context [ExtractBuildSteps.main ?key gen w] =>
      assert (Hrejected :
        (JSON_parse (unfence (or_else r [])) = None
         \/ exists parsed, JSON_parse (unfence (or_else r [])) = Some parsed
                           /\ forall l, get parsed (lit "steps") <> Some (Arr l)) ->
        exists cause events,
          ExtractBuildSteps.main key gen w
          = (Throw cause, World (files w) (trace w ++ events))
          /\ requests events = [prompt_for doc] /\ writes events = [])
  end.
  { intros Hor. destruct (parse_rejected _ Hor) as [cause Hrej]. unfold prompt_for in Hgen.
    main_is ltac:(rewrite Hdoc; cbv beta iota zeta;
                  rewrite Hprop, node_bind_lift_ret, Hcommit; unfold_run;
                  spliced Ht; spliced Hpc; spliced Hsum; spliced Hurl; rewrite Hgen;
                  next_run; rewrite Hrej).
    cbn [trace files]. eexists. eexists. split; [rewrite <- ?app_assoc; reflexivity|].
    cbn [requests writes flat_map app]. split; reflexivity. }
  destruct (JSON_parse (unfence (or_else r []))) as [parsed|] eqn:Hp.
  2:{ destruct (Hrejected (or_introl eq_refl)) as (cause & events & E & Hr & Hw). rewrite E.
      cbn [trace files fst snd]. eexists. split; [rewrite <- ?app_assoc; reflexivity|].
      rewrite !requests_app, !writes_app, Hw, Hr.
      cbn [requests writes flat_map app length no_key].
      repeat split; auto; intros; discriminate. }
  destruct (get parsed (lit "steps")) as [[| b | n | s | l | ms']|] eqn:Hs.
  5:{ clear Hrejected. unfold prompt_for in Hgen.
      destruct (unprintable (or_value (get parsed (lit "wasmOutputPath"))
                               (Str (lit "output.wasm")))) eqn:Hpath.
      - main_is ltac:(rewrite Hdoc; cbv beta iota zeta;
                      rewrite Hprop, node_bind_lift_ret, Hcommit; unfold_run;
                      spliced Ht; spliced Hpc; spliced Hsum; spliced Hurl; rewrite Hgen;
                      next_run; rewrite (parse_accepts _ _ _ _ Hp Hs); next_run;
                      cbn [steps wasmOutputPath trace files];
                      unfold default_path; spliced Hpath).
        cbn [trace files fst snd]. eexists. split; [rewrite <- ?app_assoc; reflexivity|].
        rewrite !requests_app, !writes_app.
        cbn [requests writes flat_map app length no_key].
        repeat split; auto; intros; discriminate.
      - assert (Hpath' : printable (Some (or_value (get parsed (lit "wasmOutputPath"))
                                            (Str (lit "output.wasm")))) = true)
          by (cbn [printable]; now rewrite Hpath).
        change (listable (Obj [ (lit "commitHash", commit); (lit "steps", Arr l);
                                (lit "wasmOutputPath",
                                 or_value (get parsed (lit "wasmOutputPath"))
                                   (Str (lit "output.wasm"))) ]))
          with (negb (existsb unprintable l)).
        main_is ltac:(rewrite Hdoc; cbv beta iota zeta;
                      rewrite Hprop, node_bind_lift_ret, Hcommit; unfold_run;
                      spliced Ht; spliced Hpc; spliced Hsum; spliced Hurl; rewrite Hgen;
                      next_run; rewrite (parse_accepts _ _ _ _ Hp Hs); next_run;
                      cbn [steps wasmOutputPath trace files];
                      unfold default_path; spliced Hpath';
                      rewrite log_steps_run; next_run).
        destruct (step_lines_quiet (shown l) 0) as [Hw Hr].
        destruct (existsb unprintable l); cbn [trace files fst snd negb];
          (eexists; split; [rewrite <- ?app_assoc; reflexivity|]);
          rewrite !requests_app, !writes_app, ?Hw, ?Hr;
          cbn [requests writes flat_map app length no_key];
          repeat split; auto; intros; discriminate. }
  all: assert (Hno : forall l', get parsed (lit "steps") <> Some (Arr l'))
         by (intros l'; rewrite Hs; discriminate);
       destruct (Hrejected (or_intror (ex_intro _ parsed (conj eq_refl Hno))))
         as (cause & events & E & Hr & Hw); rewrite E;
    cbn [trace files fst snd]; eexists; (split; [rewrite <- ?app_assoc; reflexivity|]);
    rewrite !requests_app, !writes_app, Hw, Hr;
    cbn [requests writes flat_map app length no_key];
    repeat split; auto; intros; discriminate.
Qed.

Lemma extract_writes_plan_only_on_success_witness :
  let run := ExtractBuildSteps.script (Some (lit "key")) (fun _ => Ret (Some fenced_response))
               fetched in
  exists events,
    trace (snd run) = trace fetched ++ events
    /\ (length (requests events) <= 1)%nat
    /\ (no_key (Some (lit "key")) = true -> requests events = [])
    /\ match plan_of (Some (lit "key")) (fun _ => Ret (Some fenced_response)) (files fetched) with
       | Some plan =>
           fst run = (if listable plan then 0%Z else 1%Z)
           /\ files (snd run) = Node.store (lit "build-steps.json") plan (files fetched)
           /\ writes events = [(lit "build-steps.json", plan)]
       | None =>
           fst run = 1%Z /\ files (snd run) = files fetched /\ writes events = []
       end.
Proof.
  apply (extract_writes_plan_only_on_success (Some (lit "key"))
           (fun _ => Ret (Some fenced_response)) fetched).
  intros prompt n. discriminate.
Defined.

(* ================================================================= *)
(** ** extract-build-steps.ts: responses that cannot be a plan *)

Module ResponseFacts.

Lemma trimStart_blank (s : text) : forallb is_js_space s = true -> trimStart s = [].
Proof.
  induction s as [|c s IH]; [reflexivity|]. cbn [forallb trimStart].
  intros H. apply andb_true_iff in H as [-> H]. now apply IH.
Qed.

Lemma trim_blank (s : text) : forallb is_js_space s = true -> trim s = [].
Proof. intros H. unfold trim. now rewrite (trimStart_blank s H). Qed.

(** An array is read by [parse_elements], and that gives an array. *)
Lemma parse_elements_array f : forall s acc v r,
  parse_elements f s acc = Some (v, r) -> exists l, v = Arr l.
Proof.
  induction f as [|f IH]; intros s acc v r; [discriminate|].
  rewrite JSONFacts.parse_elements_S.
  destruct (parse_value f (skip_ws s)) as [[v1 r1]|]; [|discriminate].
  destruct (skip_ws r1) as [|d r']; [discriminate|].
  destruct (d =? cu ",")%N; [apply IH|].
  destruct (d =? cu "]")%N; [|discriminate].
  intros H; injection H as <- _. now eexists.
Qed.

(** The text of a JSON object starts with a brace. *)
Lemma parse_object s ms :
  JSON_parse s = Some (Obj ms) -> exists rest, skip_ws s = cu "{" :: rest.
Proof.
  unfold JSON_parse. rewrite JSONFacts.parse_value_S.
  destruct (skip_ws s) as [|c s']; [discriminate|].
  destruct (c =? cu "{")%N eqn:Ec.
  { intros _. apply N.eqb_eq in Ec. subst c. now exists s'. }
  intros H. exfalso. revert H.
  destruct (c =? cu "[")%N.
  { destruct (skip_ws s') as [|d s'']; [discriminate|].
    destruct (d =? cu "]")%N.
    - destruct (skip_ws s''); discriminate.
    - destruct (parse_elements _ _ _) as [[v r]|] eqn:E; [|discriminate].
      destruct (parse_elements_array _ _ _ _ _ E) as [l ->].
      destruct (skip_ws r); discriminate. }
  destruct (c =? dquote)%N.
  { destruct (string_body s' []) as [[str r]|]; [|discriminate].
    destruct (skip_ws r); discriminate. }
  destruct ((c =? cu "-")%N || is_digit c).
  { destruct (parse_number (c :: s')) as [[n r]|]; [|discriminate].
    destruct (skip_ws r); discriminate. }
  unfold parse_literal.
  destruct (startsWith (c :: s') (lit "true")); [destruct (skip_ws _); discriminate|].
  destruct (startsWith (c :: s') (lit "false")); [destruct (skip_ws _); discriminate|].
  destruct (startsWith (c :: s') (lit "null")); [destruct (skip_ws _); discriminate|].
  discriminate.
Qed.

End ResponseFacts.

Import ResponseFacts.

(** X8: a response that is empty or holds only white space (what
    [callGemini] hands on when the service returned no text) is
    rejected. *)
Theorem blank_response_is_rejected :
  forall (response : text) (w : world),
    forallb is_js_space response = true ->
    rejected response w (parseGeminiResponse response w).
Proof.
  intros response w H. apply parse_rejects_syntax.
  unfold unfence. rewrite (trim_blank response H). reflexivity.
Qed.

Lemma blank_response_is_rejected_witness :
  rejected (lit "  ") fresh (parseGeminiResponse (lit "  ") fresh)
  /\ rejected [] fresh (parseGeminiResponse [] fresh).
Proof.
  split.
  - apply (blank_response_is_rejected (lit "  ") fresh). reflexivity.
  - apply (blank_response_is_rejected [] fresh). reflexivity.
Defined.

(** X9: every response [parseGeminiResponse] accepts is the text of a
    JSON object: what is left of it after trimming and removing the code
    block markers starts (after white space) with a brace.  So a JSON
    array, a JSON string, or prose in front of the JSON is rejected. *)
Theorem accepted_response_is_an_object :
  forall (response : text) (w w' : world) (p : plan),
    parseGeminiResponse response w = (Ret p, w') ->
    exists rest, skip_ws (unfence response) = cu "{" :: rest.
Proof.
  intros response w w' p H.
  destruct (parse_accepted_inv _ _ _ _ H) as (parsed & Hp & Hs & _).
  destruct parsed as [| b | n | s | l | ms]; try discriminate.
  exact (parse_object _ _ Hp).
Qed.

Lemma accepted_response_is_an_object_witness :
  exists rest, skip_ws (unfence fenced_response) = cu "{" :: rest.
Proof.
  apply (accepted_response_is_an_object fenced_response fresh fresh
           (Plan [Str (lit "bazel build //rs/registry/canister")]
              (Str (lit "bazel-bin/rs/registry/canister/registry-canister.wasm")))).
  vm_compute. reflexivity.
Defined.

(* ================================================================= *)
(** ** build.sh: the commands of a run *)

Module CommandFacts.

Import BuildSh.

Section Script.

Variable disk : Type.
Variable run : command -> disk -> Z * disk.
Variable eval_step : text -> bool -> text -> list text -> disk -> reply disk.
Variables is_dir is_file : disk -> text -> bool.
Variable find_wasm : disk -> list text * Z.
Variable inspect : jsval -> text.

#[local] Abbreviation sh := (BuildSh.sh disk).
#[local] Abbreviation shell := (BuildSh.shell disk).
#[local] Abbreviation cmd := (BuildSh.cmd run).
#[local] Abbreviation build_loop := (BuildSh.build_loop eval_step).
#[local] Abbreviation prepare := (BuildSh.prepare (disk := disk) inspect).
#[local] Abbreviation checkout := (BuildSh.checkout run is_dir).
#[local] Abbreviation build := (BuildSh.build eval_step inspect).
#[local] Abbreviation locate := (BuildSh.locate run is_file find_wasm).
#[local] Abbreviation finish := (BuildSh.finish run).
#[local] Abbreviation script :=
  (BuildSh.script run eval_step is_dir is_file find_wasm inspect).
#[local] Abbreviation adds := (BuildNotions.adds (disk := disk)).
#[local] Abbreviation loud := (BuildNotions.loud (disk := disk)).

Ltac fixed_step :=
  first
    [ apply adds_bind; [|intros ?]
    | apply adds_echo; exact I
    | apply adds_cmd; intros ?; cbn; auto
    | apply adds_cmd_at; intros ?; cbn; auto
    | apply adds_ret | apply adds_halt
    | apply adds_test_doc | apply adds_test_d | apply adds_test_f
    | apply adds_node_field | apply adds_node_steps
    | apply adds_find_head; intros ?; exact I
    | apply adds_find_head_at; intros ?; exact I
    | match goal with |- BuildNotions.adds (if ?b then _ else _) _ => destruct b end ].

Lemma fixed_prepare commit path : adds prepare (fixed_command commit path).
Proof. unfold BuildSh.prepare. repeat fixed_step. Qed.

Lemma fixed_checkout commit path : adds (checkout commit) (fixed_command commit path).
Proof. unfold BuildSh.checkout. repeat fixed_step. Qed.

Lemma fixed_closing errexit commit path :
  adds (BuildSh.bind (locate errexit path) (fun _ => finish errexit))
    (fixed_command commit path).
Proof. unfold BuildSh.locate, BuildSh.finish. repeat fixed_step. Qed.

Lemma prepare_declared_commit (s s1 : shell) vars :
  prepare s = (Next vars, s1) -> fst vars = declared_commit inspect (docs s).
Proof.
  unfold BuildSh.prepare, declared_commit. rewrite bind_echo.
  unfold BuildSh.bind, test_doc, node_field, echo, BuildSh.ret, BuildSh.halt.
  cbn beta iota delta [docs out machine].
  destruct (lookup (lit "build-steps.json") (docs s)) as [doc|] eqn:E1;
    cbn beta iota delta [negb docs out machine]; [|discriminate].
  destruct (lookup (lit "proposal.json") (docs s));
    cbn beta iota delta [negb docs out machine]; [|discriminate].
  rewrite E1.
  destruct doc; cbn beta iota delta [prop docs out machine]; try discriminate;
    rewrite E1; cbn beta iota delta [prop docs out machine];
    intros H; injection H as <- _; reflexivity.
Qed.

Lemma in_evals step n l : In (Ran (Eval step) n) l -> In (step, n) (evals l).
Proof.
  unfold evals. intros H. apply in_flat_map. exists (Ran (Eval step) n).
  split; [exact H | now left].
Qed.

(** The clone, the fetch and the checkout, each of which must succeed. *)
Ltac clone_fetch_checkout commit :=
  repeat match goal with
         | |- context [(fst (run ?c ?d) =? 0)%Z] =>
             let E := fresh "E" in
             destruct (Z.eqb_spec (fst (run c d)) 0) as [E|]; [rewrite ?E | discriminate]
         end;
  rewrite bind_echo; unfold BuildSh.bind, BuildSh.cmd; cbn [machine docs out];
  match goal with |- context [run (GitFetch commit) ?d] =>
    let st := fresh "st" in
    destruct (run (GitFetch commit) d) as [st ?];
    destruct (Z.eqb_spec st 0) as [->|]; [|discriminate]
  end;
  cbn [machine docs out];
  match goal with |- context [run (GitCheckout commit) ?d] =>
    let st := fresh "st" in
    destruct (run (GitCheckout commit) d) as [st ?];
    destruct (Z.eqb_spec st 0) as [->|]; [|discriminate]
  end;
  let H := fresh "H" in
  intros H; injection H as <-; cbn [out]; rewrite <- !app_assoc; eexists;
  (split; [reflexivity|]); unfold checked_out, repository; cbn [app In]; tauto.

(** A checkout that ends normally has cloned, fetched and checked out. *)
Lemma checkout_done commit (s1 s2 : shell) :
  checkout commit s1 = (Next tt, s2) ->
  exists mid, out s2 = out s1 ++ mid /\ checked_out commit mid.
Proof.
  unfold BuildSh.checkout. rewrite !bind_echo.
  unfold BuildSh.bind at 1. unfold test_d at 1. cbn [machine docs out].
  destruct (is_dir (machine s1) (lit "ic")).
  - rewrite !bind_assoc, bind_echo, bind_cmd. cbn [machine docs out].
    destruct (Z.eqb_spec (fst (run (RmRf (lit "ic")) (machine s1))) 0) as [E0|]; [|discriminate].
    rewrite !bind_cmd. cbn [machine docs out].
    clone_fetch_checkout commit.
  - rewrite bind_ret, !bind_cmd. cbn [machine docs out].
    clone_fetch_checkout commit.
Qed.

(** Where an event that is not among the first events of a list stands. *)
Lemma split_before {A} (l1 l2 pre post : list A) x :
  l1 ++ l2 = pre ++ x :: post -> ~ In x l1 -> exists pre', pre = l1 ++ pre'.
Proof.
  revert pre. induction l1 as [|a l1 IH]; intros pre H Hx; [now exists pre|].
  destruct pre as [|b pre]; cbn in H.
  - injection H as -> _. destruct Hx. now left.
  - injection H as -> H. destruct (IH pre H) as [pre' ->]; [intros Hin; apply Hx; now right|].
    now exists pre'.
Qed.

Lemma quiet_not_eval l step code :
  Forall (fun e => quiet e = true) l -> ~ In (Ran (Eval step) code) l.
Proof. intros H Hin. rewrite Forall_forall in H. now specialize (H _ Hin). Qed.

(** Before any build step the checkout was done, whatever the steps
    do. *)
Lemma steps_after_checkout (s : shell) pre step code post :
  out s = [] ->
  out (snd (script s)) = pre ++ Ran (Eval step) code :: post ->
  checked_out (declared_commit inspect (docs s)) pre.
Proof.
  intros Hs. rewrite script_unfold.
  destruct (adds_prepare disk inspect s) as [Hd1 (n1 & Ho1 & Hq1)].
  pose proof (prepare_declared_commit s) as Hc.
  rewrite Hs in Ho1. cbn [app] in Ho1.
  destruct (prepare s) as [[vars|c1] s1]; cbn [snd] in *.
  2:{ intros H. exfalso. apply (quiet_not_eval n1 step code Hq1).
      rewrite <- Ho1, H. apply in_or_app. right. now left. }
  rewrite (Hc s1 vars eq_refl). set (commit := declared_commit inspect (docs s)).
  destruct (adds_checkout disk run is_dir commit s1) as [Hd2 (n2 & Ho2 & Hq2)].
  pose proof (checkout_done commit s1) as Hdone.
  destruct (checkout commit s1) as [[[]|c2] s2]; cbn [snd] in *.
  2:{ intros H. exfalso. apply (quiet_not_eval (n1 ++ n2) step code).
      - apply Forall_app. now split.
      - rewrite <- Ho1, <- Ho2, H. apply in_or_app. right. now left. }
  destruct (Hdone s2 eq_refl) as (mid & Hmid & Hchecked).
  rewrite Ho2 in Hmid. apply app_inv_head in Hmid. subst mid.
  assert (Hfinal : forall (r : result unit * shell) rest,
            out (snd r) = out s2 ++ rest ->
            out (snd r) = pre ++ Ran (Eval step) code :: post ->
            checked_out commit pre).
  { intros r rest Hr H. rewrite Hr in H.
    destruct (split_before _ _ _ _ _ H) as [pre' ->].
    - rewrite Ho2, Ho1. apply quiet_not_eval. apply Forall_app. now split.
    - destruct Hchecked as (H1 & H2 & H3 & H4). rewrite Ho2.
      repeat split; apply in_or_app; left; apply in_or_app; right; assumption. }
  destruct (adds_build_any disk eval_step inspect (snd vars) s2) as [Hd3 (n3 & Ho3 & Hq3)].
  destruct (build (snd vars) s2) as [[after|c3] s3]; cbn [fst snd] in *.
  2:{ exact (Hfinal (Halt c3, s3) n3 Ho3). }
  destruct (adds_closing disk run is_file find_wasm (fst after) (snd after) s3)
    as [_ (n4 & Ho4 & Hq4)].
  apply (Hfinal _ (n3 ++ n4)). now rewrite Ho4, Ho3, app_assoc.
Qed.

(** *** The lines the loop reads *)

Lemma lines_from_break cur a b :
  lines_from cur (a ++ nl ++ b) = lines_from cur a ++ lines b.
Proof.
  revert cur. induction a as [|c a IH]; intros cur; [reflexivity|].
  cbn [app lines_from]. destruct (c =? 10)%N; [now rewrite IH | apply IH].
Qed.

Lemma lines_of_printed (t : value -> text) steps :
  lines (concat (map (fun st => t st ++ nl) steps))
  = flat_map (fun st => lines (t st)) steps ++ [[]].
Proof.
  induction steps as [|st steps IH]; [reflexivity|].
  cbn [map concat flat_map]. unfold lines at 1.
  now rewrite <- !app_assoc, lines_from_break, IH.
Qed.

(** [$(...)] drops the newlines at the end, and those only. *)
Lemma chomp_tail t : exists k, t = chomp t ++ repeat 10%N k.
Proof.
  unfold chomp. generalize (rev_involutive t). generalize (rev t) as r.
  intros r <-. induction r as [|c r IH]; [now exists 0%nat|].
  cbn [rev]. destruct (N.eqb_spec c 10) as [->|].
  - destruct IH as [k IH]. exists (S k). rewrite IH at 1. rewrite <- app_assoc.
    f_equal. change [10%N] with (repeat 10%N 1). rewrite <- repeat_app.
    now rewrite Nat.add_comm.
  - exists 0%nat. now rewrite app_nil_r.
Qed.

Lemma no_lines_in_newlines k : filter nonempty (lines (repeat 10%N k)) = [].
Proof. unfold lines. induction k as [|k IH]; [reflexivity | exact IH]. Qed.

Lemma lines_without_tail y k :
  filter nonempty (lines (y ++ repeat 10%N k)) = filter nonempty (lines y).
Proof.
  destruct k as [|k]; [now rewrite app_nil_r|].
  change (repeat 10%N (S k)) with (nl ++ repeat 10%N k). unfold lines at 1.
  now rewrite lines_from_break, filter_app, no_lines_in_newlines, app_nil_r.
Qed.

Lemma lines_of_chomp t : filter nonempty (lines (chomp t)) = filter nonempty (lines t).
Proof.
  destruct (chomp_tail t) as [k Hk]. rewrite Hk at 2. now rewrite lines_without_tail.
Qed.

(** The commands of a plan are the non-empty lines of its steps. *)
Lemma plan_commands_steps (ds : list (text * value)) doc steps :
  lookup (lit "build-steps.json") ds = Some doc ->
  get doc (lit "steps") = Some (Arr steps) ->
  plan_commands inspect ds = step_commands inspect steps.
Proof.
  intros Hdoc Hsteps. unfold plan_commands, step_commands. rewrite Hdoc, Hsteps.
  rewrite lines_of_chomp, lines_of_printed, filter_app.
  cbn [filter nonempty]. now rewrite app_nil_r.
Qed.

(** Without one of the two documents nothing is run. *)
Lemma script_without_document (s : shell) :
  lookup (lit "build-steps.json") (docs s) = None
  \/ lookup (lit "proposal.json") (docs s) = None ->
  exists line,
    script s
    = (Halt 1,
       Shell (docs s) (machine s)
         (out s ++ [Echo (lit "=== ICP Build Verifier ==="); Echo line])).
Proof.
  intros H. unfold BuildSh.script, BuildSh.prepare.
  rewrite bind_assoc, bind_echo. unfold BuildSh.bind, test_doc, echo, BuildSh.halt.
  cbn [docs machine out].
  destruct (lookup (lit "build-steps.json") (docs s)); cbn [negb docs machine out].
  - destruct H as [H|H]; [discriminate|]. rewrite H. cbn [negb docs machine out].
    rewrite <- app_assoc. eexists; reflexivity.
  - rewrite <- app_assoc. eexists; reflexivity.
Qed.

(** *** The status a part of the script ends with *)

Lemma loud_ret {A} (a : A) : loud (BuildSh.ret a).
Proof. intros s s' n H. discriminate. Qed.

Lemma loud_halt {A} n : n <> 0%Z -> loud (@BuildSh.halt disk A n).
Proof. intros Hn s s' m H. injection H as <- _. exact Hn. Qed.

Lemma loud_bind {A B} (c : sh A) (f : A -> sh B) :
  loud c -> (forall a, loud (f a)) -> loud (BuildSh.bind c f).
Proof.
  intros Hc Hf s s' n. unfold BuildSh.bind. specialize (Hc s).
  destruct (c s) as [[a|m] s1].
  - apply Hf.
  - intros H. injection H as <- <-. now apply (Hc s1).
Qed.

Lemma loud_echo line : loud (@echo disk line).
Proof. intros s s' n H. discriminate. Qed.

Lemma loud_cmd c : loud (cmd c).
Proof.
  intros s s' n. unfold BuildSh.cmd. destruct (run c (machine s)) as [st d].
  destruct (Z.eqb_spec st 0); [discriminate|]. intros H. now injection H as <- _.
Qed.

Lemma loud_test_doc path : loud (@test_doc disk path).
Proof. intros s s' n H. discriminate. Qed.

Lemma loud_test_d path : loud (test_d is_dir path).
Proof. intros s s' n H. discriminate. Qed.

Lemma loud_test_f path : loud (test_f is_file path).
Proof. intros s s' n H. discriminate. Qed.

Lemma loud_node_field path key : loud (@node_field disk inspect path key).
Proof.
  intros s s' n. unfold node_field.
  destruct (lookup path (docs s)) as [doc|]; [destruct (prop doc key)|];
    intros H; try discriminate; now injection H as <- _.
Qed.

Lemma loud_node_steps path : loud (@node_steps disk inspect path).
Proof.
  intros s s' n. unfold node_steps.
  destruct (lookup path (docs s)) as [doc|];
    [destruct (prop doc (lit "steps")) as [[[| | | | |]|]| |]|];
    intros H; try discriminate; now injection H as <- _.
Qed.

Lemma loud_find_head : loud (find_head find_wasm).
Proof.
  intros s s' n. unfold find_head. destruct (find_wasm (machine s)) as [paths st].
  destruct (Z.eqb_spec st 0); [discriminate|]. intros H. now injection H as <- _.
Qed.

Ltac loud_step :=
  first
    [ progress cbn [BuildSh.cmd_at BuildSh.find_head_at]
    | apply loud_bind; [|intros ?]
    | apply loud_echo | apply loud_cmd | apply loud_ret
    | apply loud_halt; discriminate
    | apply loud_test_doc | apply loud_test_d | apply loud_test_f
    | apply loud_node_field | apply loud_node_steps | apply loud_find_head
    | match goal with |- BuildNotions.loud (if ?b then _ else _) => destruct b end ].

(** *** Steps that leave the shell alone *)

Section Plain.

Hypothesis all_plain :
  forall step errexit path input d,
    exists status d', eval_step step errexit path input d = Returns status d' errexit path 0.

Lemma fixed_build commit path path' : adds (build path') (fixed_command commit path).
Proof.
  unfold BuildSh.build. repeat fixed_step.
  apply (adds_build_loop disk eval_step all_plain); intros; exact I.
Qed.

(** The build stage leaves option [-e] and the variable as they were. *)
Lemma build_next path (s2 s3 : shell) after :
  build path s2 = (Next after, s3) -> after = (true, path).
Proof.
  intros H.
  destruct (build_evals_any disk eval_step inspect all_plain path s2) as (ran & _ & _ & Ha).
  rewrite H in Ha. now destruct (Ha after eq_refl).
Qed.

(** The commands of a run but the build steps. *)
Lemma script_fixed (s : shell) :
  exists new,
    out (snd (script s)) = out s ++ new
    /\ Forall (fixed_command (declared_commit inspect (docs s))
                 (declared_path inspect (docs s))) new.
Proof.
  set (commit := declared_commit inspect (docs s)).
  set (path := declared_path inspect (docs s)).
  rewrite script_unfold.
  destruct (fixed_prepare commit path s) as [Hd1 (n1 & Ho1 & Hq1)].
  pose proof (prepare_declared_commit s) as Hc.
  pose proof (prepare_declared_path disk inspect s) as Hp.
  destruct (prepare s) as [[vars|c1] s1]; cbn [snd] in *; [|now exists n1].
  rewrite (Hc s1 vars eq_refl), (Hp s1 vars eq_refl). fold commit path.
  destruct (fixed_checkout commit path s1) as [Hd2 (n2 & Ho2 & Hq2)].
  destruct (checkout commit s1) as [[[]|c2] s2]; cbn [snd] in *.
  2:{ exists (n1 ++ n2). split; [now rewrite Ho2, Ho1, app_assoc|].
      apply Forall_app. now split. }
  destruct (fixed_build commit path path s2) as [Hd3 (n3 & Ho3 & Hq3)].
  pose proof (build_next path s2) as Hnext.
  destruct (build path s2) as [[after|c3] s3]; cbn [snd] in *.
  2:{ exists (n1 ++ n2 ++ n3). split; [now rewrite Ho3, Ho2, Ho1, <- !app_assoc|].
      rewrite !Forall_app. auto. }
  rewrite (Hnext s3 after eq_refl). cbn [fst snd].
  destruct (fixed_closing true commit path s3) as [_ (n4 & Ho4 & Hq4)].
  exists (n1 ++ n2 ++ n3 ++ n4). split; [now rewrite Ho4, Ho3, Ho2, Ho1, <- !app_assoc|].
  rewrite !Forall_app. auto.
Qed.

Lemma loud_build_loop input : forall path, loud (build_loop input 0 true path).
Proof.
  induction input as [|step rest IH]; intros path; cbn [BuildSh.build_loop];
    [apply loud_ret|].
  destruct step as [|x t]; [apply IH|].
  apply loud_bind; [apply loud_echo | intros _].
  apply loud_bind; [apply loud_echo | intros _].
  intros s s' n. unfold BuildSh.bind.
  destruct (eval_plain disk eval_step all_plain (x :: t) path rest s) as (st & d & ->).
  destruct (Z.eqb_spec st 0) as [->|Hne]; cbn [fst snd].
  - apply IH.
  - intros H. now injection H as <- _.
Qed.

(** The script ends with status 0 only by reaching its end. *)
Lemma loud_script : loud script.
Proof.
  intros s s' n. rewrite script_unfold.
  assert (H1 : loud prepare) by (unfold BuildSh.prepare; repeat loud_step).
  specialize (H1 s). destruct (prepare s) as [[vars|n1] s1].
  2:{ intros H. injection H as <- <-. now apply (H1 s1). }
  assert (H2 : loud (checkout (fst vars))) by (unfold BuildSh.checkout; repeat loud_step).
  specialize (H2 s1). destruct (checkout (fst vars) s1) as [[[]|n2] s2].
  2:{ intros H. injection H as <- <-. now apply (H2 s2). }
  assert (H3 : loud (build (snd vars)))
    by (unfold BuildSh.build; repeat first [apply loud_build_loop | loud_step]).
  specialize (H3 s2). pose proof (build_next (snd vars) s2) as Hnext.
  destruct (build (snd vars) s2) as [[after|n3] s3].
  2:{ intros H. injection H as <- <-. now apply (H3 s3). }
  rewrite (Hnext s3 after eq_refl). cbn [fst snd].
  assert (H4 : loud (BuildSh.bind (locate true (snd vars)) (fun _ => finish true)))
    by (unfold BuildSh.locate, BuildSh.finish; repeat loud_step).
  apply H4.
Qed.

(** *** A run that ends normally *)

Lemma locate_done path (s3 s4 : shell) :
  locate true path s3 = (Next tt, s4) ->
  exists new, out s4 = out s3 ++ new /\ In (Ran (Cp path artifact) 0) new.
Proof.
  unfold BuildSh.locate, BuildSh.cmd_at, BuildSh.find_head_at.
  rewrite !bind_echo, bind_cmd. cbn [machine docs out].
  destruct (Z.eqb_spec (fst (run (MkdirP (lit "../output")) (machine s3))) 0) as [E0|];
    [|discriminate].
  unfold BuildSh.bind at 1. unfold test_f at 1. cbn [machine docs out].
  destruct (is_file _ path).
  - rewrite bind_cmd. cbn [machine docs out].
    match goal with |- context [(fst (run ?c ?d) =? 0)%Z] =>
      destruct (Z.eqb_spec (fst (run c d)) 0) as [E1|]; [rewrite E1 | discriminate] end.
    unfold echo. intros H; injection H as <-. cbn [out]. rewrite <- !app_assoc.
    eexists. split; [reflexivity|]. unfold artifact. cbn [app In]. tauto.
  - rewrite !bind_echo. unfold BuildSh.bind, find_head, BuildSh.halt.
    destruct (find_wasm _) as [paths st]. destruct (st =? 0)%Z; discriminate.
Qed.

Lemma script_done (s : shell) :
  out s = [] ->
  status_of (fst (script s)) = 0%Z ->
  let new := out (snd (script s)) in
  checked_out (declared_commit inspect (docs s)) new
  /\ evals new = map succeeded (plan_commands inspect (docs s))
  /\ In (Ran (Cp (declared_path inspect (docs s)) artifact) 0) new
  /\ clean new.
Proof.
  intros Hs Hstatus new. subst new.
  assert (Hend : fst (script s) = Next tt).
  { pose proof (loud_script s) as Hl.
    destruct (script s) as [[[]|n] s']; [reflexivity|]. cbn in Hstatus. subst n.
    now destruct (Hl s' 0%Z eq_refl). }
  clear Hstatus.
  assert (Hclean : clean (out (snd (script s)))).
  { assert (H0 : clean (out s)) by (rewrite Hs; intros ? ? []).
    pose proof (safe_script disk run eval_step is_dir is_file find_wasm inspect all_plain s H0)
      as H.
    destruct (script s) as [[[]|n] s']; [exact H | discriminate]. }
  split; [|split; [|split; [|exact Hclean]]]; clear Hclean; revert Hend;
    rewrite script_unfold;
    destruct (adds_prepare disk inspect s) as [Hd1 (n1 & Ho1 & Hq1)];
    pose proof (prepare_declared_commit s) as Hc;
    pose proof (prepare_declared_path disk inspect s) as Hp;
    rewrite Hs in Ho1; cbn [app] in Ho1;
    (destruct (prepare s) as [[vars|c1] s1]; cbn [fst snd] in *; [|discriminate]);
    specialize (Hc s1 vars eq_refl); specialize (Hp s1 vars eq_refl);
    rewrite Hc, Hp;
    set (commit := declared_commit inspect (docs s));
    set (path := declared_path inspect (docs s));
    destruct (adds_checkout disk run is_dir commit s1) as [Hd2 (n2 & Ho2 & Hq2)];
    pose proof (checkout_done commit s1) as Hdone;
    (destruct (checkout commit s1) as [[[]|c2] s2]; cbn [fst snd] in *; [|discriminate]);
    destruct (Hdone s2 eq_refl) as (mid & Hmid & Hchecked);
    rewrite Ho2 in Hmid; apply app_inv_head in Hmid; subst mid;
    destruct (adds_build disk eval_step inspect all_plain path s2) as [Hd3 (n3 & Ho3 & Hq3)];
    destruct (build_evals_any disk eval_step inspect all_plain path s2)
      as (ran & Hran & _ & Hall);
    (destruct (build path s2) as [[after|c3] s3]; cbn [fst snd] in *; [|discriminate]);
    destruct (Hall after eq_refl) as [-> Hall']; cbn [fst snd];
    unfold BuildSh.bind;
    destruct (adds_locate disk run is_file find_wasm true path s3)
      as [Hd4 (n4 & Ho4 & Hq4)];
    pose proof (locate_done path s3) as Hloc;
    (destruct (locate true path s3) as [[[]|c4] s4]; cbn [fst snd] in *; [|discriminate]);
    destruct (Hloc s4 eq_refl) as (n4' & Hn4 & Hcp);
    rewrite Ho4 in Hn4; apply app_inv_head in Hn4; subst n4';
    destruct (adds_finish disk run true s4) as [Hd5 (n5 & Ho5 & Hq5)];
    intros _; rewrite Ho5, Ho4, Ho3, Ho2, Ho1.
  - destruct Hchecked as (H1 & H2 & H3 & H4).
    repeat split; do 3 (apply in_or_app; left); apply in_or_app; right; assumption.
  - rewrite Ho3, evals_app in Hran. apply app_inv_head in Hran.
    rewrite !evals_app.
    rewrite (evals_none _ _ quiet_no_eval Hq1), (evals_none _ _ quiet_no_eval Hq2).
    rewrite (evals_none _ _ closing_no_eval Hq4), (evals_none _ _ closing_no_eval Hq5).
    cbn [app]. rewrite !app_nil_r, Hran, Hall'.
    now rewrite Hd2, Hd1.
  - apply in_or_app; left. apply in_or_app; right. exact Hcp.
Qed.

End Plain.

End Script.

End CommandFacts.

Import CommandFacts.

Lemma builder_steps_plain (cmds : list text) : plain_plan builder_steps cmds.
Proof. intros step _ errexit path input d. eexists. eexists. reflexivity. Qed.



(** X11: for a plan whose commands leave the shell as they found it,
    whichever command of build.sh fails (the clone, the fetch, the
    checkout, a build step, the copy, ...), it is the last thing the
    script does: every command before it succeeded, nothing is run after
    it, and the script ends with the status of that command.  (After a
    step that switches option [-e] off this is lost, see
    [failed_step_is_passed_over].) *)
Theorem failed_command_ends_the_script :
  forall (disk : Type) (run : BuildSh.command -> disk -> Z * disk)
         (eval_step : text -> bool -> text -> list text -> disk -> BuildSh.reply disk)
         (is_dir is_file : disk -> text -> bool)
         (find_wasm : disk -> list text * Z) (inspect : jsval -> text)
         (s : BuildSh.shell disk) (pre post : list BuildSh.sh_event)
         (c : BuildSh.command) (code : Z),
    BuildSh.out s = [] ->
    plain_plan eval_step (plan_commands inspect (BuildSh.docs s)) ->
    let result := BuildSh.script run eval_step is_dir is_file find_wasm inspect s in
    BuildSh.out (snd result) = pre ++ BuildSh.Ran c code :: post ->
    code <> 0%Z ->
    post = [] /\ fst result = BuildSh.Halt code /\ clean pre.
Proof.
  intros disk run eval_step is_dir is_file find_wasm inspect s pre post c code Hs Hplain result.
  subst result.
  rewrite (script_calm disk run eval_step is_dir is_file find_wasm inspect s Hplain).
  set (result := BuildSh.script run (calm eval_step) is_dir is_file find_wasm inspect s).
  intros Hout Hne.
  assert (Hclean : clean (BuildSh.out s)) by (rewrite Hs; intros ? ? []).
  pose proof (safe_script disk run (calm eval_step) is_dir is_file find_wasm inspect
                (calm_plain disk eval_step) s Hclean) as H.
  fold result in H.
  assert (Hin : In (BuildSh.Ran c code) (BuildSh.out (snd result)))
    by (rewrite Hout; apply in_or_app; right; now left).
  destruct result as [[[]|n] s']; cbn [fst snd] in *.
  - now apply H in Hin.
  - destruct H as [H|(Hn & pre' & c' & Hl & Hpre)]; [now apply H in Hin|].
    rewrite Hl in Hout.
    destruct post as [|e post] using rev_ind.
    + apply app_inj_tail in Hout as [-> Heq]. injection Heq as _ ->. auto.
    + clear IHpost. exfalso.
      change (pre ++ BuildSh.Ran c code :: post ++ [e])
        with (pre ++ (BuildSh.Ran c code :: post) ++ [e]) in Hout.
      rewrite app_assoc in Hout. apply app_inj_tail in Hout as [-> _].
      apply Hne, (Hpre c). apply in_or_app. right. now left.
Qed.

Lemma failed_command_ends_the_script_witness :
  let result :=
    BuildSh.script offline_run toy_steps (fun _ _ => false) toy_is_file toy_find (fun _ => [])
      (toy_shell [bazel_build]) in
  @nil BuildSh.sh_event = [] /\ fst result = BuildSh.Halt 128
  /\ clean [ BuildSh.Echo (lit "=== ICP Build Verifier ===");
             BuildSh.Echo (lit "Commit hash: 89abcdef0123456789abcdef0123456789abcdef");
             BuildSh.Echo
               (lit "Expected WASM output: artifacts/canisters/registry-canister.wasm");
             BuildSh.Echo [];
             BuildSh.Echo (lit "=== Cloning dfinity/ic repository ===") ].
Proof.
  apply (failed_command_ends_the_script (list text) offline_run toy_steps (fun _ _ => false)
           toy_is_file toy_find (fun _ => []) (toy_shell [bazel_build])
           [ BuildSh.Echo (lit "=== ICP Build Verifier ===");
             BuildSh.Echo (lit "Commit hash: 89abcdef0123456789abcdef0123456789abcdef");
             BuildSh.Echo
               (lit "Expected WASM output: artifacts/canisters/registry-canister.wasm");
             BuildSh.Echo [];
             BuildSh.Echo (lit "=== Cloning dfinity/ic repository ===") ]
           []
           (BuildSh.GitClone (lit "https://github.com/dfinity/ic.git") (lit "ic")) 128%Z).
  - reflexivity.
  - apply toy_steps_plain.
  - vm_compute. reflexivity.
  - discriminate.
Defined.


(** X12: build.sh runs a build step only inside a checkout of the plan's
    commit: before every build step of a run, the repository was cloned
    into [ic], the script moved there, and the commit of the plan was
    fetched and checked out, each with status 0. *)
Theorem steps_run_in_the_checkout :
  forall (disk : Type) (run : BuildSh.command -> disk -> Z * disk)
         (eval_step : text -> bool -> text -> list text -> disk -> BuildSh.reply disk)
         (is_dir is_file : disk -> text -> bool)
         (find_wasm : disk -> list text * Z) (inspect : jsval -> text)
         (s : BuildSh.shell disk) (pre post : list BuildSh.sh_event)
         (step : text) (code : Z),
    BuildSh.out s = [] ->
    BuildSh.out (snd (BuildSh.script run eval_step is_dir is_file find_wasm inspect s))
    = pre ++ BuildSh.Ran (BuildSh.Eval step) code :: post ->
    checked_out (declared_commit inspect (BuildSh.docs s)) pre.
Proof.
  intros disk run eval_step is_dir is_file find_wasm inspect s pre post step code.
  apply steps_after_checkout.
Qed.

Lemma steps_run_in_the_checkout_witness :
  let trace :=
    BuildSh.out (snd (BuildSh.script toy_run toy_steps (fun _ _ => false) toy_is_file toy_find
                        (fun _ => []) (toy_shell [bazel_build]))) in
  checked_out (declared_commit (fun _ => []) (BuildSh.docs (toy_shell [bazel_build])))
    (firstn 14 trace).
Proof.
  intros trace.
  apply (steps_run_in_the_checkout (list text) toy_run toy_steps (fun _ _ => false)
           toy_is_file toy_find
           (fun _ => []) (toy_shell [bazel_build]) (firstn 14 trace) (skipn 15 trace)
           bazel_build 0%Z).
  - reflexivity.
  - vm_compute. reflexivity.
Defined.

(** X13: build.sh does nothing without its two inputs: when
    build-steps.json or proposal.json is missing from the workspace, the
    script prints its banner and one error line and exits with status 1;
    no command is run and the machine is left as it was. *)
Theorem build_needs_both_documents :
  forall (disk : Type) (run : BuildSh.command -> disk -> Z * disk)
         (eval_step : text -> bool -> text -> list text -> disk -> BuildSh.reply disk)
         (is_dir is_file : disk -> text -> bool)
         (find_wasm : disk -> list text * Z) (inspect : jsval -> text)
         (s : BuildSh.shell disk),
    lookup (lit "build-steps.json") (BuildSh.docs s) = None
    \/ lookup (lit "proposal.json") (BuildSh.docs s) = None ->
    let result := BuildSh.script run eval_step is_dir is_file find_wasm inspect s in
    fst result = BuildSh.Halt 1
    /\ BuildSh.machine (snd result) = BuildSh.machine s
    /\ BuildSh.docs (snd result) = BuildSh.docs s
    /\ exists line,
         BuildSh.out (snd result)
         = BuildSh.out s
           ++ [BuildSh.Echo (lit "=== ICP Build Verifier ==="); BuildSh.Echo line].
Proof.
  intros disk run eval_step is_dir is_file find_wasm inspect s H result.
  destruct (script_without_document disk run eval_step is_dir is_file find_wasm inspect s H)
    as [line Hline].
  subst result. rewrite Hline. cbn [fst snd BuildSh.machine BuildSh.docs BuildSh.out].
  repeat split. now exists line.
Qed.

Lemma build_needs_both_documents_witness :
  let s := BuildSh.Shell
             [(lit "build-steps.json",
               Obj [(lit "commitHash", Str (lit "89abcdef0123456789abcdef0123456789abcdef"));
                    (lit "steps", Arr [Str bazel_build]);
                    (lit "wasmOutputPath", Str (lit "out.wasm"))])]
             (@nil text) [] in
  let result := BuildSh.script toy_run toy_steps (fun _ _ => false) toy_is_file toy_find
                  (fun _ => []) s in
  fst result = BuildSh.Halt 1
  /\ BuildSh.machine (snd result) = BuildSh.machine s
  /\ BuildSh.docs (snd result) = BuildSh.docs s
  /\ exists line,
       BuildSh.out (snd result)
       = BuildSh.out s
         ++ [BuildSh.Echo (lit "=== ICP Build Verifier ==="); BuildSh.Echo line].
Proof.
  intros s.
  apply (build_needs_both_documents (list text) toy_run toy_steps (fun _ _ => false)
           toy_is_file toy_find (fun _ => []) s).
  right. reflexivity.
Defined.



(** A step that ends the shell ends the script with the status it
    gives: after [exit 0] the script has ended with status 0, and
    nothing was built or copied. *)
Example exit_step_ends_the_script :
  let result :=
    BuildSh.script toy_run sh_steps (fun _ _ => false) toy_is_file toy_find (fun _ => [])
      (toy_shell leaving_plan) in
  BuildSh.status_of (fst result) = 0%Z
  /\ evals (BuildSh.out (snd result)) = [(lit "exit 0", 0%Z)]
  /\ existsb is_cp (BuildSh.out (snd result)) = false.
Proof. vm_compute. repeat split; reflexivity. Qed.




(* ================================================================= *)
(** ** The commentary in a text *)

Module SpanFacts.

#[local] Abbreviation any := (Class false [(0%N, 65535%N)]).
#[local] Abbreviation close := (step (char_matches false (cu "}")) Some).

(** No closing brace, no match of [[\s\S]*\}]. *)
Lemma star_no_close aft : forall bef c,
  ~ In (cu "}") aft ->
  star_loop (m false any) true close (length aft) (MState bef aft c) = None.
Proof.
  induction aft as [|x rest IH]; intros bef c Hno; [reflexivity|].
  cbn [length star_loop m]. unfold step at 1. cbn [after before cap1].
  assert (Hx : (cu "}" =? x)%N = false).
  { apply N.eqb_neq. intros E. apply Hno. now left. }
  assert (Hk : close (MState bef (x :: rest) c) = None).
  { unfold step, char_matches. cbn [after]. now rewrite Hx. }
  destruct (class_matches false false [(0%N, 65535%N)] x); [|exact Hk].
  unfold progressed. cbn [after length].
  rewrite (proj2 (Nat.ltb_lt _ _) (Nat.lt_succ_diag_r _)).
  rewrite IH by (intros H; apply Hno; now right). exact Hk.
Qed.

(** The greedy [[\s\S]*\}] ends at the last closing brace. *)
Lemma star_last_close body : forall bef post c,
  Forall (fun x => (x <= 65535)%N) body ->
  ~ In (cu "}") post ->
  star_loop (m false any) true close (length (body ++ cu "}" :: post))
    (MState bef (body ++ cu "}" :: post) c)
  = Some (MState (rev (body ++ [cu "}"]) ++ bef) post c).
Proof.
  induction body as [|x body IH]; intros bef post c Hwf Hno.
  - cbn [app length star_loop m]. unfold step at 1. cbn [after before cap1].
    change (class_matches false false [(0%N, 65535%N)] (cu "}")) with true. cbn iota.
    unfold progressed. cbn [after length].
    rewrite (proj2 (Nat.ltb_lt _ _) (Nat.lt_succ_diag_r _)).
    rewrite star_no_close by exact Hno. reflexivity.
  - inversion Hwf as [|? ? Hx Hwf']; subst.
    cbn [app length star_loop m]. unfold step at 1. cbn [after before cap1].
    assert (Hc : class_matches false false [(0%N, 65535%N)] x = true).
    { unfold class_matches, in_ranges, in_range. cbn [existsb fst snd xorb].
      rewrite orb_false_r. apply andb_true_intro. split; apply N.leb_le; [lia | exact Hx]. }
    rewrite Hc. unfold progressed. cbn [after length].
    rewrite (proj2 (Nat.ltb_lt _ _) (Nat.lt_succ_diag_r _)).
    rewrite IH by assumption. cbn [app rev]. now rewrite <- !app_assoc.
Qed.

Lemma object_at_open bef body post :
  Forall (fun x => (x <= 65535)%N) body ->
  ~ In (cu "}") post ->
  m false PostCommentary.jsonObjectRegex Some
    (MState bef (cu "{" :: body ++ cu "}" :: post) None)
  = Some (MState (rev (body ++ [cu "}"]) ++ cu "{" :: bef) post None).
Proof.
  intros Hwf Hno. unfold PostCommentary.jsonObjectRegex. cbn [m]. unfold step at 1.
  cbn [after before cap1]. change (char_matches false (cu "{") (cu "{")) with true.
  cbn iota. now apply star_last_close.
Qed.

Lemma no_object_here bef aft :
  match aft with
  | [] => True
  | x :: rest => x <> cu "{" \/ ~ In (cu "}") rest
  end ->
  m false PostCommentary.jsonObjectRegex Some (MState bef aft None) = None.
Proof.
  intros H. unfold PostCommentary.jsonObjectRegex. cbn [m]. unfold step at 1.
  cbn [after before cap1]. destruct aft as [|x rest]; [reflexivity|].
  unfold char_matches. destruct (N.eqb_spec (cu "{") x) as [<-|]; [|reflexivity].
  destruct H as [H|H]; [congruence|]. now apply star_no_close.
Qed.

(** The search stops at the first opening brace that has a closing
    brace after it. *)
Lemma search_object pre : forall bef body post,
  ~ In (cu "{") pre ->
  Forall (fun x => (x <= 65535)%N) body ->
  ~ In (cu "}") post ->
  search false PostCommentary.jsonObjectRegex bef (pre ++ cu "{" :: body ++ cu "}" :: post)
  = Some (MState (rev pre ++ bef) (cu "{" :: body ++ cu "}" :: post) None,
          MState (rev (body ++ [cu "}"]) ++ cu "{" :: rev pre ++ bef) post None).
Proof.
  induction pre as [|x pre IH]; intros bef body post Hpre Hwf Hno.
  - cbn [app rev search]. now rewrite object_at_open by assumption.
  - cbn [app search]. rewrite no_object_here.
    2:{ left. intros ->. apply Hpre. now left. }
    rewrite IH; try assumption.
    + cbn [rev]. now rewrite <- !app_assoc.
    + intros H. apply Hpre. now right.
Qed.

Lemma search_no_object aft : forall bef,
  (forall pre post, aft = pre ++ cu "{" :: post -> ~ In (cu "}") post) ->
  search false PostCommentary.jsonObjectRegex bef aft = None.
Proof.
  induction aft as [|x rest IH]; intros bef H.
  - cbn [search]. now rewrite no_object_here.
  - cbn [search]. rewrite no_object_here.
    + apply IH. intros pre post ->. apply (H (x :: pre) post). reflexivity.
    + destruct (N.eq_dec x (cu "{")) as [->|]; [right | now left].
      apply (H [] rest). reflexivity.
Qed.

Lemma exec_object pre body post :
  ~ In (cu "{") pre ->
  Forall (fun x => (x <= 65535)%N) body ->
  ~ In (cu "}") post ->
  option_map matched
    (exec false PostCommentary.jsonObjectRegex (pre ++ cu "{" :: body ++ cu "}" :: post))
  = Some (cu "{" :: body ++ [cu "}"]).
Proof.
  intros Hpre Hwf Hno. unfold exec. rewrite search_object by assumption.
  cbn [option_map result_of matched]. unfold consumed. cbn [before].
  rewrite app_nil_r. f_equal.
  replace (length (rev (body ++ [cu "}"]) ++ cu "{" :: rev pre) - length (rev pre))%nat
    with (length (rev (body ++ [cu "}"]) ++ [cu "{"])).
  2:{ repeat (rewrite ?length_app, ?length_rev; cbn [length]). lia. }
  change (rev (body ++ [cu "}"]) ++ cu "{" :: rev pre)
    with (rev (body ++ [cu "}"]) ++ [cu "{"] ++ rev pre).
  rewrite app_assoc, firstn_app, Nat.sub_diag, firstn_all. cbn [firstn].
  rewrite app_nil_r, rev_app_distr, rev_involutive. reflexivity.
Qed.

End SpanFacts.

(** X16: the commentary is looked for between the first opening brace of
    a text and its last closing brace, and nowhere else: that span is
    what [extractJsonFromText] parses, and the value is returned when it
    has a truthy [title] and a truthy [overall_summary].  Prose that
    holds a brace before or after the commentary, or two objects in one
    text, therefore hide a commentary that is there. *)
Theorem extractJsonFromText_first_to_last_brace :
  forall (pre body post : text),
    ~ In (cu "{") pre ->
    ~ In (cu "}") post ->
    Forall (fun x => (x <= 65535)%N) body ->
    PostCommentary.extractJsonFromText (pre ++ cu "{" :: body ++ cu "}" :: post)
    = match JSON_parse (cu "{" :: body ++ [cu "}"]) with
      | Some parsed =>
          if truthy (get parsed (lit "title")) && truthy (get parsed (lit "overall_summary"))
          then Some parsed else None
      | None => None
      end.
Proof.
  intros pre body post Hpre Hpost Hwf.
  pose proof (SpanFacts.exec_object pre body post Hpre Hwf Hpost) as H.
  unfold PostCommentary.extractJsonFromText.
  destruct (exec false PostCommentary.jsonObjectRegex _) as [r|]; [|discriminate].
  cbn [option_map] in H. injection H as ->.
  destruct (JSON_parse _) as [parsed|]; [|reflexivity].
  destruct parsed; reflexivity.
Qed.

Lemma extractJsonFromText_first_to_last_brace_witness :
  PostCommentary.extractJsonFromText
    (lit "Commentary: " ++ cu "{" :: qlit "'title':'T','overall_summary':'S'"
       ++ cu "}" :: lit " (end)")
  = match JSON_parse (cu "{" :: qlit "'title':'T','overall_summary':'S'" ++ [cu "}"]) with
    | Some parsed =>
        if truthy (get parsed (lit "title")) && truthy (get parsed (lit "overall_summary"))
        then Some parsed else None
    | None => None
    end.
Proof.
  apply (extractJsonFromText_first_to_last_brace (lit "Commentary: ")
           (qlit "'title':'T','overall_summary':'S'") (lit " (end)")).
  - vm_compute. intuition discriminate.
  - vm_compute. intuition discriminate.
  - apply Forall_forall. intros x Hx. apply N.leb_le. revert x Hx.
    apply forallb_forall. vm_compute. reflexivity.
Defined.

(** X17: a text in which no opening brace is followed by a closing brace
    holds no commentary for [extractJsonFromText]: the result is null,
    whatever else the text says. *)
Theorem extractJsonFromText_needs_braces :
  forall t : text,
    (forall pre post, t = pre ++ cu "{" :: post -> ~ In (cu "}") post) ->
    PostCommentary.extractJsonFromText t = None.
Proof.
  intros t H. unfold PostCommentary.extractJsonFromText, exec.
  now rewrite SpanFacts.search_no_object.
Qed.

Lemma extractJsonFromText_needs_braces_witness :
  PostCommentary.extractJsonFromText (lit "}{") = None.
Proof.
  apply (extractJsonFromText_needs_braces (lit "}{")).
  intros pre post H.
  destruct pre as [|a [|b pre]]; cbn in H; try discriminate.
  - injection H as _ <-. intros [].
  - injection H as _ _ H. now destruct pre.
Defined.

(* ================================================================= *)
(** ** The poster: when it posts and how it ends *)

Module PosterFacts.

Lemma pn_bind_lift {A B} (o : outcome A) (f : A -> M B) :
  (forall a, o = Ret a -> posts_nothing (f a)) -> posts_nothing (Node.bind (lift o) f).
Proof.
  intros H w. unfold Node.bind, lift. destruct o as [a|e|n].
  - exact (H a eq_refl w).
  - exists []. now rewrite app_nil_r.
  - exists []. now rewrite app_nil_r.
Qed.

(** What a handler that reports and leaves makes of a body. *)
Lemma caught_or_left {A} (body : M A) (h : js_error -> M A) w :
  (forall e w', exists n, fst (h e w') = Exit n) ->
  forall e, fst (try_catch body h w) <> Throw e.
Proof.
  intros Hh e. unfold try_catch. destruct (body w) as [[a|e'|n] w']; try discriminate.
  destruct (Hh e' w') as [n Hn]. rewrite Hn. discriminate.
Qed.

(** The run up to the request, when a commentary was extracted. *)
Ltac run_to_post Hparse Hc E Hid :=
  unfold PostCommentary.postCommentary; fold default_output;
  unfold console_log at 1; rewrite try_bind_emit; rewrite Hparse, try_bind_lift, Hc;
  unfold prop at 1; cbn [get]; rewrite try_bind_lift, E; cbn [negb];
  first
    [ rewrite try_bind_ret
    | rewrite try_bind_assoc, (template_printable _ Hid), try_bind_ret;
      rewrite try_bind_assoc; unfold console_warn at 1; rewrite try_bind_emit;
      rewrite try_bind_assoc; unfold console_warn at 1; rewrite try_bind_emit;
      unfold PostCommentary.assign; rewrite try_bind_lift ];
  unfold console_log at 1; rewrite try_bind_emit, try_bind_emit; cbn [files trace].

(** The run when the warning about the identifier cannot be written. *)
Ltac run_to_warning Hparse Hc E Hid :=
  unfold PostCommentary.postCommentary; fold default_output;
  unfold console_log at 1; rewrite try_bind_emit; rewrite Hparse, try_bind_lift, Hc;
  unfold prop at 1; cbn [get]; rewrite try_bind_lift, E; cbn [negb];
  rewrite try_bind_assoc, (template_not_printable _ Hid).

Section Run.

Variable argv2 : option text.
Variables (c0 : N) (id : text) (u0 : N) (rl : text) (k0 : N) (ey : text).
Variable readFileSync : text -> outcome text.
Variable fetch : text -> text -> value -> outcome PostCommentary.response.

#[local] Abbreviation proposalId := (c0 :: id).
#[local] Abbreviation portalUrl := (u0 :: rl).
#[local] Abbreviation secret := (k0 :: ey).
#[local] Abbreviation run :=
  (PostCommentary.postCommentary argv2 (Some proposalId) (Some portalUrl) (Some secret)
     readFileSync fetch).
#[local] Abbreviation reply st members :=
  (fetch (commentary_url portalUrl proposalId) (lit "Bearer " ++ secret)
     (payload_for st members proposalId)).

(** Without a commentary nothing is posted. *)
Lemma quiet_without_commentary :
  (forall st c, PostCommentary.parseClaudeOutput readFileSync (or_else argv2 default_output)
                = Ret st -> PostCommentary.commentary st <> Some c) ->
  posts_nothing run.
Proof.
  intros H. unfold PostCommentary.postCommentary. fold default_output.
  apply pn_try_catch; [|intros e; repeat pn_step].
  apply pn_bind; [apply pn_console|]. intros _.
  apply pn_bind_lift. intros st Hst. specialize (H st).
  destruct (PostCommentary.commentary st) as [c|]; [now elim (H c Hst)|].
  repeat pn_step.
Qed.

(** A run that ends normally has had its request accepted. *)
Lemma accepted_when_done w st members :
  PostCommentary.parseClaudeOutput readFileSync (or_else argv2 default_output) = Ret st ->
  PostCommentary.commentary st = Some (Obj members) ->
  fst (run w) = Ret tt ->
  exists response, reply st members = Ret response /\ PostCommentary.ok response = true.
Proof.
  intros Hparse Hc. unfold commentary_url, payload_for.
  destruct (printable (lookup (lit "proposal_id") members)) eqn:Hid.
  2:{ destruct (PostCommentary.is_str (lookup (lit "proposal_id") members) proposalId) eqn:E.
      - apply is_str_true in E. rewrite E in Hid. discriminate.
      - run_to_warning Hparse Hc E Hid. discriminate. }
  destruct (PostCommentary.is_str (lookup (lit "proposal_id") members) proposalId) eqn:E;
    run_to_post Hparse Hc E Hid.
  1: apply is_str_true in E; rewrite (set_same _ _ _ E).
  all: match goal with |- context [lift ?o] => destruct o as [response|e|n] end;
    [|discriminate|discriminate];
    rewrite try_bind_lift; destruct (PostCommentary.ok response) eqn:Hok; cbn [negb];
    [intros _; now exists response|];
    rewrite try_bind_assoc;
    destruct (PostCommentary.body_text response) as [t|e|n]; discriminate.
Qed.

(** A request that the portal rejects. *)
Lemma rejected_run w st members response errorText :
  PostCommentary.parseClaudeOutput readFileSync (or_else argv2 default_output) = Ret st ->
  PostCommentary.commentary st = Some (Obj members) ->
  printable (lookup (lit "proposal_id") members) = true ->
  reply st members = Ret response ->
  PostCommentary.ok response = false ->
  PostCommentary.body_text response = Ret errorText ->
  exists before,
    run w
    = (Exit 1,
       World (files w)
         (trace w ++ before
          ++ [ HttpPost (commentary_url portalUrl proposalId) (lit "Bearer " ++ secret)
                 (payload_for st members proposalId);
               Console Err
                 [ AText (10060%N :: lit " Failed to post commentary:");
                   AErr (Error (lit "HTTP " ++ decimal_text (PostCommentary.status response)
                                  ++ lit ": " ++ errorText)) ] ]))
    /\ existsb is_post before = false.
Proof.
  intros Hparse Hc Hid. unfold commentary_url, payload_for.
  intros Hf Hok Htext.
  destruct (PostCommentary.is_str (lookup (lit "proposal_id") members) proposalId) eqn:E;
    run_to_post Hparse Hc E Hid.
  1: apply is_str_true in E; rewrite (set_same _ _ _ E) in Hf |- *.
  all: rewrite Hf, try_bind_lift, Hok; cbn [negb];
    rewrite try_bind_assoc, Htext, try_bind_lift;
    unfold try_catch, Node.bind, throw, console_error, emit, exit; cbn [files trace].
  - eexists [_; _]. rewrite <- !app_assoc. split; reflexivity.
  - eexists [_; _; _; _]. rewrite <- !app_assoc. split; reflexivity.
Qed.

(** The runs that do not get as far as a request. *)
Lemma run_without_commentary w st :
  PostCommentary.parseClaudeOutput readFileSync (or_else argv2 default_output) = Ret st ->
  PostCommentary.commentary st = None ->
  run w
  = (Exit 0,
     World (files w)
       (trace w
        ++ [ Console Log [AText (lit "Parsing commentary from ");
                          AText (or_else argv2 default_output); AText (lit "...")];
             Console Warn
               [AText (lit "Warning: Could not extract commentary JSON from Claude output")];
             Console Warn [AText (lit "Skipping POST to portal")] ])).
Proof.
  intros Hparse Hc. unfold PostCommentary.postCommentary. fold default_output.
  unfold console_log at 1. rewrite try_bind_emit, Hparse, try_bind_lift, Hc.
  unfold console_warn. rewrite !try_bind_emit. cbn [files trace].
  unfold try_catch, exit. now rewrite <- !app_assoc.
Qed.

Lemma run_on_unreadable_output w (o : outcome PostCommentary.stats) :
  PostCommentary.parseClaudeOutput readFileSync (or_else argv2 default_output) = o ->
  match o with
  | Ret _ => True
  | Throw e =>
      run w
      = (Exit 1,
         World (files w)
           (trace w
            ++ [ Console Log [AText (lit "Parsing commentary from ");
                              AText (or_else argv2 default_output); AText (lit "...")];
                 Console Err [AText (10060%N :: lit " Failed to post commentary:");
                              AErr e] ]))
  | Exit n => fst (run w) = Exit n
  end.
Proof.
  intros Hparse. unfold PostCommentary.postCommentary. fold default_output.
  unfold console_log at 1. rewrite !try_bind_emit, Hparse.
  destruct o as [st|e|n]; [exact I| |reflexivity].
  unfold try_catch, Node.bind, lift, console_error, emit, exit. cbn [files trace].
  now rewrite <- !app_assoc.
Qed.

End Run.

End PosterFacts.

Import PosterFacts.

(** X18: [postCommentary] sends a request to the portal only when it has
    all it needs: a run in which a request was sent was given a
    non-empty proposal identifier, a non-empty [PORTAL_URL] and a
    non-empty [COMMENTARY_SECRET], and a commentary was extracted from
    the recorded output.  An empty setting counts as a missing one. *)
Theorem post_needs_settings_and_commentary :
  forall (argv2 argv3 PORTAL_URL COMMENTARY_SECRET : option text)
         (readFileSync : text -> outcome text)
         (fetch : text -> text -> value -> outcome PostCommentary.response)
         (w : world) (new : list event),
    trace (snd (PostCommentary.postCommentary argv2 argv3 PORTAL_URL COMMENTARY_SECRET
                  readFileSync fetch w))
    = trace w ++ new ->
    existsb is_post new = true ->
    (exists proposalId, argv3 = Some proposalId /\ proposalId <> [])
    /\ (exists portalUrl, PORTAL_URL = Some portalUrl /\ portalUrl <> [])
    /\ (exists secret, COMMENTARY_SECRET = Some secret /\ secret <> [])
    /\ exists st c,
         PostCommentary.parseClaudeOutput readFileSync (or_else argv2 default_output) = Ret st
         /\ PostCommentary.commentary st = Some c.
Proof.
  intros argv2 argv3 PORTAL_URL COMMENTARY_SECRET readFileSync fetch w new Htrace Hpost.
  assert (Hquiet : forall c : M unit,
            posts_nothing c -> trace (snd (c w)) = trace w ++ new -> False).
  { intros c Hc H. destruct (Hc w) as (new' & H' & Hno). rewrite H' in H.
    apply app_inv_head in H. subst new'. congruence. }
  destruct argv3 as [[|c0 id]|], PORTAL_URL as [[|u0 rl]|], COMMENTARY_SECRET as [[|k0 ey]|];
    try (exfalso; revert Htrace; apply Hquiet;
         unfold PostCommentary.postCommentary; solve [repeat pn_step]).
  split; [eexists; split; [reflexivity | discriminate]|].
  split; [eexists; split; [reflexivity | discriminate]|].
  split; [eexists; split; [reflexivity | discriminate]|].
  destruct (PostCommentary.parseClaudeOutput readFileSync (or_else argv2 default_output))
    as [st|e|n] eqn:Hparse.
  1: destruct (PostCommentary.commentary st) as [c|] eqn:Hc; [now exists st, c|].
  all: exfalso; revert Htrace; apply Hquiet; apply quiet_without_commentary;
    intros st' c' Hst'; rewrite Hparse in Hst'; congruence.
Qed.

Lemma post_needs_settings_and_commentary_witness :
  (exists proposalId, Some (lit "131375") = Some proposalId /\ proposalId <> [])
  /\ (exists portalUrl, Some (lit "https://portal.example") = Some portalUrl /\ portalUrl <> [])
  /\ (exists secret, Some (lit "s3cret") = Some secret /\ secret <> [])
  /\ exists st c,
       PostCommentary.parseClaudeOutput toy_read (or_else None default_output) = Ret st
       /\ PostCommentary.commentary st = Some c.
Proof.
  apply (post_needs_settings_and_commentary None (Some (lit "131375"))
           (Some (lit "https://portal.example")) (Some (lit "s3cret")) toy_read toy_fetch fresh
           (trace (snd (PostCommentary.postCommentary None (Some (lit "131375"))
                          (Some (lit "https://portal.example")) (Some (lit "s3cret"))
                          toy_read toy_fetch fresh)))).
  - reflexivity.
  - vm_compute. reflexivity.
Defined.

(** X19: a normal end of [postCommentary] means that the portal took the
    commentary: the script returns without leaving the process only
    when its settings were there, a commentary was extracted, and the
    request that carries it under the proposal identifier of the command
    line got a reply with an ok status. *)
Theorem normal_end_means_accepted :
  forall (argv2 argv3 PORTAL_URL COMMENTARY_SECRET : option text)
         (readFileSync : text -> outcome text)
         (fetch : text -> text -> value -> outcome PostCommentary.response)
         (w : world),
    fst (PostCommentary.postCommentary argv2 argv3 PORTAL_URL COMMENTARY_SECRET
           readFileSync fetch w) = Ret tt ->
    exists proposalId portalUrl secret st members response,
      argv3 = Some proposalId /\ PORTAL_URL = Some portalUrl
      /\ COMMENTARY_SECRET = Some secret
      /\ PostCommentary.parseClaudeOutput readFileSync (or_else argv2 default_output) = Ret st
      /\ PostCommentary.commentary st = Some (Obj members)
      /\ fetch (commentary_url portalUrl proposalId) (lit "Bearer " ++ secret)
           (payload_for st members proposalId) = Ret response
      /\ PostCommentary.ok response = true.
Proof.
  intros argv2 argv3 PORTAL_URL COMMENTARY_SECRET readFileSync fetch w.
  destruct argv3 as [[|c0 id]|], PORTAL_URL as [[|u0 rl]|], COMMENTARY_SECRET as [[|k0 ey]|];
    try discriminate.
  intros Hend. exists (c0 :: id), (u0 :: rl), (k0 :: ey).
  pose proof (run_on_unreadable_output argv2 c0 id u0 rl k0 ey readFileSync fetch w _ eq_refl)
    as Hbad.
  destruct (PostCommentary.parseClaudeOutput readFileSync (or_else argv2 default_output))
    as [st|e|n] eqn:Hparse.
  2:{ apply (f_equal fst) in Hbad. cbn [fst] in Hbad.
      assert (Hx : @Ret unit tt = Exit 1) by (rewrite <- Hend; exact Hbad). discriminate. }
  2:{ assert (Hx : @Ret unit tt = Exit n) by (rewrite <- Hend; exact Hbad). discriminate. }
  pose proof (parseClaudeOutput_object _ _ _ Hparse) as Hobj.
  destruct (PostCommentary.commentary st) as [c|] eqn:Hc.
  2:{ pose proof (f_equal fst (run_without_commentary argv2 c0 id u0 rl k0 ey readFileSync
                                 fetch w st Hparse Hc)) as Hnone.
      cbn [fst] in Hnone.
      assert (Hx : @Ret unit tt = Exit 0) by (rewrite <- Hend; exact Hnone). discriminate. }
  destruct c as [| | | | |members]; try contradiction.
  destruct (accepted_when_done argv2 c0 id u0 rl k0 ey readFileSync fetch w st members
              Hparse Hc Hend) as (response & Hf & Hok).
  exists st, members, response. repeat split; assumption.
Qed.

Lemma normal_end_means_accepted_witness :
  exists proposalId portalUrl secret st members response,
    Some (lit "131375") = Some proposalId
    /\ Some (lit "https://portal.example") = Some portalUrl
    /\ Some (lit "s3cret") = Some secret
    /\ PostCommentary.parseClaudeOutput toy_read (or_else None default_output) = Ret st
    /\ PostCommentary.commentary st = Some (Obj members)
    /\ toy_fetch (commentary_url portalUrl proposalId) (lit "Bearer " ++ secret)
         (payload_for st members proposalId) = Ret response
    /\ PostCommentary.ok response = true.
Proof.
  apply (normal_end_means_accepted None (Some (lit "131375"))
           (Some (lit "https://portal.example")) (Some (lit "s3cret")) toy_read toy_fetch fresh).
  vm_compute. reflexivity.
Defined.

(** X20: no error escapes [postCommentary]: whatever the settings, the
    recorded output and the portal's reply, the script never ends with an
    exception (a rejected promise).  What goes wrong after the settings
    were checked is caught, reported and turned into an exit. *)
Theorem postCommentary_never_throws :
  forall (argv2 argv3 PORTAL_URL COMMENTARY_SECRET : option text)
         (readFileSync : text -> outcome text)
         (fetch : text -> text -> value -> outcome PostCommentary.response)
         (w : world) (e : js_error),
    fst (PostCommentary.postCommentary argv2 argv3 PORTAL_URL COMMENTARY_SECRET
           readFileSync fetch w) <> Throw e.
Proof.
  intros argv2 argv3 PORTAL_URL COMMENTARY_SECRET readFileSync fetch w e.
  destruct argv3 as [[|c0 id]|], PORTAL_URL as [[|u0 rl]|], COMMENTARY_SECRET as [[|k0 ey]|];
    try discriminate.
  unfold PostCommentary.postCommentary. apply caught_or_left.
  intros e' w'. now exists 1%Z.
Qed.

(** X21: finding no commentary is not a failure for [postCommentary]:
    when the recorded output is read and holds no commentary, the script
    warns twice, sends nothing and leaves with status 0. *)
Theorem no_commentary_is_no_failure :
  forall (argv2 : option text) (c0 : N) (id : text) (u0 : N) (rl : text) (k0 : N) (ey : text)
         (readFileSync : text -> outcome text)
         (fetch : text -> text -> value -> outcome PostCommentary.response)
         (w : world) (st : PostCommentary.stats),
    PostCommentary.parseClaudeOutput readFileSync (or_else argv2 default_output) = Ret st ->
    PostCommentary.commentary st = None ->
    PostCommentary.postCommentary argv2 (Some (c0 :: id)) (Some (u0 :: rl)) (Some (k0 :: ey))
      readFileSync fetch w
    = (Exit 0,
       World (files w)
         (trace w
          ++ [ Console Log [AText (lit "Parsing commentary from ");
                            AText (or_else argv2 default_output); AText (lit "...")];
               Console Warn
                 [AText (lit "Warning: Could not extract commentary JSON from Claude output")];
               Console Warn [AText (lit "Skipping POST to portal")] ])).
Proof.
  intros argv2 c0 id u0 rl k0 ey readFileSync fetch w st.
  apply run_without_commentary.
Qed.

Lemma no_commentary_is_no_failure_witness :
  PostCommentary.postCommentary None (Some (lit "131375")) (Some (lit "https://portal.example"))
    (Some (lit "s3cret")) (fun _ => Ret (lit "[]")) toy_fetch fresh
  = (Exit 0,
     World (files fresh)
       (trace fresh
        ++ [ Console Log [AText (lit "Parsing commentary from ");
                          AText (or_else None default_output); AText (lit "...")];
             Console Warn
               [AText (lit "Warning: Could not extract commentary JSON from Claude output")];
             Console Warn [AText (lit "Skipping POST to portal")] ])).
Proof.
  apply (no_commentary_is_no_failure None (cu "1") (lit "31375") (cu "h")
           (lit "ttps://portal.example") (cu "s") (lit "3cret") (fun _ => Ret (lit "[]"))
           toy_fetch fresh
           (PostCommentary.Stats None PostCommentary.zero PostCommentary.zero
              PostCommentary.zero)).
  - vm_compute. reflexivity.
  - reflexivity.
Defined.

(** X22: a reply of the portal that is not ok makes [postCommentary]
    fail: for a commentary whose [proposal_id] can be written into a
    template (so that the run gets as far as the request), the request
    was sent once, the error that is reported carries the HTTP status
    and the text of the reply, and the script leaves with status 1. *)
Theorem rejected_post_fails :
  forall (argv2 : option text) (c0 : N) (id : text) (u0 : N) (rl : text) (k0 : N) (ey : text)
         (readFileSync : text -> outcome text)
         (fetch : text -> text -> value -> outcome PostCommentary.response)
         (w : world) (st : PostCommentary.stats) (members : list (text * value))
         (response : PostCommentary.response) (errorText : text),
    let proposalId := c0 :: id in
    let portalUrl := u0 :: rl in
    let secret := k0 :: ey in
    PostCommentary.parseClaudeOutput readFileSync (or_else argv2 default_output) = Ret st ->
    PostCommentary.commentary st = Some (Obj members) ->
    printable (lookup (lit "proposal_id") members) = true ->
    fetch (commentary_url portalUrl proposalId) (lit "Bearer " ++ secret)
      (payload_for st members proposalId) = Ret response ->
    PostCommentary.ok response = false ->
    PostCommentary.body_text response = Ret errorText ->
    exists before,
      PostCommentary.postCommentary argv2 (Some proposalId) (Some portalUrl) (Some secret)
        readFileSync fetch w
      = (Exit 1,
         World (files w)
           (trace w ++ before
            ++ [ HttpPost (commentary_url portalUrl proposalId) (lit "Bearer " ++ secret)
                   (payload_for st members proposalId);
                 Console Err
                   [ AText (10060%N :: lit " Failed to post commentary:");
                     AErr (Error (lit "HTTP "
                                    ++ decimal_text (PostCommentary.status response)
                                    ++ lit ": " ++ errorText)) ] ]))
      /\ existsb is_post before = false.
Proof.
  intros argv2 c0 id u0 rl k0 ey readFileSync fetch w st members response errorText
    proposalId portalUrl secret.
  apply rejected_run.
Qed.

Lemma rejected_post_fails_witness :
  let members := match toy_commentary with Obj ms => ms | _ => [] end in
  let response :=
    PostCommentary.Response false 401 (Ret (lit "unauthorized")) (Throw SyntaxError) in
  let proposalId := lit "131375" in
  let portalUrl := lit "https://portal.example" in
  let secret := lit "s3cret" in
  exists before,
    PostCommentary.postCommentary None (Some proposalId) (Some portalUrl) (Some secret)
      toy_read (fun _ _ _ => Ret response) fresh
    = (Exit 1,
       World (files fresh)
         (trace fresh ++ before
          ++ [ HttpPost (commentary_url portalUrl proposalId) (lit "Bearer " ++ secret)
                 (payload_for toy_stats members proposalId);
               Console Err
                 [ AText (10060%N :: lit " Failed to post commentary:");
                   AErr (Error (lit "HTTP "
                                  ++ decimal_text (PostCommentary.status response)
                                  ++ lit ": " ++ lit "unauthorized")) ] ]))
    /\ existsb is_post before = false.
Proof.
  intros members response.
  apply (rejected_post_fails None (cu "1") (lit "31375") (cu "h")
           (lit "ttps://portal.example") (cu "s") (lit "3cret") toy_read
           (fun _ _ _ => Ret response) fresh toy_stats members response (lit "unauthorized")).
  - vm_compute. reflexivity.
  - vm_compute. reflexivity.
  - vm_compute. reflexivity.
  - reflexivity.
  - reflexivity.
  - reflexivity.
Defined.

(* ================================================================= *)
(** ** The recorded output: which commentary is taken *)

Module OutputFacts.

(** The items of a message are gone through from left to right. *)
Lemma scan_content_app a : forall b acc,
  PostCommentary.scan_content (a ++ b) acc
  = match PostCommentary.scan_content a acc with
    | Ret c => PostCommentary.scan_content b c
    | Throw e => Throw e
    | Exit n => Exit n
    end.
Proof.
  induction a as [|item a IH]; intros b acc; [reflexivity|].
  cbn [app PostCommentary.scan_content].
  destruct (prop item (lit "type")) as [ty|e|n]; try reflexivity.
  destruct (PostCommentary.is_str ty (lit "text") && truthy (get item (lit "text")));
    [|apply IH].
  destruct (get item (lit "text")) as [[| | |t| |]|]; try reflexivity.
  destruct (PostCommentary.extractJsonFromText t); apply IH.
Qed.

Lemma scan_text_item item t acc :
  get item (lit "type") = Some (Str (lit "text")) ->
  get item (lit "text") = Some (Str t) ->
  PostCommentary.scan_content [item] acc
  = Ret (match PostCommentary.extractJsonFromText t with
         | Some found => Some found
         | None => acc
         end).
Proof.
  intros Hty Htext. cbn [PostCommentary.scan_content].
  destruct item as [| | | | |ms]; try discriminate.
  cbn [prop]. rewrite Hty, Htext. cbn [PostCommentary.is_str].
  change (text_eqb (lit "text") (lit "text")) with true. cbn [andb truthy].
  destruct t as [|x t]; [reflexivity|].
  now destruct (PostCommentary.extractJsonFromText (x :: t)).
Qed.

End OutputFacts.

(** X23: of the commentaries in the texts of a message the last one
    wins.  When the items before a text item were gone through without
    an error, a commentary in that text replaces whatever was found
    before, and a text without a commentary leaves what was found
    before as it is. *)
Theorem last_commentary_of_a_message_wins :
  forall (items : list value) (item : value) (t : text) (acc c : option value),
    PostCommentary.scan_content items acc = Ret c ->
    get item (lit "type") = Some (Str (lit "text")) ->
    get item (lit "text") = Some (Str t) ->
    PostCommentary.scan_content (items ++ [item]) acc
    = Ret (match PostCommentary.extractJsonFromText t with
           | Some found => Some found
           | None => c
           end).
Proof.
  intros items item t acc c Hitems Hty Htext.
  rewrite OutputFacts.scan_content_app, Hitems.
  now apply OutputFacts.scan_text_item.
Qed.

Lemma last_commentary_of_a_message_wins_witness :
  let first := qlit "{'title':'A','overall_summary':'first'}" in
  let second := qlit "Revised: {'title':'B','overall_summary':'second'}" in
  let text_item t := Obj [(lit "type", Str (lit "text")); (lit "text", Str t)] in
  PostCommentary.scan_content ([text_item first] ++ [text_item second]) None
  = Ret (match PostCommentary.extractJsonFromText second with
         | Some found => Some found
         | None => PostCommentary.extractJsonFromText first
         end).
Proof.
  intros first second text_item.
  apply (last_commentary_of_a_message_wins [text_item first] (text_item second) second None
           (PostCommentary.extractJsonFromText first)).
  - vm_compute. reflexivity.
  - reflexivity.
  - reflexivity.
Defined.
